(** * Kysely migration module ([src/migration/migration.ts])

    A shallow embedding of the migration orchestrator and the properties of
    its specification.

    The orchestrator is asynchronous code that talks to a database through
    a query builder and may poll for a lock without bound.  Every function
    of the source is embedded as an interaction tree: a round trip to the
    database (or to the file system) is an event, [await] is the bind of
    the tree, a rejected promise is the left injection of the result, and
    the polling loop is [ITree.iter].  The meaning of the events is given
    afterwards by an environment, either left open (any answer is
    possible) or fixed to a model of the two tracking tables.

    Strings are byte strings ordered by their code units, maps from names
    to migrations are [gmap string _]. *)

From stdpp Require Import gmap strings list fin_maps sorting.
From ITree Require Import ITree Eq.Shallow.
From Stdlib Require Import Structures.OrdersEx.

Set Default Proof Using "Type".
Local Open Scope Z_scope.

(** ** The JavaScript values the module relies on *)

Module JS.

(** [a < b] on strings, the order [Array.prototype.sort] uses without a
    comparator and the [<] of the language on strings. *)
Definition lt (a b : string) : Prop := String.ltb a b = true.
Definition le (a b : string) : Prop := String.leb a b = true.

#[global] Instance le_dec a b : Decision (le a b).
Proof. unfold le. apply _. Defined.
#[global] Instance lt_dec a b : Decision (lt a b).
Proof. unfold lt. apply _. Defined.

(** [array.sort()] on an array of strings. *)
Definition sort (l : list string) : list string := merge_sort le l.

(** [array.findIndex(p)]: the first index whose element satisfies [p],
    [-1] when there is none. *)
Fixpoint findIndex {A} (p : A -> bool) (l : list A) : Z :=
  match l with
  | [] => -1
  | x :: l' =>
      if p x then 0
      else let i := findIndex p l' in if i =? -1 then -1 else i + 1
  end.

(** Relative index of [slice]: negative counts from the end, everything
    is clamped to [0 .. len]. *)
Definition clamp (len i : Z) : Z :=
  if i <? 0 then Z.max (len + i) 0 else Z.min i len.

(** [array.slice(start, end)]; [end] is [None] when omitted. *)
Definition slice {A} (l : list A) (start : Z) (end_ : option Z) : list A :=
  let len := Z.of_nat (length l) in
  let k := clamp len start in
  let final := match end_ with None => len | Some e => clamp len e end in
  take (Z.to_nat (final - k)) (drop (Z.to_nat k) l).

(** [new Set(array)]: the distinct elements in order of first insertion,
    which is the order [for (const it of set)] visits them in. *)
Definition Set_add (s : list string) (x : string) : list string :=
  if bool_decide (x ∈ s) then s else s ++ [x].
Definition Set_new (l : list string) : list string := foldl Set_add [] l.
Definition Set_has (s : list string) (x : string) : bool := bool_decide (x ∈ s).

(** [s.endsWith(suffix)]. *)
Definition endsWith (s suffix : string) : bool :=
  let n := String.length s in
  let k := String.length suffix in
  (k <=? n)%nat && String.eqb (String.substring (n - k) k s) suffix.

(** [s.substring(0, end)], [end] clamped at [0] as the language does. *)
Definition substring0 (s : string) (end_ : Z) : string :=
  String.substring 0 (Z.to_nat end_) s.

(** A thrown value.  Every error of this module is an [Error] object
    with a message. *)
Inductive Error := new_Error (message : string).

End JS.

Notation Result A := (JS.Error + A)%type.

(** Modelled from the spec: [getLast] of [src/util/object-utils] is not
    part of the sources at hand; the spec (4.3, step 3) has it return the
    last element, or none if the array is empty. *)
Definition getLast {A} (l : list A) : option A := last l.

(** ** Constants *)

Definition MIGRATION_TABLE : string := "kysely_migration".
Definition MIGRATION_LOCK_TABLE : string := "kysely_migration_lock".
Definition MIGRATION_LOCK_ID : string := "migration_lock".

(** ** Data model *)

Section Model.

(** Everything in the database besides the two tracking tables: the
    target schema the migrations act on. *)
Context {Schema : Type}.

(** The database as a transaction sees it.  [kysely_migration] has the
    single column [name], its primary key, so its rows are a set of
    names; [kysely_migration_lock] maps the primary key [id] to
    [is_locked].  A table that does not exist is [None]. *)
Record Data := mkData {
  migration_rows : option (gset string);
  lock_rows : option (gmap string Z);
  schema : Schema;
}.

(** An asynchronous operation [(db) => Promise<void>] whose promise
    settles: it changes the database and resolves, or rejects with an
    error.  An operation that never settles is not modelled. *)
Definition Op : Type := Data -> Data * Result unit.

(** [interface Migration { up(db); down(db) }], for an object that has
    the two operations as own properties, as an object literal and a
    loaded module have them. *)
Record Migration := mkMigration { up : Op; down : Op }.

(** The elements of [sortedMigrations]: [{...allMigrations[name], name}],
    the own properties of the migration and its name. *)
Record NamedMigration := mkNamed { nm_up : Op; nm_down : Op; name : string }.

Definition named (name : string) (m : Migration) : NamedMigration :=
  {| nm_up := up m; nm_down := down m; name := name |}.

(** What [getTableMetadata] resolves to for an existing table. *)
Variant TableMetadata := table_metadata (tableName : string).

(** A row of [kysely_migration_lock]. *)
Record LockRow := mkLockRow { id : string; is_locked : Z }.

(** A column of a [createTable] builder. *)
Variant ColumnType := col_string | col_integer.
Record Column := mkColumn {
  col_name : string;
  col_type : ColumnType;
  col_primary : bool;
  col_notNullable : bool;
  col_defaultTo : option Z;
}.

(** ** The query layer, as events

    One event for each query the module builds.  A query that can be
    rejected answers with a [Result]. *)
Variant dbE : Type -> Type :=
(** [db.getTableMetadata(tableName)] *)
| GetTableMetadata (tableName : string) : dbE (Result (option TableMetadata))
(** [db.schema.createTable(t).ifNotExists(). ... .execute()] *)
| CreateTableIfNotExists (t : string) (columns : list Column) : dbE (Result unit)
(** [db.selectFrom(LOCK_TABLE).where('id', '=', id).executeTakeFirst()] *)
| SelectLockRow (id : string) : dbE (Result (option LockRow))
(** [db.insertInto(LOCK_TABLE).values({ id }).execute()] *)
| InsertLockRow (id : string) : dbE (Result unit)
(** [db.updateTable(LOCK_TABLE).set({ is_locked }).where('is_locked', '=', w)
    .where('id', '=', id)], answering the number of updated rows; the
    first [where] is absent when [where_is_locked] is [None]. *)
| UpdateLock (is_locked : Z) (where_is_locked : option Z) (id : string) : dbE (Result Z)
(** [db.selectFrom(MIGRATION_TABLE).select('name').orderBy('name').execute()] *)
| SelectMigrationNames : dbE (Result (list string))
(** [db.insertInto(MIGRATION_TABLE).values({ name }).execute()] *)
| InsertMigration (name : string) : dbE (Result unit)
(** [migration.up(db)] *)
| CallUp (migration : NamedMigration) : dbE (Result unit)
(** [sleep(millis)], a timer: it cannot be rejected. *)
| Sleep (millis : Z) : dbE unit
(** The three statements [db.transaction] brackets its callback with. *)
| Begin : dbE (Result unit)
| Commit : dbE (Result unit)
| Rollback : dbE unit.

(** ** The file system and the module loader, as events *)

(** A value exported by a loaded module. *)
Variant Export := js_undefined | js_function (f : Op) | js_other (v : string).

(** The namespace object [await import(path)] resolves to, of which only
    the exports [up] and [down] are ever read. *)
Record Module := mkModule { exp_up : Export; exp_down : Export }.

(** What an assignment [obj[key] = value] did that was not rejected: it
    gave the object the own property [key], it stored nothing, or it
    replaced the prototype of the object. *)
Variant Assigned := property_stored | nothing_stored | prototype_replaced.

Variant fsE : Type -> Type :=
(** [fs.readdir(path)] *)
| Readdir (path : string) : fsE (Result (list string))
(** [import(path.join(folder, file))] *)
| Import (folder file : string) : fsE (Result Module)
(** [obj[key] = value] for an object that has no own property [key] and
    whose prototype is the loaded module [prototype].  The assignment
    goes through that module, and what it does depends on the kind of
    object the loader made of it, which the module at hand does not
    fix: the property is created, nothing is stored, the prototype is
    replaced once more, or a [TypeError] is thrown. *)
| Assign (prototype : Module) (key : string) (value : Module) : fsE (Result Assigned).

End Model.

Arguments Data : clear implicits.
Arguments Op : clear implicits.
Arguments Migration : clear implicits.
Arguments NamedMigration : clear implicits.
Arguments dbE : clear implicits.
Arguments Export : clear implicits.
Arguments Module : clear implicits.
Arguments fsE : clear implicits.

(** ** Promises *)

(** [await p; k]: when [p] is rejected the error is thrown, which in an
    [async] function rejects the promise it returns; otherwise [k] goes
    on with the value. *)
Definition await {E : Type -> Type} {A B}
    (p : itree E (Result A)) (k : A -> itree E (Result B)) : itree E (Result B) :=
  ITree.bind p (fun r => match r with inl e => Ret (inl e) | inr a => k a end).

Notation "'let*' x ':=' t 'in' k" := (ITree.bind t (fun x => k))
  (at level 10, x binder, t at level 100, k at level 200, only parsing).
Notation "'let*' x ':=' 'await' t 'in' k" := (await t (fun x => k))
  (at level 10, x binder, t at level 100, k at level 200, only parsing).

(** [return v] and [throw e] of an [async] function. *)
Definition resolve {E : Type -> Type} {A} (v : A) : itree E (Result A) := Ret (inr v).
Definition throw {E : Type -> Type} {A} (e : JS.Error) : itree E (Result A) := Ret (inl e).

(** [for (const x of l) { await body(x) }] *)
Fixpoint forOf {E : Type -> Type} {A} (l : list A) (body : A -> itree E (Result unit))
    : itree E (Result unit) :=
  match l with
  | [] => resolve tt
  | x :: l' => let* _ := await body x in forOf l' body
  end.

(** ** The module *)

Section Program.

Context {Schema : Type}.

Notation Data := (Data Schema).
Notation Migration := (Migration Schema).
Notation NamedMigration := (NamedMigration Schema).
Notation dbE := (dbE Schema).
Notation fsE := (fsE Schema).
Notation Module := (Module Schema).

Definition msg_missing (name : string) : string :=
  "corrupted migrations: previously executed migration " +:+ name +:+ " is missing".

Definition msg_before (name : string) : string :=
  "corrupted migrations: new migration " +:+ name
  +:+ " comes alphabetically before the last executed migration. New migrations must always have a name that comes alphabetically after the last executed migration.".

(** *** [ensureMigrationsAreNotCorrupted] (lines 234-256)

    Each [for] loop throws at the first element that fails its test. *)
Definition ensureMigrationsAreNotCorrupted
    (executedMigrationNames oldMigrationNames : list string) : Result unit :=
  let executedSet := JS.Set_new executedMigrationNames in
  let oldMigrationSet := JS.Set_new oldMigrationNames in
  match List.find (fun it => negb (JS.Set_has oldMigrationSet it)) executedSet with
  | Some it => inl (JS.new_Error (msg_missing it))
  | None =>
      match List.find (fun it => negb (JS.Set_has executedSet it)) oldMigrationSet with
      | Some it => inl (JS.new_Error (msg_before it))
      | None => inr tt
      end
  end.

(** [Object.keys(allMigrations)]; the order of the keys is immaterial,
    they are sorted next. *)
Definition Object_keys (allMigrations : gmap string Migration) : list string :=
  (map_to_list allMigrations).*1.

(** [Object.keys(allMigrations).sort().map((name) => ({...allMigrations[name], name}))] *)
Definition sortedMigrations (allMigrations : gmap string Migration) : list NamedMigration :=
  omap (fun name => named name <$> allMigrations !! name)
       (JS.sort (Object_keys allMigrations)).

(** [it.name === lastExecuted?.name] *)
Definition name_is (lastExecuted : option string) (it : NamedMigration) : bool :=
  match lastExecuted with
  | Some n => String.eqb (name it) n
  | None => false
  end.

(** [value ? a : b] and [value && ...] on a value that is an object or
    [undefined]. *)
Definition truthy {A} (value : option A) : bool := bool_decide (is_Some value).

(** *** [runNewMigrations] (lines 184-232)

    A row of the ledger is [{ name }]; it is represented by its name. *)
Definition runNewMigrations (allMigrations : gmap string Migration)
    : itree dbE (Result unit) :=
  let sortedMigrations := sortedMigrations allMigrations in
  let* executedMigrations := await ITree.trigger SelectMigrationNames in
  let lastExecuted := getLast executedMigrations in
  let lastExecutedIndex := JS.findIndex (name_is lastExecuted) sortedMigrations in
  let* _ := await
    match lastExecuted with
    | Some last_ =>
        if lastExecutedIndex =? -1
        then throw (JS.new_Error (msg_missing last_))
        else resolve tt
    | None => resolve tt
    end in
  let oldMigrations :=
    if truthy lastExecuted
    then JS.slice sortedMigrations 0 (Some (lastExecutedIndex + 1))
    else [] in
  let newMigrations :=
    if truthy lastExecuted
    then JS.slice sortedMigrations (lastExecutedIndex + 1) None
    else sortedMigrations in
  let* _ := await Ret (ensureMigrationsAreNotCorrupted
                         executedMigrations (name <$> oldMigrations)) in
  forOf newMigrations (fun migration =>
    let* _ := await ITree.trigger (CallUp migration) in
    ITree.trigger (InsertMigration (name migration))).

(** *** The lock (lines 159-182) *)

Definition tryAcquireLock : itree dbE (Result bool) :=
  let* numUpdatedRows :=
    await ITree.trigger (UpdateLock 1 (Some 0) MIGRATION_LOCK_ID) in
  resolve (numUpdatedRows =? 1).

(** [while (!(await tryAcquireLock(db))) { await sleep(100) }]: one turn
    of the loop either leaves it, with the rejection of the attempt or
    with success, or sleeps and goes round again. *)
Definition acquireLock : itree dbE (Result unit) :=
  ITree.iter (fun _ : unit =>
    let* attempt := tryAcquireLock in
    match attempt with
    | inl e => Ret (inr (inl e))
    | inr true => Ret (inr (inr tt))
    | inr false => let* _ := ITree.trigger (Sleep 100) in Ret (inl tt)
    end) tt.

Definition releaseLock : itree dbE (Result unit) :=
  let* _ := await ITree.trigger (UpdateLock 0 None MIGRATION_LOCK_ID) in
  resolve tt.

(** *** Bootstrap of the tracking tables (lines 87-157) *)

Definition doesTableExists (tableName : string) : itree dbE (Result bool) :=
  let* metadata := await ITree.trigger (GetTableMetadata tableName) in
  resolve (bool_decide (is_Some metadata)).

Definition doesLockRowExists : itree dbE (Result bool) :=
  let* lockRow := await ITree.trigger (SelectLockRow MIGRATION_LOCK_ID) in
  resolve (bool_decide (is_Some lockRow)).

(** [if (!(await exists())) { try { await create() } catch (error) {
    if (!(await exists())) { throw error } } }], the shape the three
    steps share. *)
Definition ensureExists (exists_ : itree dbE (Result bool))
    (create : itree dbE (Result unit)) : itree dbE (Result unit) :=
  let* found := await exists_ in
  if negb found then
    let* created := create in
    match created with
    | inr _ => resolve tt
    | inl error =>
        let* found_now := await exists_ in
        if negb found_now then throw error else resolve tt
    end
  else resolve tt.

Definition migration_table_columns : list Column :=
  [ mkColumn "name" col_string true false None ].

Definition lock_table_columns : list Column :=
  [ mkColumn "id" col_string true false None;
    mkColumn "is_locked" col_integer false true (Some 0) ].

Definition ensureMigrationTableExists : itree dbE (Result unit) :=
  ensureExists (doesTableExists MIGRATION_TABLE)
    (ITree.trigger (CreateTableIfNotExists MIGRATION_TABLE migration_table_columns)).

Definition ensureMigrationLockTableExists : itree dbE (Result unit) :=
  ensureExists (doesTableExists MIGRATION_LOCK_TABLE)
    (ITree.trigger (CreateTableIfNotExists MIGRATION_LOCK_TABLE lock_table_columns)).

Definition ensureLockRowExists : itree dbE (Result unit) :=
  ensureExists doesLockRowExists (ITree.trigger (InsertLockRow MIGRATION_LOCK_ID)).

Definition ensureMigrationTablesExists : itree dbE (Result unit) :=
  let* _ := await ensureMigrationTableExists in
  let* _ := await ensureMigrationLockTableExists in
  ensureLockRowExists.

(** Modelled from the spec: [db.transaction] belongs to the query layer
    ([src/kysely]), which is not part of the sources at hand.  By the
    spec (2, 4.3 and 5) the callback runs inside one transaction that
    commits when the callback resolves and rolls back entirely, passing
    the failure on, when it is rejected. *)
Definition transaction {A} (callback : itree dbE (Result A)) : itree dbE (Result A) :=
  let* _ := await ITree.trigger Begin in
  let* outcome := callback in
  match outcome with
  | inr a => let* _ := await ITree.trigger Commit in resolve a
  | inl e => let* _ := ITree.trigger Rollback in throw e
  end.

(** *** [doMigrateToLatest] (lines 52-63) *)
Definition doMigrateToLatest (migrations : gmap string Migration)
    : itree dbE (Result unit) :=
  let* _ := await ensureMigrationTablesExists in
  transaction (
    let* _ := await acquireLock in
    let* _ := await runNewMigrations migrations in
    releaseLock).

(** *** [readMigrationsFromFolder] (lines 65-85) and [isMigration] (262-264) *)

(** Modelled from the spec: [isFunction] of [src/util/object-utils] is not
    part of the sources at hand; it tells whether a value is a function. *)
Definition isFunction (v : Export Schema) : bool :=
  match v with js_function _ => true | _ => false end.

(** [obj && isFunction(obj.up) && isFunction(obj.down)]; a module
    namespace object is truthy. *)
Definition isMigration (obj : Module) : bool :=
  isFunction (exp_up obj) && isFunction (exp_down obj).

(** Calling an export.  Calling what is not a function throws. *)
Definition call (v : Export Schema) : Op Schema :=
  match v with
  | js_function f => f
  | _ => fun db => (db, inl (JS.new_Error "is not a function"))
  end.

(** The module seen at the type [Migration], as the type guard
    [obj is Migration] allows. *)
Definition asMigration (obj : Module) : Migration :=
  {| up := call (exp_up obj); down := call (exp_down obj) |}.

(** [migrations[key] = migration] (line 79), on the object [migrations]
    given by its own properties and its prototype, which is [None] as long
    as it is [Object.prototype].  An own property is overwritten.
    Otherwise the assignment goes through the prototype: [Object.prototype]
    has the setter [__proto__], which makes the value the prototype of
    the object and adds no property, and lets every other key be
    created; what a module that has become the prototype does is left
    to the environment. *)
Definition assign (migrations : gmap string Migration) (prototype : option Module)
    (key : string) (migration : Module)
    : itree fsE (Result (gmap string Migration * option Module)) :=
  match migrations !! key, prototype with
  | Some _, _ => resolve (<[key := asMigration migration]> migrations, prototype)
  | None, None =>
      if String.eqb key "__proto__" then resolve (migrations, Some migration)
      else resolve (<[key := asMigration migration]> migrations, None)
  | None, Some proto =>
      let* assigned := await ITree.trigger (Assign proto key migration) in
      match assigned with
      | property_stored => resolve (<[key := asMigration migration]> migrations, prototype)
      | nothing_stored => resolve (migrations, prototype)
      | prototype_replaced => resolve (migrations, Some migration)
      end
  end.

(** The body of the [for (const file of files)] loop, which updates the
    object [migrations] in place. *)
Fixpoint readFiles (migrationsFolderPath : string) (files : list string)
    (migrations : gmap string Migration) (prototype : option Module)
    : itree fsE (Result (gmap string Migration)) :=
  match files with
  | [] => resolve migrations
  | file :: files' =>
      if (JS.endsWith file ".js" || JS.endsWith file ".ts")
         && negb (JS.endsWith file ".d.ts")
      then
        let* migration :=
          await ITree.trigger (Import migrationsFolderPath file) in
        if isMigration migration then
          let* assigned :=
            await assign migrations prototype
                    (JS.substring0 file (Z.of_nat (String.length file) - 3)) migration in
          readFiles migrationsFolderPath files' assigned.1 assigned.2
        else readFiles migrationsFolderPath files' migrations prototype
      else readFiles migrationsFolderPath files' migrations prototype
  end.

(** The function resolves to the object [migrations], here its own
    properties: [Object.keys] and the look-ups by these keys are all
    [doMigrateToLatest] asks of it. *)
Definition readMigrationsFromFolder (migrationsFolderPath : string)
    : itree fsE (Result (gmap string Migration)) :=
  let* files := await ITree.trigger (Readdir migrationsFolderPath) in
  readFiles migrationsFolderPath files ∅ None.

(** *** [createMigrationModule] (lines 38-50)

    [migrateToLatest] takes the path of a folder, which it reads first, or
    the migrations themselves; [isString] tells which. *)
Definition migrateToLatest (migrations : string + gmap string Migration)
    : itree (fsE +' dbE) (Result unit) :=
  match migrations with
  | inl migrationsFolderPath =>
      let* allMigrations :=
        await translate inl1 (readMigrationsFromFolder migrationsFolderPath) in
      translate inr1 (doMigrateToLatest allMigrations)
  | inr allMigrations => translate inr1 (doMigrateToLatest allMigrations)
  end.

End Program.

(** ** Executions

    An execution of a tree against an environment: the environment answers
    each event and moves from one world to the next.  The trace records,
    for each event, the world it was issued in and the answer it got. *)

Section Semantics.

Context {E : Type -> Type} {W : Type}.

(** An event together with its answer. *)
Inductive Obs := obs : forall X : Type, E X -> X -> Obs.
#[global] Arguments obs {X} e x.

Definition Trace : Type := list (W * Obs).

(** [env e w x w']: in world [w] the event [e] may be answered by [x],
    leaving the world [w']. *)
Definition Env : Type := forall X, E X -> W -> X -> W -> Prop.

Variable env : Env.

Inductive ExecF {R} : W -> itree' E R -> Trace -> W -> R -> Prop :=
| ExecRet w r :
    ExecF w (RetF r) [] w r
| ExecTau w t tr w' r :
    ExecF w (observe t) tr w' r ->
    ExecF w (TauF t) tr w' r
| ExecVis w X (e : E X) k x w1 tr w' r :
    env X e w x w1 ->
    ExecF w1 (observe (k x)) tr w' r ->
    ExecF w (VisF e k) ((w, obs e x) :: tr) w' r.

(** [Exec w t tr w' r]: started in [w], the tree [t] terminates with the
    result [r] in the world [w'] after the events [tr]. *)
Definition Exec {R} (w : W) (t : itree E R) (tr : Trace) (w' : W) (r : R) : Prop :=
  ExecF w (observe t) tr w' r.

(** A deterministic environment, and the interpreter for it.  The
    interpreter stops with [None] when the fuel runs out. *)
Definition Handler : Type := forall X, E X -> W -> W * X.

Definition graph (h : Handler) : Env := fun X e w x w' => h X e w = (w', x).

Fixpoint run {R} (h : Handler) (fuel : nat) (w : W) (t : itree E R)
    : option (Trace * W * R) :=
  match fuel with
  | O => None
  | S fuel' =>
      match observe t with
      | RetF r => Some ([], w, r)
      | TauF u => run h fuel' w u
      | VisF e k =>
          let '(w1, x) := h _ e w in
          match run h fuel' w1 (k x) with
          | Some (tr, w', r) => Some ((w, obs e x) :: tr, w', r)
          | None => None
          end
      end
  end.

End Semantics.

Arguments Obs : clear implicits.
Arguments Trace : clear implicits.
Arguments Env : clear implicits.
Arguments Handler : clear implicits.

(** The unconstrained environment: every answer is possible. *)
Definition anything {E : Type -> Type} : Env E unit := fun _ _ _ _ _ => True.

(** The events of a trace without the worlds. *)
Definition events {E : Type -> Type} {W} (tr : Trace E W) : list (Obs E) := tr.*2.

(** Every event of every execution of [t] satisfies [P]. *)
Definition Within {E : Type -> Type} {R} (P : Obs E -> Prop) (t : itree E R) : Prop :=
  forall W (env : Env E W) w tr w' r,
    Exec env w t tr w' r -> Forall (fun entry => P entry.2) tr.

(** An observation seen through an embedding of its events into a larger
    family, as when the queries of the database and the reads of the file
    system are the events of one call. *)
Definition retag {E F : Type -> Type} (f : forall X, E X -> F X) (o : Obs E) : Obs F :=
  match o with
  | obs e x => obs (f _ e) x
  end.

(** ** The database

    The environment of a process that has the database to itself.  The
    query layer ([src/kysely]) is not part of the sources at hand, so what
    the queries do is modelled from the spec. *)

Section Database.

Context {Schema : Type}.

Notation Data := (Data Schema).
Notation NamedMigration := (NamedMigration Schema).

(** The connection: what the database holds now and, inside a transaction,
    what it held when the transaction began. *)
Record Db := mkDb {
  visible : Data;
  snapshot : option Data;
}.

Definition no_such_table : JS.Error := JS.new_Error "no such table".
Definition duplicate_key : JS.Error := JS.new_Error "duplicate key".

Definition with_visible (db : Db) (d : Data) : Db :=
  {| visible := d; snapshot := snapshot db |}.

Definition set_migration_rows (d : Data) (rows : option (gset string)) : Data :=
  {| migration_rows := rows; lock_rows := lock_rows d; schema := schema d |}.

Definition set_lock_rows (d : Data) (rows : option (gmap string Z)) : Data :=
  {| migration_rows := migration_rows d; lock_rows := rows; schema := schema d |}.

(** [where('is_locked', '=', w)], when present. *)
Definition where_matches (where_is_locked : option Z) (current : Z) : bool :=
  match where_is_locked with
  | Some w => current =? w
  | None => true
  end.

(** Modelled from the spec: the queries of the query layer ([src/kysely],
    not part of the sources at hand) on the persisted schema of the spec
    (6).  [name] is the primary key of [kysely_migration] and [id] that of
    [kysely_migration_lock], so an insert of an existing key is rejected;
    [is_locked] defaults to [0]; [orderBy('name')] lists the names in
    ascending order (4.1, [listExecuted]); a conditional update answers the
    number of rows it changed (4.2); a query of a table that does not
    exist is rejected.  A forward operation does what it does. *)
Definition db_query {X} (e : dbE Schema X) (d : Data) : Data * X :=
  match e in dbE _ X return Data * X with
  | GetTableMetadata t =>
      if String.eqb t MIGRATION_TABLE then
        (d, inr ((fun _ => table_metadata t) <$> migration_rows d))
      else if String.eqb t MIGRATION_LOCK_TABLE then
        (d, inr ((fun _ => table_metadata t) <$> lock_rows d))
      else (d, inr None)
  | CreateTableIfNotExists t _ =>
      if String.eqb t MIGRATION_TABLE then
        match migration_rows d with
        | Some _ => (d, inr tt)
        | None => (set_migration_rows d (Some ∅), inr tt)
        end
      else if String.eqb t MIGRATION_LOCK_TABLE then
        match lock_rows d with
        | Some _ => (d, inr tt)
        | None => (set_lock_rows d (Some ∅), inr tt)
        end
      else (d, inl (JS.new_Error "not a tracking table"))
  | SelectLockRow id =>
      match lock_rows d with
      | Some rows => (d, inr (mkLockRow id <$> rows !! id))
      | None => (d, inl no_such_table)
      end
  | InsertLockRow id =>
      match lock_rows d with
      | Some rows =>
          match rows !! id with
          | Some _ => (d, inl duplicate_key)
          | None => (set_lock_rows d (Some (<[id := 0]> rows)), inr tt)
          end
      | None => (d, inl no_such_table)
      end
  | UpdateLock v w id =>
      match lock_rows d with
      | Some rows =>
          match rows !! id with
          | Some current =>
              if where_matches w current
              then (set_lock_rows d (Some (<[id := v]> rows)), inr 1)
              else (d, inr 0)
          | None => (d, inr 0)
          end
      | None => (d, inl no_such_table)
      end
  | SelectMigrationNames =>
      match migration_rows d with
      | Some rows => (d, inr (JS.sort (elements rows)))
      | None => (d, inl no_such_table)
      end
  | InsertMigration n =>
      match migration_rows d with
      | Some rows =>
          if bool_decide (n ∈ rows) then (d, inl duplicate_key)
          else (set_migration_rows d (Some ({[n]} ∪ rows)), inr tt)
      | None => (d, inl no_such_table)
      end
  | CallUp m => nm_up m d
  | Sleep _ => (d, tt)
  | Begin => (d, inr tt)
  | Commit => (d, inr tt)
  | Rollback => (d, tt)
  end.

(** Modelled from the spec: the statements of a transaction of the query
    layer ([src/kysely], not part of the sources at hand).  A transaction
    that is rolled back leaves the database as it was when it began (5):
    [Begin] keeps what the database holds, [Commit] forgets it, [Rollback]
    puts it back. *)
Definition transact {X} (e : dbE Schema X) (db : Db) : Db :=
  match e with
  | Begin => {| visible := visible db; snapshot := Some (visible db) |}
  | Commit => {| visible := visible db; snapshot := None |}
  | Rollback => {| visible := default (visible db) (snapshot db); snapshot := None |}
  | _ => db
  end.

Definition db_handler : Handler (dbE Schema) Db := fun X e db =>
  let db1 := transact e db in
  let '(d, x) := db_query e (visible db1) in
  (with_visible db1 d, x).

(** The environment of a process that has the database to itself. *)
Definition database : Env (dbE Schema) Db := graph db_handler.

(** The ledger: the names recorded in [kysely_migration]. *)
Definition ledger (db : Db) : gset string := default ∅ (migration_rows (visible db)).

End Database.

Arguments Db : clear implicits.

(** ** The vocabulary of the specification *)

Section Vocabulary.

Context {Schema : Type}.

(** The sorted name sequence of a migration set. *)
Definition sorted_names (allMigrations : gmap string (Migration Schema)) : list string :=
  JS.sort (Object_keys allMigrations).

(** The executed names in ascending order ([listExecuted]). *)
Definition executed_names (executed : gset string) : list string :=
  JS.sort (elements executed).

(** Invariant I1: the executed names are a prefix of the sorted name
    sequence of the migration set. *)
Definition I1 (allMigrations : gmap string (Migration Schema)) (executed : gset string) : Prop :=
  executed_names executed `prefix_of` sorted_names allMigrations.

(** The names that sort strictly after the last executed name; every name
    of the set when nothing was executed. *)
Definition pending (allMigrations : gmap string (Migration Schema)) (executed : gset string)
    : list string :=
  match getLast (executed_names executed) with
  | Some last_ => filter (JS.lt last_) (sorted_names allMigrations)
  | None => sorted_names allMigrations
  end.

(** The named migration the set holds under a name. *)
Definition lookup_named (allMigrations : gmap string (Migration Schema)) (n : string)
    : option (NamedMigration Schema) :=
  named n <$> allMigrations !! n.

(** What applying one migration looks like in a trace: its forward
    operation resolves, then its name is inserted. *)
Definition applied (m : NamedMigration Schema) : list (Obs (dbE Schema)) :=
  [ obs (CallUp m) (inr tt); obs (InsertMigration (name m)) (inr tt) ].

(** A forward operation that never fails. *)
Definition succeeds (f : Op Schema) : Prop := forall d, (f d).2 = inr tt.

(** A forward operation that leaves the ledger table alone. *)
Definition keeps_ledger (f : Op Schema) : Prop :=
  forall d, migration_rows (f d).1 = migration_rows d.

(** One attempt at the lock: the conditional update and its answer. *)
Definition attempt (answer : Result Z) : Obs (dbE Schema) :=
  obs (UpdateLock 1 (Some 0) MIGRATION_LOCK_ID) answer.

(** A failed attempt that updated [n] rows, and the sleep that follows it. *)
Definition retry (n : Z) : list (Obs (dbE Schema)) :=
  [ attempt (inr n); obs (Sleep 100) tt ].

Definition retries (ns : list Z) : list (Obs (dbE Schema)) := ns ≫= retry.

(** What a bootstrap step may do, given the query [check] that looks for
    the object and the query [create] that makes it: the events it issues
    with their answers, and its result. *)
Inductive step_outcome {A} (check : dbE Schema (Result (option A)))
    (create : dbE Schema (Result unit)) : list (Obs (dbE Schema)) -> Result unit -> Prop :=
| already_there a :
    step_outcome check create [obs check (inr (Some a))] (inr tt)
| created_now :
    step_outcome check create [obs check (inr None); obs create (inr tt)] (inr tt)
| lost_the_race error a :
    step_outcome check create
      [obs check (inr None); obs create (inl error); obs check (inr (Some a))] (inr tt)
| creation_failed error :
    step_outcome check create
      [obs check (inr None); obs create (inl error); obs check (inr None)] (inl error)
| check_rejected err :
    step_outcome check create [obs check (inl err)] (inl err)
| recheck_rejected error err :
    step_outcome check create
      [obs check (inr None); obs create (inl error); obs check (inl err)] (inl err).

(** A step behaves as [step_outcome] says, whatever the environment, and
    every such behaviour is possible when the answers are unconstrained. *)
Definition bootstrap_step {A} (step : itree (dbE Schema) (Result unit))
    (check : dbE Schema (Result (option A))) (create : dbE Schema (Result unit)) : Prop :=
  (forall W (env : Env (dbE Schema) W) w tr w' r,
     Exec env w step tr w' r -> step_outcome check create (events tr) r) /\
  (forall evs r,
     step_outcome check create evs r ->
     exists tr, Exec anything tt step tr tt r /\ events tr = evs).

(** A file the loader imports: [.js] or [.ts], but not [.d.ts]. *)
Definition eligible (file : string) : bool :=
  (JS.endsWith file ".js" || JS.endsWith file ".ts") && negb (JS.endsWith file ".d.ts").

(** The name the loader derives from a file name. *)
Definition stem (file : string) : string :=
  JS.substring0 file (Z.of_nat (String.length file) - 3).

(** A file and the module it was loaded as. *)
Definition Loaded : Type := string * Module Schema.

(** What the loader does with a loaded module as long as the prototype of
    its object is [Object.prototype] and the name is not [__proto__]: a
    migration is stored under the name of its file, whatever was there;
    anything else is skipped. *)
Definition store (migrations : gmap string (Migration Schema)) (loaded : Loaded)
    : gmap string (Migration Schema) :=
  if isMigration loaded.2 then <[stem loaded.1 := asMigration loaded.2]> migrations
  else migrations.

Definition collect (migrations : gmap string (Migration Schema)) (mods : list Loaded)
    : gmap string (Migration Schema) :=
  foldl store migrations mods.

(** A loaded file that is not a migration named [__proto__]. *)
Definition ordinary (loaded : Loaded) : Prop :=
  isMigration loaded.2 = true -> stem loaded.1 ≠ "__proto__".

(** The import of a file of the folder, resolved with a module. *)
Definition imported (dir : string) (loaded : Loaded) : Obs (fsE Schema) :=
  obs (Import dir loaded.1) (inr loaded.2).

(** The file and the module of an observation that is a resolved import. *)
Definition imported_module (o : Obs (fsE Schema)) : option Loaded :=
  match o with
  | obs e x =>
      match e in fsE _ X return X -> option Loaded with
      | Import _ file => fun x => match x with inr obj => Some (file, obj) | inl _ => None end
      | _ => fun _ => None
      end x
  end.

(** The answer of an observation that is the listing of a folder. *)
Definition listing_of (o : Obs (fsE Schema)) : option (Result (list string)) :=
  match o with
  | obs e x =>
      match e in fsE _ X return X -> option (Result (list string)) with
      | Readdir _ => fun x => Some x
      | _ => fun _ => None
      end x
  end.

(** The named migration [m] is an entry of the set: the set holds a
    migration under the name of [m], and the operations of [m] are the
    operations of that migration. *)
Definition from_set (allMigrations : gmap string (Migration Schema))
    (m : NamedMigration Schema) : Prop :=
  exists migration,
    allMigrations !! name m = Some migration /\
    nm_up m = up migration /\ nm_down m = down migration.

(** Classifiers of observations. *)
Definition inserted_name (o : Obs (dbE Schema)) : option string :=
  match o with
  | obs e _ => match e with InsertMigration n => Some n | _ => None end
  end.

Definition called_up (o : Obs (dbE Schema)) : option (NamedMigration Schema) :=
  match o with
  | obs e _ => match e with CallUp m => Some m | _ => None end
  end.

(** The error of an observation that is a rejected query or operation. *)
Definition rejection (o : Obs (dbE Schema)) : option JS.Error :=
  match o with
  | obs e x =>
      match e in dbE _ X return X -> option JS.Error with
      | Sleep _ | Rollback => fun _ => None
      | GetTableMetadata _ => fun x => match x with inl err => Some err | inr _ => None end
      | CreateTableIfNotExists _ _ => fun x => match x with inl err => Some err | inr _ => None end
      | SelectLockRow _ => fun x => match x with inl err => Some err | inr _ => None end
      | InsertLockRow _ => fun x => match x with inl err => Some err | inr _ => None end
      | UpdateLock _ _ _ => fun x => match x with inl err => Some err | inr _ => None end
      | SelectMigrationNames => fun x => match x with inl err => Some err | inr _ => None end
      | InsertMigration _ => fun x => match x with inl err => Some err | inr _ => None end
      | CallUp _ => fun x => match x with inl err => Some err | inr _ => None end
      | Begin => fun x => match x with inl err => Some err | inr _ => None end
      | Commit => fun x => match x with inl err => Some err | inr _ => None end
      end x
  end.

(** The forward operation of a migration failed with [err]. *)
Definition up_failed (err : JS.Error) (o : Obs (dbE Schema)) : Prop :=
  is_Some (called_up o) /\ rejection o = Some err.

(** The errors of the forward operations that failed in a trace. *)
Definition failed_ups {W} (tr : Trace (dbE Schema) W) : list JS.Error :=
  omap (fun entry : W * Obs (dbE Schema) =>
          match called_up entry.2 with
          | Some _ => rejection entry.2
          | None => None
          end) tr.

(** Which part of the module an event belongs to. *)
Variant Kind := of_bootstrap | of_lock | of_ledger | of_migration | of_transaction.

Definition kind (o : Obs (dbE Schema)) : Kind :=
  match o with
  | obs e _ =>
      match e with
      | GetTableMetadata _ | CreateTableIfNotExists _ _
      | SelectLockRow _ | InsertLockRow _ => of_bootstrap
      | UpdateLock _ _ _ | Sleep _ => of_lock
      | SelectMigrationNames | InsertMigration _ => of_ledger
      | CallUp _ => of_migration
      | Begin | Commit | Rollback => of_transaction
      end
  end.

(** The queries of the bootstrap. *)
Definition bootstrap_event (o : Obs (dbE Schema)) : Prop :=
  match o with
  | obs e _ =>
      match e with
      | GetTableMetadata _ | CreateTableIfNotExists _ _ | SelectLockRow _ => True
      | InsertLockRow id => id = MIGRATION_LOCK_ID
      | _ => False
      end
  end.

(** The tracking tables are in place: both exist and the lock row is there. *)
Definition bootstrapped (d : Data Schema) : Prop :=
  is_Some (migration_rows d) /\
  exists rows, lock_rows d = Some rows /\ is_Some (rows !! MIGRATION_LOCK_ID).

(** The body of the loop of [runNewMigrations]. *)
Definition apply_one (migration : NamedMigration Schema) : itree (dbE Schema) (Result unit) :=
  let* _ := await ITree.trigger (CallUp migration) in
  ITree.trigger (InsertMigration (name migration)).

(** In this entry of a trace no forward operation was rejected. *)
Definition up_resolved (entry : Db Schema * Obs (dbE Schema)) : Prop :=
  is_Some (called_up entry.2) -> rejection entry.2 = None.

(** In this entry of a trace the forward operation, if it is one, left the
    ledger table as it found it. *)
Definition up_kept_ledger (entry : Db Schema * Obs (dbE Schema)) : Prop :=
  forall m, called_up entry.2 = Some m ->
    migration_rows (nm_up m (visible entry.1)).1 = migration_rows (visible entry.1).

(** In this entry of a trace the name inserted, if one is, was not in the
    ledger, and the insert was not rejected. *)
Definition insert_fresh (entry : Db Schema * Obs (dbE Schema)) : Prop :=
  forall n, inserted_name entry.2 = Some n ->
    (n ∉ ledger entry.1) /\ rejection entry.2 = None.

(** The part of [runNewMigrations] between the query and the loop: what
    the checks answer for the list of executed names, the migrations to
    run when they pass. *)
Definition validate (allMigrations : gmap string (Migration Schema))
    (executedMigrations : list string) : Result (list (NamedMigration Schema)) :=
  let sorted := sortedMigrations allMigrations in
  let lastExecuted := getLast executedMigrations in
  let lastExecutedIndex := JS.findIndex (name_is lastExecuted) sorted in
  match lastExecuted with
  | Some last_ =>
      if lastExecutedIndex =? -1 then inl (JS.new_Error (msg_missing last_))
      else
        match ensureMigrationsAreNotCorrupted executedMigrations
                (name <$> JS.slice sorted 0 (Some (lastExecutedIndex + 1))) with
        | inl err => inl err
        | inr _ => inr (JS.slice sorted (lastExecutedIndex + 1) None)
        end
  | None =>
      match ensureMigrationsAreNotCorrupted executedMigrations [] with
      | inl err => inl err
      | inr _ => inr sorted
      end
  end.

(** The callback of the transaction of [doMigrateToLatest]. *)
Definition locked_run (allMigrations : gmap string (Migration Schema))
    : itree (dbE Schema) (Result unit) :=
  let* _ := await acquireLock in
  let* _ := await runNewMigrations allMigrations in
  releaseLock.

(** The existence test of the three steps of the bootstrap: the query, and
    whether its answer is an object. *)
Definition exists_by {A} (check : dbE Schema (Result (option A)))
    : itree (dbE Schema) (Result bool) :=
  await (ITree.trigger check) (fun found => resolve (bool_decide (is_Some found))).

(** What the bootstrap may change: nothing of the target schema, no name
    of the ledger, and nothing at all once the tracking tables are in
    place. *)
Definition bootstrap_only (db db' : Db Schema) : Prop :=
  schema (visible db') = schema (visible db) /\
  ledger db' = ledger db /\
  snapshot db' = snapshot db /\
  (bootstrapped (visible db) -> db' = db).

End Vocabulary.

(** ** The vocabulary of the further properties *)

Section Conduct.

Context {Schema : Type}.

(** How the loop of [runNewMigrations] over the migrations [new] may go:
    every migration is applied, or the loop ends at the first forward
    operation, or the first insert into the ledger, that is rejected. *)
Inductive loop_outcome (new : list (NamedMigration Schema))
    : list (Obs (dbE Schema)) -> Result unit -> Prop :=
| loop_completed :
    loop_outcome new (new ≫= applied) (inr tt)
| loop_up_rejected done m rest err :
    new = done ++ m :: rest ->
    loop_outcome new ((done ≫= applied) ++ [obs (CallUp m) (inl err)]) (inl err)
| loop_insert_rejected done m rest err :
    new = done ++ m :: rest ->
    loop_outcome new
      ((done ≫= applied)
         ++ [obs (CallUp m) (inr tt); obs (InsertMigration (name m)) (inl err)])
      (inl err).

(** The statement of [releaseLock], with its answer. *)
Definition release (answer : Result Z) : Obs (dbE Schema) :=
  obs (UpdateLock 0 None MIGRATION_LOCK_ID) answer.

(** An unconditional update that clears [is_locked]. *)
Definition is_release (o : Obs (dbE Schema)) : Prop :=
  match o with
  | obs e _ =>
      match e with
      | UpdateLock 0 None _ => True
      | _ => False
      end
  end.

(** The value of [is_locked] in the lock row, when the row is there. *)
Definition lock_state (d : Data Schema) : option Z :=
  lock_rows d ≫= (fun rows => rows !! MIGRATION_LOCK_ID).

(** A forward operation that leaves the lock table alone. *)
Definition keeps_lock (f : Op Schema) : Prop :=
  forall d, lock_rows (f d).1 = lock_rows d.

(** A forward operation that resolves and leaves both tracking tables
    alone. *)
Definition well_behaved (f : Op Schema) : Prop :=
  succeeds f /\ keeps_ledger f /\ keeps_lock f.

(** What a bootstrap step does when nothing goes wrong: the look-up alone
    when its object is there, the look-up and the creation otherwise. *)
Definition quiet_step {A} (check : dbE Schema (Result (option A)))
    (create : dbE Schema (Result unit)) (found : option A) : list (Obs (dbE Schema)) :=
  match found with
  | Some a => [obs check (inr (Some a))]
  | None => [obs check (inr None); obs create (inr tt)]
  end.

End Conduct.

(** ** Sample data: the scenarios of the specification *)

Module Sample.

(** The target schema is the list of the tables the migrations made. *)
Definition Schema : Type := list string.

Definition create (table : string) : Op Schema := fun d =>
  (mkData (migration_rows d) (lock_rows d) (table :: schema d), inr tt).

Definition drop (table : string) : Op Schema := fun d =>
  (mkData (migration_rows d) (lock_rows d) (List.filter (fun t => negb (String.eqb t table)) (schema d)),
   inr tt).

Definition broken (message : string) : Op Schema := fun d =>
  (mkData (migration_rows d) (lock_rows d) ("half done" :: schema d),
   inl (JS.new_Error message)).

Definition table (name : string) : Migration Schema :=
  {| up := create name; down := drop name |}.

Definition two : gmap string (Migration Schema) :=
  <["002_users" := table "users"]> (<["001_init" := table "init"]> ∅).

Definition three : gmap string (Migration Schema) :=
  <["003_posts" := table "posts"]> two.

Definition only_first : gmap string (Migration Schema) :=
  <["001_init" := table "init"]> ∅.

Definition only_new : gmap string (Migration Schema) :=
  <["001_new" := table "new"]> ∅.

Definition new_in_the_past : gmap string (Migration Schema) :=
  <["001_new" := table "new"]> (<["002_users" := table "users"]> ∅).

Definition second_fails : gmap string (Migration Schema) :=
  <["002_users" := {| up := broken "boom"; down := drop "users" |}]>
    (<["001_init" := table "init"]> ∅).

(** A forward operation that makes a table and deletes the rows of the
    ledger table. *)
Definition forgets (table : string) : Op Schema := fun d =>
  (mkData ((fun _ => ∅) <$> migration_rows d) (lock_rows d) (table :: schema d), inr tt).

(** A forward operation that makes a table and records a name in the
    ledger table itself. *)
Definition records (table name : string) : Op Schema := fun d =>
  (mkData ((fun rows => {[name]} ∪ rows) <$> migration_rows d) (lock_rows d)
     (table :: schema d),
   inr tt).

Definition second_forgets : gmap string (Migration Schema) :=
  <["002_users" := {| up := forgets "users"; down := drop "users" |}]>
    (<["001_init" := table "init"]> ∅).

Definition first_records_itself : gmap string (Migration Schema) :=
  <["001_init" := {| up := records "init" "001_init"; down := drop "init" |}]> ∅.

(** A folder, and the modules its files are loaded as: [README.ts] is not
    a migration. *)
Definition folder : list string := ["x.js"; "notes.md"; "x.d.ts"; "README.ts"; "x.ts"].

Definition load (file : string) : Module Schema :=
  if String.eqb file "README.ts" then mkModule js_undefined (js_other "text")
  else mkModule (js_function (create file)) (js_function (drop file)).

(** A database with the tracking tables in place and a ledger. *)
Definition ready (executed : gset string) : Db Schema :=
  mkDb (mkData (Some executed) (Some {[MIGRATION_LOCK_ID := 0]}) []) None.

(** A database without the tracking tables. *)
Definition fresh : Db Schema := mkDb (mkData None None []) None.

Definition outcome {R} (result : option (Trace (dbE Schema) (Db Schema) * Db Schema * R))
    : option (list (Obs (dbE Schema)) * list string * list string * R) :=
  (fun '(tr, db, r) => (events tr, executed_names (ledger db), schema (visible db), r))
    <$> result.

(** The inserts into the ledger in a run: the name, whether the ledger
    had it already, and the error of the insert when it was rejected. *)
Definition insert_of (entry : Db Schema * Obs (dbE Schema))
    : option (string * bool * option JS.Error) :=
  (fun n => (n, bool_decide (n ∈ executed_names (ledger entry.1)), rejection entry.2))
    <$> inserted_name entry.2.

Definition inserts {R} (result : option (Trace (dbE Schema) (Db Schema) * Db Schema * R))
    : option (list (string * bool * option JS.Error) * R) :=
  match result with
  | Some (tr, _, r) => Some (omap insert_of tr, r)
  | None => None
  end.

End Sample.

(** * Properties *)

(** ** Executions of composed trees *)

Section ExecFacts.

Context {E : Type -> Type} {W : Type} (env : Env E W).

Lemma ExecF_inv {R} w (ot : itree' E R) tr w' r :
  ExecF env w ot tr w' r ->
  match ot with
  | RetF r0 => tr = [] /\ w' = w /\ r = r0
  | TauF t => ExecF env w (observe t) tr w' r
  | VisF e k =>
      exists x w1 tr1,
        env _ e w x w1 /\ tr = (w, obs e x) :: tr1 /\ ExecF env w1 (observe (k x)) tr1 w' r
  end.
Proof. destruct 1; eauto 10. Qed.

Lemma Exec_Ret {R} w (r : R) : Exec env w (Ret r) [] w r.
Proof. constructor. Qed.

Lemma Exec_Ret_inv {R} w (r0 : R) tr w' r :
  Exec env w (Ret r0) tr w' r -> tr = [] /\ w' = w /\ r = r0.
Proof. intros H. exact (ExecF_inv _ _ _ _ _ H). Qed.

Lemma Exec_Tau_iff {R} w (t : itree E R) tr w' r :
  Exec env w (Tau t) tr w' r <-> Exec env w t tr w' r.
Proof.
  split; intros H.
  - exact (ExecF_inv _ _ _ _ _ H).
  - by constructor.
Qed.

Lemma Exec_trigger {X} w (e : E X) x w1 :
  env _ e w x w1 -> Exec env w (ITree.trigger e) [(w, obs e x)] w1 x.
Proof. intros H. unfold Exec. cbn. econstructor; [done|]. constructor. Qed.

Lemma Exec_trigger_inv {X} w (e : E X) tr w' x :
  Exec env w (ITree.trigger e) tr w' x ->
  env _ e w x w' /\ tr = [(w, obs e x)].
Proof.
  intros H. apply ExecF_inv in H as (y & w1 & tr1 & Henv & -> & H).
  apply ExecF_inv in H as (-> & -> & ->). done.
Qed.

(** A tree that runs [t] and then [k] executes as [t] followed by [k]. *)
Lemma Exec_bind {A B} w (t : itree E A) (k : A -> itree E B) tr1 w1 a tr2 w' r :
  Exec env w t tr1 w1 a ->
  Exec env w1 (k a) tr2 w' r ->
  Exec env w (ITree.bind t k) (tr1 ++ tr2) w' r.
Proof.
  unfold Exec. intros H. revert k tr2 w' r.
  remember (observe t) as ot eqn:Hot. revert t Hot.
  induction H as [w a0|w u tr w1 a0 H IH|w X e h x w0 tr w1 a0 Henv H IH];
    intros t Hot k tr2 w' r Hk; rewrite observe_bind, <- Hot; cbn.
  - done.
  - constructor. by eapply IH.
  - econstructor; [done|]. by eapply IH.
Qed.

Lemma Exec_bind_inv {A B} w (t : itree E A) (k : A -> itree E B) tr w' r :
  Exec env w (ITree.bind t k) tr w' r ->
  exists tr1 w1 a tr2,
    Exec env w t tr1 w1 a /\ Exec env w1 (k a) tr2 w' r /\ tr = tr1 ++ tr2.
Proof.
  unfold Exec. intros H.
  remember (observe (ITree.bind t k)) as ot eqn:Hot. revert t Hot.
  induction H as [w r|w u tr w' r H IH|w X e h x w0 tr w' r Henv H IH];
    intros t Hot; rewrite observe_bind in Hot;
    destruct (observe t) as [a|t0|Y e0 h0] eqn:Ht; cbn in Hot; try discriminate.
  - exists [], w, a, []. rewrite <- Hot. repeat split; constructor.
  - exists [], w, a, tr. rewrite <- Hot. repeat split; by constructor.
  - injection Hot as ->.
    destruct (IH _ eq_refl) as (tr1 & w1 & a & tr2 & H1 & H2 & ->).
    exists tr1, w1, a, tr2. repeat split; [by constructor|done].
  - exists [], w, a, ((w, obs e x) :: tr). rewrite <- Hot.
    repeat split; [constructor|by econstructor].
  - apply eq_inv_VisF_weak in Hot as [p [He Hh]]. destruct p. cbn in He, Hh. subst.
    destruct (IH _ eq_refl) as (tr1 & w1 & a & tr2 & H1 & H2 & ->).
    exists ((w, obs e0 x) :: tr1), w1, a, tr2. repeat split; [by econstructor|done].
Qed.

(** [await]: the continuation runs when the promise resolves, and does
    not when it is rejected. *)
Lemma Exec_await_inv {A B} w (p : itree E (Result A)) (k : A -> itree E (Result B))
    tr w' r :
  Exec env w (await p k) tr w' r ->
  (exists err, Exec env w p tr w' (inl err) /\ r = inl err) \/
  (exists tr1 w1 a tr2,
     Exec env w p tr1 w1 (inr a) /\ Exec env w1 (k a) tr2 w' r /\ tr = tr1 ++ tr2).
Proof.
  intros H. apply Exec_bind_inv in H as (tr1 & w1 & [err|a] & tr2 & H1 & H2 & ->).
  - apply Exec_Ret_inv in H2 as (-> & -> & ->). rewrite app_nil_r. left. eauto.
  - right. eauto 10.
Qed.

Lemma Exec_await_resolved {A B} w (p : itree E (Result A)) (k : A -> itree E (Result B))
    tr1 w1 a tr2 w' r :
  Exec env w p tr1 w1 (inr a) ->
  Exec env w1 (k a) tr2 w' r ->
  Exec env w (await p k) (tr1 ++ tr2) w' r.
Proof. intros H1 H2. eapply Exec_bind; [exact H1|exact H2]. Qed.

Lemma Exec_await_rejected {A B} w (p : itree E (Result A)) (k : A -> itree E (Result B))
    tr w' err :
  Exec env w p tr w' (inl err) ->
  Exec env w (await p k) tr w' (inl err).
Proof.
  intros H. rewrite <- (app_nil_r tr). eapply Exec_bind; [exact H|]. apply Exec_Ret.
Qed.

(** One turn of a loop. *)
Lemma Exec_iter {I R} w (body : I -> itree E (I + R)) (i : I) tr w' r :
  Exec env w (ITree.iter body i) tr w' r <->
  Exec env w (ITree.bind (body i) (fun lr =>
                match lr with
                | inl i' => ITree.iter body i'
                | inr r0 => Ret r0
                end)) tr w' r.
Proof.
  split; intros H.
  - change (Exec env w (ITree.bind (body i) (fun lr =>
              ITree.on_left lr l (Tau (ITree.iter body l)))) tr w' r) in H.
    apply Exec_bind_inv in H as (tr1 & w1 & [i'|r0] & tr2 & H1 & H2 & ->);
      (eapply Exec_bind; [exact H1|]); cbn in *; [by apply Exec_Tau_iff|done].
  - apply Exec_bind_inv in H as (tr1 & w1 & [i'|r0] & tr2 & H1 & H2 & ->);
      change (Exec env w (ITree.bind (body i) (fun lr =>
                ITree.on_left lr l (Tau (ITree.iter body l)))) (tr1 ++ tr2) w' r);
      (eapply Exec_bind; [exact H1|]); cbn; [by apply Exec_Tau_iff|done].
Qed.

End ExecFacts.

(** The interpreter computes executions, and for a deterministic
    environment there is no other. *)

Section Deterministic.

Context {E : Type -> Type} {W : Type}.

Lemma run_sound {R} (h : Handler E W) fuel w (t : itree E R) tr w' r :
  run h fuel w t = Some (tr, w', r) -> Exec (graph h) w t tr w' r.
Proof.
  revert w t tr. induction fuel as [|fuel IH]; intros w t tr; [done|].
  unfold Exec. cbn. destruct (observe t) as [r0|u|X e k].
  - intros [= <- <- <-]. constructor.
  - intros H. constructor. by apply IH.
  - destruct (h X e w) as [w1 x] eqn:Hh.
    destruct (run h fuel w1 (k x)) as [[[tr1 w2] r1]|] eqn:Hrun; [|done].
    intros [= <- <- <-]. econstructor; [exact Hh|]. by apply IH.
Qed.

Lemma run_more_fuel {R} (h : Handler E W) fuel fuel' w (t : itree E R) result :
  (fuel <= fuel')%nat -> run h fuel w t = Some result -> run h fuel' w t = Some result.
Proof.
  revert fuel' w t result. induction fuel as [|fuel IH]; intros [|fuel'] w t result Hle;
    [done|done|lia|].
  cbn. destruct (observe t) as [r0|u|X e k]; [done|apply IH; lia|].
  destruct (h X e w) as [w1 x].
  destruct (run h fuel w1 (k x)) as [[[tr1 w2] r1]|] eqn:Hrun; [|done].
  by rewrite (IH fuel' _ _ _ ltac:(lia) Hrun).
Qed.

Lemma run_complete {R} (h : Handler E W) w (t : itree E R) tr w' r :
  Exec (graph h) w t tr w' r -> exists fuel, run h fuel w t = Some (tr, w', r).
Proof.
  unfold Exec. remember (observe t) as ot eqn:Hot. intros H. revert t Hot.
  induction H as [w r|w u tr w' r H IH|w X e k x w1 tr w' r Henv H IH]; intros t Hot.
  - exists 1%nat. cbn. by rewrite <- Hot.
  - destruct (IH u eq_refl) as [fuel Hrun]. exists (S fuel). cbn. by rewrite <- Hot.
  - destruct (IH (k x) eq_refl) as [fuel Hrun]. exists (S fuel). cbn.
    rewrite <- Hot. unfold graph in Henv. by rewrite Henv, Hrun.
Qed.

Lemma Exec_deterministic {R} (h : Handler E W) w (t : itree E R) tr1 w1 r1 tr2 w2 r2 :
  Exec (graph h) w t tr1 w1 r1 ->
  Exec (graph h) w t tr2 w2 r2 ->
  tr1 = tr2 /\ w1 = w2 /\ r1 = r2.
Proof.
  unfold Exec. intros H. revert tr2 w2 r2.
  induction H as [w r|w u tr w' r H IH|w X e k x w0 tr w' r Henv H IH];
    intros tr2 w2 r2 H2; apply ExecF_inv in H2.
  - by destruct H2 as (-> & -> & ->).
  - by apply IH.
  - destruct H2 as (y & w3 & tr3 & Henv' & -> & H2).
    unfold graph in Henv, Henv'. rewrite Henv in Henv'. injection Henv' as <- <-.
    destruct (IH _ _ _ H2) as (-> & -> & ->). done.
Qed.

End Deterministic.

(** ** The lock *)

Section Lock.

Context {Schema : Type} {W : Type} (env : Env (dbE Schema) W).

Lemma tryAcquireLock_inv w tr w' r :
  Exec env w (@tryAcquireLock Schema) tr w' r ->
  exists answer,
    env _ (UpdateLock 1 (Some 0) MIGRATION_LOCK_ID) w answer w' /\
    tr = [(w, attempt answer)] /\
    r = match answer with inl err => inl err | inr n => inr (n =? 1) end.
Proof.
  unfold tryAcquireLock. intros H.
  apply Exec_await_inv in H as [(err & H & ->)|(tr1 & w1 & n & tr2 & H1 & H2 & ->)].
  - apply Exec_trigger_inv in H as [Henv ->]. by exists (inl err).
  - apply Exec_trigger_inv in H1 as [Henv ->].
    apply Exec_Ret_inv in H2 as (-> & -> & ->). by exists (inr n).
Qed.

Lemma tryAcquireLock_run w answer w' :
  env _ (UpdateLock 1 (Some 0) MIGRATION_LOCK_ID) w answer w' ->
  Exec env w (@tryAcquireLock Schema) [(w, attempt answer)] w'
    match answer with inl err => inl err | inr n => inr (n =? 1) end.
Proof.
  intros Henv. unfold tryAcquireLock. destruct answer as [err|n].
  - apply Exec_await_rejected. by apply Exec_trigger.
  - change [(w, attempt (inr n))] with ([(w, attempt (inr n))] ++ @nil (W * Obs (dbE Schema))).
    eapply Exec_await_resolved; [by apply Exec_trigger|]. apply Exec_Ret.
Qed.

(** Every terminating execution of [acquireLock] is a sequence of failed
    attempts, each followed by a sleep of 100, closed by the attempt that
    ends the loop. *)
Lemma acquireLock_inv w tr w' r :
  Exec env w (@acquireLock Schema) tr w' r ->
  exists ns final,
    Forall (fun n => n ≠ 1) ns /\
    events tr = retries ns ++ [attempt final] /\
    match final with
    | inr n => n = 1 /\ r = inr tt
    | inl err => r = inl err
    end.
Proof.
  remember (length tr) as len eqn:Hlen. revert w tr Hlen.
  induction (lt_wf len) as [len _ IH]. intros w tr -> H.
  unfold acquireLock in H. apply Exec_iter in H.
  apply Exec_bind_inv in H as (tr1 & w1 & lr & tr2 & Hbody & Hnext & ->).
  apply Exec_bind_inv in Hbody as (tra & wa & att & trb & Htry & Hafter & ->).
  apply tryAcquireLock_inv in Htry as (answer & _ & -> & ->).
  destruct answer as [err|n]; [|destruct (n =? 1) eqn:Hn].
  - apply Exec_Ret_inv in Hafter as (-> & -> & ->).
    apply Exec_Ret_inv in Hnext as (-> & -> & ->).
    by exists [], (inl err).
  - apply Exec_Ret_inv in Hafter as (-> & -> & ->).
    apply Exec_Ret_inv in Hnext as (-> & -> & ->).
    exists [], (inr n). repeat split; [done|lia].
  - apply Exec_bind_inv in Hafter as (trs & ws & [] & tre & Hsleep & Hret & ->).
    apply Exec_trigger_inv in Hsleep as [_ ->].
    apply Exec_Ret_inv in Hret as (-> & -> & ->).
    edestruct (IH (length tr2)) as (ns & final & Hns & Hev & Hfinal);
      [|reflexivity|exact Hnext|].
    { rewrite !length_app. cbn. lia. }
    exists (n :: ns), final. split; [constructor; [lia|done]|].
    split; [|done]. unfold events in *. rewrite !fmap_app, Hev. done.
Qed.

End Lock.

(** In the unconstrained environment any number of failed attempts may
    precede the successful one. *)
Lemma acquireLock_retries {Schema : Type} (ns : list Z) :
  Forall (fun n => n ≠ 1) ns ->
  exists tr,
    Exec anything tt (@acquireLock Schema) tr tt (inr tt) /\
    events tr = retries ns ++ [attempt (inr 1)].
Proof.
  induction 1 as [|n ns Hn _ (tr & Hrun & Hev)].
  - exists [(tt, attempt (inr 1))]. split; [|done].
    unfold acquireLock. apply Exec_iter.
    change [(tt, attempt (inr 1))]
      with (([(tt, attempt (inr 1))] ++ []) ++ @nil (unit * Obs (dbE Schema))).
    eapply Exec_bind; [eapply Exec_bind|].
    + by apply (tryAcquireLock_run anything tt (inr 1) tt).
    + cbn. apply Exec_Ret.
    + apply Exec_Ret.
  - exists ((tt, attempt (inr n)) :: (tt, obs (Sleep 100) tt) :: tr). split.
    + unfold acquireLock. apply Exec_iter.
      change ((tt, attempt (inr n)) :: (tt, obs (Sleep 100) tt) :: tr)
        with (([(tt, attempt (inr n))] ++ ([(tt, obs (Sleep 100) tt)] ++ [])) ++ tr).
      eapply Exec_bind; [eapply Exec_bind|].
      * by apply (tryAcquireLock_run anything tt (inr n) tt).
      * replace (n =? 1) with false by lia.
        eapply Exec_bind; [by apply Exec_trigger|apply Exec_Ret].
      * exact Hrun.
    + unfold events in *. cbn. by rewrite Hev.
Qed.

(** ** Bootstrap *)

Section Bootstrap.

Context {Schema : Type} {A : Type}.
Variable check : dbE Schema (Result (option A)).
Variable create : dbE Schema (Result unit).

Lemma exists_inv {W} (env : Env (dbE Schema) W) w tr w' r :
  Exec env w (exists_by check) tr w' r ->
  exists answer,
    tr = [(w, obs check answer)] /\
    r = match answer with
        | inl err => inl err
        | inr found => inr (bool_decide (is_Some found))
        end.
Proof.
  intros H. apply Exec_await_inv in H as [(err & H & ->)|(tr1 & w1 & a & tr2 & H1 & H2 & ->)].
  - apply Exec_trigger_inv in H as [_ ->]. by exists (inl err).
  - apply Exec_trigger_inv in H1 as [_ ->].
    apply Exec_Ret_inv in H2 as (-> & -> & ->). by exists (inr a).
Qed.

Lemma exists_run answer :
  Exec anything tt (exists_by check) [(tt, obs check answer)] tt
    match answer with
    | inl err => inl err
    | inr found => inr (bool_decide (is_Some found))
    end.
Proof.
  destruct answer as [err|found].
  - apply Exec_await_rejected. by apply Exec_trigger.
  - change [(tt, obs check (inr found))]
      with ([(tt, obs check (inr found))] ++ @nil (unit * Obs (dbE Schema))).
    eapply Exec_await_resolved; [by apply Exec_trigger|]. apply Exec_Ret.
Qed.

Lemma ensureExists_inv {W} (env : Env (dbE Schema) W) w tr w' r :
  Exec env w (ensureExists (exists_by check) (ITree.trigger create)) tr w' r ->
  step_outcome check create (events tr) r.
Proof.
  unfold ensureExists. intros H.
  apply Exec_await_inv in H as [(err & H & ->)|(tr1 & w1 & found & tr2 & H1 & H2 & ->)].
  { apply exists_inv in H as ([err'|a] & -> & [= <-]). constructor. }
  apply exists_inv in H1 as ([err'|[a|]] & -> & [= ->]); cbn in H2.
  { apply Exec_Ret_inv in H2 as (-> & -> & ->). constructor. }
  apply Exec_bind_inv in H2 as (trc & wc & created & tr3 & Hc & H3 & ->).
  apply Exec_trigger_inv in Hc as [_ ->].
  destruct created as [error|[]].
  - apply Exec_await_inv in H3
      as [(err & H & ->)|(tr4 & w4 & again & tr5 & H4 & H5 & ->)].
    + apply exists_inv in H as ([err'|a] & -> & [= <-]). constructor.
    + apply exists_inv in H4 as ([err'|[a|]] & -> & [= ->]); cbn in H5;
        apply Exec_Ret_inv in H5 as (-> & -> & ->); constructor.
  - apply Exec_Ret_inv in H3 as (-> & -> & ->). constructor.
Qed.

Lemma ensureExists_run evs r :
  step_outcome check create evs r ->
  exists tr,
    Exec anything tt (ensureExists (exists_by check) (ITree.trigger create)) tr tt r /\
    events tr = evs.
Proof.
  intros H. exists ((fun o => (tt, o)) <$> evs). split.
  2: { unfold events. rewrite <- list_fmap_compose. apply list_fmap_id. }
  unfold ensureExists.
  destruct H as [a| |error a|error|err|error err]; cbn [fmap list_fmap].
  - change [(tt, obs check (inr (Some a)))]
      with ([(tt, obs check (inr (Some a)))] ++ @nil (unit * Obs (dbE Schema))).
    eapply Exec_await_resolved; [apply (exists_run (inr (Some a)))|]. apply Exec_Ret.
  - change [(tt, obs check (inr None)); (tt, obs create (inr tt))]
      with ([(tt, obs check (inr None))] ++ [(tt, obs create (inr tt))] ++ []).
    eapply Exec_await_resolved; [apply (exists_run (inr None))|].
    eapply Exec_bind; [by apply Exec_trigger|]. apply Exec_Ret.
  - change [(tt, obs check (inr None)); (tt, obs create (inl error));
            (tt, obs check (inr (Some a)))]
      with ([(tt, obs check (inr None))] ++ [(tt, obs create (inl error))]
            ++ [(tt, obs check (inr (Some a)))] ++ []).
    eapply Exec_await_resolved; [apply (exists_run (inr None))|].
    eapply Exec_bind; [by apply Exec_trigger|].
    eapply Exec_await_resolved; [apply (exists_run (inr (Some a)))|]. apply Exec_Ret.
  - change [(tt, obs check (inr None)); (tt, obs create (inl error));
            (tt, obs check (inr None))]
      with ([(tt, obs check (inr None))] ++ [(tt, obs create (inl error))]
            ++ [(tt, obs check (inr None))] ++ []).
    eapply Exec_await_resolved; [apply (exists_run (inr None))|].
    eapply Exec_bind; [by apply Exec_trigger|].
    eapply Exec_await_resolved; [apply (exists_run (inr None))|]. apply Exec_Ret.
  - apply Exec_await_rejected. apply (exists_run (inl err)).
  - change [(tt, obs check (inr None)); (tt, obs create (inl error));
            (tt, obs check (inl err))]
      with ([(tt, obs check (inr None))] ++ [(tt, obs create (inl error))]
            ++ [(tt, obs check (inl err))]).
    eapply Exec_await_resolved; [apply (exists_run (inr None))|].
    eapply Exec_bind; [by apply Exec_trigger|].
    apply Exec_await_rejected. apply (exists_run (inl err)).
Qed.

Lemma ensureExists_step :
  bootstrap_step (ensureExists (exists_by check) (ITree.trigger create)) check create.
Proof.
  split.
  - intros W env w tr w' r. apply ensureExists_inv.
  - apply ensureExists_run.
Qed.

End Bootstrap.

(** ** The order on names and sorting *)

Section Order.

Lemma lt_compare a b : JS.lt a b <-> String.compare a b = Lt.
Proof. unfold JS.lt, String.ltb. destruct (String.compare a b); naive_solver. Qed.

Lemma le_compare a b : JS.le a b <-> String.compare a b ≠ Gt.
Proof. unfold JS.le, String.leb. destruct (String.compare a b); naive_solver. Qed.

Lemma lt_irrefl a : ¬ JS.lt a a.
Proof.
  rewrite lt_compare. intros H.
  exact (StrictOrder_Irreflexive (R := String_as_OT.lt) a H).
Qed.

Lemma lt_trans a b c : JS.lt a b -> JS.lt b c -> JS.lt a c.
Proof.
  rewrite !lt_compare. exact (StrictOrder_Transitive (R := String_as_OT.lt) a b c).
Qed.

Lemma le_lt_or_eq a b : JS.le a b <-> JS.lt a b \/ a = b.
Proof.
  rewrite le_compare, lt_compare.
  pose proof (String_as_OT.compare_spec a b) as Hs.
  change (String_as_OT.compare a b) with (String.compare a b) in Hs.
  destruct Hs as [Heq|Hlt|Hgt].
  - unfold String_as_OT.eq in Heq. subst. naive_solver.
  - naive_solver.
  - split; [done|]. intros [?| ->]; [done|].
    exfalso. by apply (lt_irrefl b), lt_compare.
Qed.

Lemma lt_le a b : JS.lt a b -> JS.le a b.
Proof. rewrite le_lt_or_eq. auto. Qed.

Lemma lt_asym a b : JS.lt a b -> ¬ JS.lt b a.
Proof. intros H1 H2. exact (lt_irrefl a (lt_trans _ _ _ H1 H2)). Qed.

Lemma le_not_lt a b : JS.le a b -> ¬ JS.lt b a.
Proof.
  rewrite le_lt_or_eq. intros [H| ->]; [by apply lt_asym|apply lt_irrefl].
Qed.

Lemma lt_or_le a b : JS.lt a b \/ JS.le b a.
Proof.
  destruct (String.leb_total a b) as [H|H]; [|by right].
  apply le_lt_or_eq in H as [H| ->]; [by left|].
  right. apply le_lt_or_eq. by right.
Qed.

#[local] Instance le_total : Total JS.le.
Proof. intros a b. apply String.leb_total. Qed.

#[local] Instance le_trans : Transitive JS.le.
Proof.
  intros a b c. rewrite !le_lt_or_eq. intros [H1| ->] [H2| ->]; eauto using lt_trans.
Qed.

#[local] Instance le_antisym : AntiSymm eq JS.le.
Proof. intros a b. apply String.leb_antisym. Qed.

Lemma sort_perm l : JS.sort l ≡ₚ l.
Proof. apply merge_sort_Permutation. Qed.

Lemma elem_of_sort l x : x ∈ JS.sort l <-> x ∈ l.
Proof. by rewrite sort_perm. Qed.

Lemma sort_sorted l : StronglySorted JS.le (JS.sort l).
Proof. apply (StronglySorted_merge_sort _). Qed.

Lemma sorted_strict l : NoDup l -> StronglySorted JS.le l -> StronglySorted JS.lt l.
Proof.
  intros Hnd Hs. induction Hs as [|x l Hs IH Hx]; [constructor|].
  apply NoDup_cons in Hnd as [Hx' Hnd]. constructor; [by apply IH|].
  apply Forall_forall. intros y Hy.
  rewrite Forall_forall in Hx. pose proof (Hx y Hy) as Hxy.
  apply le_lt_or_eq in Hxy as [?|Heq]; [done|]. by subst.
Qed.

Lemma sort_strict l : NoDup l -> StronglySorted JS.lt (JS.sort l).
Proof.
  intros Hnd. apply sorted_strict; [by rewrite sort_perm|apply sort_sorted].
Qed.

Lemma strict_NoDup l : StronglySorted JS.lt l -> NoDup l.
Proof.
  induction 1 as [|x l Hs IH Hx]; constructor; [|done].
  intros Hin. rewrite Forall_forall in Hx. exact (lt_irrefl x (Hx x Hin)).
Qed.

(** A sorted list of distinct names is determined by its elements. *)
Lemma sort_unique l1 l2 :
  StronglySorted JS.lt l1 -> StronglySorted JS.lt l2 ->
  (forall x, x ∈ l1 <-> x ∈ l2) -> l1 = l2.
Proof.
  intros H1 H2 Heq.
  apply (StronglySorted_unique_strong JS.lt); [|done|done|].
  - intros x y _ _ Hxy Hyx. by destruct (lt_asym x y).
  - apply NoDup_Permutation; auto using strict_NoDup.
Qed.

End Order.

(** ** Arrays and sets *)

Section Arrays.

Context {A : Type}.
Implicit Types (l : list A) (p : A -> bool).

Lemma findIndex_none p l :
  Forall (fun x => p x = false) l -> JS.findIndex p l = -1.
Proof. induction 1 as [|x l Hx _ IH]; cbn; [done|]. by rewrite Hx, IH. Qed.

Lemma findIndex_ge p l : -1 <= JS.findIndex p l.
Proof.
  induction l as [|x l IH]; cbn; [done|].
  destruct (p x); [lia|]. destruct (Z.eqb_spec (JS.findIndex p l) (-1)); lia.
Qed.

Lemma findIndex_found p pre x post :
  Forall (fun y => p y = false) pre -> p x = true ->
  JS.findIndex p (pre ++ x :: post) = Z.of_nat (length pre).
Proof.
  intros Hpre Hx. induction Hpre as [|y pre Hy _ IH]; cbn.
  - by rewrite Hx.
  - rewrite Hy, IH. destruct (Z.eqb_spec (Z.of_nat (length pre)) (-1)); lia.
Qed.

Lemma slice_take l (n : nat) : JS.slice l 0 (Some (Z.of_nat n)) = take n l.
Proof.
  unfold JS.slice, JS.clamp.
  destruct (Z.ltb_spec (Z.of_nat n) 0); [lia|].
  change (0 <? 0) with false. cbv iota.
  replace (Z.min 0 (Z.of_nat (length l))) with 0 by lia.
  rewrite Z.sub_0_r. change (Z.to_nat 0) with O. rewrite drop_0.
  destruct (decide (n <= length l)%nat).
  - f_equal. lia.
  - rewrite !take_ge by lia. done.
Qed.

Lemma slice_drop l (n : nat) : JS.slice l (Z.of_nat n) None = drop n l.
Proof.
  unfold JS.slice, JS.clamp.
  destruct (Z.ltb_spec (Z.of_nat n) 0); [lia|].
  destruct (decide (n <= length l)%nat).
  - replace (Z.to_nat (Z.min (Z.of_nat n) (Z.of_nat (length l)))) with n by lia.
    apply take_ge. rewrite length_drop. lia.
  - replace (Z.to_nat (Z.min (Z.of_nat n) (Z.of_nat (length l)))) with (length l) by lia.
    rewrite !drop_ge by lia. apply take_nil.
Qed.

Lemma getLast_snoc l x : getLast (l ++ [x]) = Some x.
Proof. apply last_snoc. Qed.

Lemma getLast_inv l :
  match getLast l with
  | Some x => exists pre, l = pre ++ [x]
  | None => l = []
  end.
Proof.
  destruct l as [|y l _] using rev_ind; [done|].
  unfold getLast. rewrite last_snoc. by exists l.
Qed.

End Arrays.

Lemma findIndex_fmap {A B} (f : A -> B) p (l : list A) :
  JS.findIndex p (f <$> l) = JS.findIndex (p ∘ f) l.
Proof. induction l as [|x l IH]; cbn; [done|]. by rewrite IH. Qed.

Lemma Set_new_NoDup l : NoDup l -> JS.Set_new l = l.
Proof.
  unfold JS.Set_new. change l with ([] ++ l) at 1 3. generalize (@nil string) as acc.
  induction l as [|x l IH]; intros acc Hnd; cbn.
  - by rewrite app_nil_r.
  - unfold JS.Set_add at 2. rewrite bool_decide_eq_false_2.
    + rewrite IH; [by rewrite <- app_assoc|]. by rewrite <- app_assoc.
    + apply NoDup_app in Hnd as (_ & Hnd & _). intros Hin.
      apply (Hnd x Hin). left.
Qed.

(** ** The checks of [runNewMigrations] *)

Section Validation.

Context {Schema : Type}.
Implicit Types (allMigrations : gmap string (Migration Schema)) (executed : gset string).

Lemma elem_of_Object_keys allMigrations n :
  n ∈ Object_keys allMigrations <-> is_Some (allMigrations !! n).
Proof.
  unfold Object_keys. rewrite list_elem_of_fmap. split.
  - intros ([k m] & -> & Hin). apply elem_of_map_to_list in Hin. by exists m.
  - intros [m Hm]. exists (n, m). split; [done|]. by apply elem_of_map_to_list.
Qed.

Lemma elem_of_sorted_names allMigrations n :
  n ∈ sorted_names allMigrations <-> is_Some (allMigrations !! n).
Proof. unfold sorted_names. by rewrite elem_of_sort, elem_of_Object_keys. Qed.

Lemma sorted_names_strict allMigrations : StronglySorted JS.lt (sorted_names allMigrations).
Proof. apply sort_strict, NoDup_fst_map_to_list. Qed.

Lemma elem_of_executed_names executed n : n ∈ executed_names executed <-> n ∈ executed.
Proof. unfold executed_names. by rewrite elem_of_sort, elem_of_elements. Qed.

Lemma executed_names_strict executed : StronglySorted JS.lt (executed_names executed).
Proof. apply sort_strict, NoDup_elements. Qed.

Lemma named_names allMigrations (l : list string) :
  (forall n, n ∈ l -> is_Some (allMigrations !! n)) ->
  name <$> omap (lookup_named allMigrations) l = l /\
  length (omap (lookup_named allMigrations) l) = length l.
Proof.
  induction l as [|n l IH]; intros Hl; [done|].
  destruct (Hl n) as [m Hm]; [left|].
  destruct IH as [IH1 IH2]; [intros; apply Hl; by right|].
  assert (lookup_named allMigrations n = Some (named n m)) as Hn.
  { unfold lookup_named. by rewrite Hm. }
  cbn [omap list_omap]. rewrite Hn. cbn. by rewrite IH1, IH2.
Qed.

Lemma sortedMigrations_names allMigrations :
  name <$> sortedMigrations allMigrations = sorted_names allMigrations.
Proof. apply named_names. intros n. by rewrite elem_of_sorted_names. Qed.

(** The names after [x] in a sorted list are the names greater than [x]. *)
Lemma filter_after pre x post :
  StronglySorted JS.lt (pre ++ x :: post) ->
  filter (JS.lt x) (pre ++ x :: post) = post.
Proof.
  intros Hs. apply StronglySorted_app in Hs as (Hpre & _ & Hs).
  apply StronglySorted_inv in Hs as [_ Hpost].
  rewrite filter_app, filter_cons.
  rewrite (decide_False (P := JS.lt x x)) by apply lt_irrefl.
  assert (filter (JS.lt x) pre = []) as ->.
  { clear Hpost. induction pre as [|y pre IH]; [done|].
    rewrite filter_cons, decide_False, IH; [done| |].
    - intros y' z Hy' Hz. apply Hpre; [by right|done].
    - apply lt_asym, Hpre; left. }
  cbn. clear Hpre. induction Hpost as [|y post Hy _ IH]; [done|].
  rewrite filter_cons. destruct (decide (JS.lt x y)); [|done]. by rewrite IH.
Qed.

Lemma findIndex_name allMigrations pre x post :
  sorted_names allMigrations = pre ++ x :: post ->
  JS.findIndex (name_is (Some x)) (sortedMigrations allMigrations)
  = Z.of_nat (length pre).
Proof.
  intros Hnames.
  change (name_is (Some x)) with ((fun s => String.eqb s x) ∘ @name Schema).
  rewrite <- findIndex_fmap, sortedMigrations_names, Hnames.
  pose proof (strict_NoDup _ (sorted_names_strict allMigrations)) as Hnd.
  rewrite Hnames in Hnd. apply NoDup_app in Hnd as (_ & Hnd & _).
  apply findIndex_found; [|apply String.eqb_refl].
  apply Forall_forall. intros y Hy. apply String.eqb_neq. intros ->.
  apply (Hnd x Hy). left.
Qed.

Lemma findIndex_absent allMigrations x :
  allMigrations !! x = None ->
  JS.findIndex (name_is (Some x)) (sortedMigrations allMigrations) = -1.
Proof.
  intros Hx.
  change (name_is (Some x)) with ((fun s => String.eqb s x) ∘ @name Schema).
  rewrite <- findIndex_fmap, sortedMigrations_names.
  apply findIndex_none, Forall_forall. intros y Hy. apply String.eqb_neq. intros ->.
  apply elem_of_sorted_names in Hy as [m Hm]. congruence.
Qed.

(** The two slices, when the last executed name is found after [pre]. *)
Lemma slices allMigrations pre x post :
  sorted_names allMigrations = pre ++ x :: post ->
  name <$> JS.slice (sortedMigrations allMigrations) 0 (Some (Z.of_nat (length pre) + 1))
  = pre ++ [x] /\
  JS.slice (sortedMigrations allMigrations) (Z.of_nat (length pre) + 1) None
  = omap (lookup_named allMigrations) post.
Proof.
  intros Hnames.
  replace (Z.of_nat (length pre) + 1) with (Z.of_nat (S (length pre))) by lia.
  rewrite slice_take, slice_drop. split.
  - rewrite fmap_take, sortedMigrations_names, Hnames.
    rewrite (cons_middle x pre post), app_assoc.
    rewrite take_app_length'; [done|]. rewrite length_app. cbn. lia.
  - unfold sortedMigrations. fold (sorted_names allMigrations).
    fold (lookup_named allMigrations). rewrite Hnames.
    rewrite (cons_middle x pre post), app_assoc, omap_app.
    rewrite drop_app_length'; [done|].
    destruct (named_names allMigrations (pre ++ [x])) as [_ ->].
    + intros n Hn. apply elem_of_sorted_names. rewrite Hnames.
      rewrite (cons_middle x pre post), app_assoc. apply elem_of_app. by left.
    + rewrite length_app. cbn. lia.
Qed.

Lemma find_not_found {A} (f : A -> bool) (l : list A) :
  (forall x, x ∈ l -> f x = false) -> List.find f l = None.
Proof.
  induction l as [|x l IH]; intros Hl; [done|]. cbn.
  rewrite (Hl x) by left. apply IH. intros y Hy. apply Hl. by right.
Qed.

Lemma find_found {A} (f : A -> bool) (l : list A) x :
  x ∈ l -> f x = true -> exists y, List.find f l = Some y /\ y ∈ l /\ f y = true.
Proof.
  intros Hx Hfx. destruct (List.find f l) as [y|] eqn:Hfind.
  - apply find_some in Hfind as [Hin Hy]. exists y. by rewrite list_elem_of_In.
  - apply list_elem_of_In in Hx. pose proof (find_none _ _ Hfind x Hx). congruence.
Qed.

Lemma ensure_both (ex old : list string) :
  NoDup ex -> NoDup old ->
  (forall x, x ∈ ex <-> x ∈ old) ->
  ensureMigrationsAreNotCorrupted ex old = inr tt.
Proof.
  intros Hex Hold Heq. unfold ensureMigrationsAreNotCorrupted.
  rewrite !Set_new_NoDup by done. unfold JS.Set_has.
  rewrite !find_not_found; [done| |]; intros x Hx.
  - rewrite bool_decide_eq_true_2; [done|]. by apply Heq.
  - rewrite bool_decide_eq_true_2; [done|]. by apply Heq.
Qed.

Lemma ensure_missing (ex old : list string) x :
  NoDup ex -> NoDup old -> x ∈ ex -> x ∉ old ->
  exists n, ensureMigrationsAreNotCorrupted ex old = inl (JS.new_Error (msg_missing n))
            /\ n ∈ ex /\ n ∉ old.
Proof.
  intros Hex Hold Hx Hnot. unfold ensureMigrationsAreNotCorrupted.
  rewrite !Set_new_NoDup by done. unfold JS.Set_has.
  destruct (find_found (fun it => negb (bool_decide (it ∈ old))) ex x)
    as (n & -> & Hn & Hf); [done|by rewrite bool_decide_eq_false_2|].
  exists n. repeat split; [done|].
  apply negb_true_iff, bool_decide_eq_false in Hf. done.
Qed.

Lemma ensure_before (ex old : list string) x :
  NoDup ex -> NoDup old -> (forall y, y ∈ ex -> y ∈ old) -> x ∈ old -> x ∉ ex ->
  exists n, ensureMigrationsAreNotCorrupted ex old = inl (JS.new_Error (msg_before n))
            /\ n ∈ old /\ n ∉ ex.
Proof.
  intros Hex Hold Hsub Hx Hnot. unfold ensureMigrationsAreNotCorrupted.
  rewrite !Set_new_NoDup by done. unfold JS.Set_has.
  rewrite find_not_found.
  2: { intros y Hy. rewrite bool_decide_eq_true_2; [done|]. by apply Hsub. }
  destruct (find_found (fun it => negb (bool_decide (it ∈ ex))) old x)
    as (n & -> & Hn & Hf); [done|by rewrite bool_decide_eq_false_2|].
  exists n. repeat split; [done|].
  apply negb_true_iff, bool_decide_eq_false in Hf. done.
Qed.

(** Where the last executed name stands among the executed names and, when
    the set has it, among the names of the set. *)
Lemma last_executed executed last_ :
  getLast (executed_names executed) = Some last_ ->
  exists pre,
    executed_names executed = pre ++ [last_] /\
    last_ ∈ executed /\
    (forall n, n ∈ executed -> n = last_ \/ JS.lt n last_).
Proof.
  intros Hlast. pose proof (getLast_inv (executed_names executed)) as Hinv.
  rewrite Hlast in Hinv. destruct Hinv as [pre Hpre]. exists pre.
  split; [done|]. split.
  - apply elem_of_executed_names. rewrite Hpre. apply elem_of_app. right. left.
  - intros n Hn. apply elem_of_executed_names in Hn. rewrite Hpre in Hn.
    apply elem_of_app in Hn as [Hn|Hn].
    + right. pose proof (executed_names_strict executed) as Hs. rewrite Hpre in Hs.
      apply (StronglySorted_app_1_elem_of _ _ _ _ _ Hs Hn). left.
    + left. by apply list_elem_of_singleton in Hn.
Qed.

Lemma split_names allMigrations x :
  is_Some (allMigrations !! x) ->
  exists pre post,
    sorted_names allMigrations = pre ++ x :: post /\
    (forall n, n ∈ pre -> JS.lt n x) /\
    (forall n, n ∈ post -> JS.lt x n).
Proof.
  intros Hx. apply elem_of_sorted_names, list_elem_of_split in Hx as (pre & post & Hsplit).
  exists pre, post. split; [done|].
  pose proof (sorted_names_strict allMigrations) as Hs. rewrite Hsplit in Hs.
  split; intros n Hn.
  - apply (StronglySorted_app_1_elem_of _ _ _ _ _ Hs Hn). left.
  - apply StronglySorted_app_1_r, StronglySorted_inv in Hs as [_ Hs].
    rewrite Forall_forall in Hs. by apply Hs.
Qed.

(** Under I1 the checks pass and hand the pending migrations to the loop. *)
Lemma validate_ok allMigrations executed :
  I1 allMigrations executed ->
  validate allMigrations (executed_names executed)
  = inr (omap (lookup_named allMigrations) (pending allMigrations executed)) /\
  name <$> omap (lookup_named allMigrations) (pending allMigrations executed)
  = pending allMigrations executed /\
  sorted_names allMigrations = executed_names executed ++ pending allMigrations executed.
Proof.
  intros [rest Hrest]. unfold validate, pending.
  destruct (getLast (executed_names executed)) as [last_|] eqn:Hlast.
  - destruct (last_executed _ _ Hlast) as (pre & Hpre & _ & _).
    rewrite Hpre, <- app_assoc in Hrest. cbn in Hrest.
    rewrite (findIndex_name _ _ _ _ Hrest).
    destruct (Z.eqb_spec (Z.of_nat (length pre)) (-1)) as [?|_]; [lia|].
    destruct (slices _ _ _ _ Hrest) as [-> ->].
    rewrite <- Hpre, ensure_both;
      [|apply strict_NoDup, executed_names_strict..|done].
    pose proof (sorted_names_strict allMigrations) as Hs.
    rewrite Hrest in *. rewrite (filter_after _ _ _ Hs).
    split; [done|]. split.
    + apply named_names. intros n Hn. apply elem_of_sorted_names.
      rewrite Hrest. apply elem_of_app. right. by right.
    + by rewrite Hpre, <- app_assoc.
  - pose proof (getLast_inv (executed_names executed)) as Hnil.
    rewrite Hlast in Hnil. rewrite Hnil in *. cbn in Hrest.
    split; [done|]. split; [|done].
    apply named_names. intros n. by rewrite elem_of_sorted_names.
Qed.

(** An executed name the set does not have fails the first check. *)
Lemma validate_missing allMigrations executed x :
  x ∈ executed -> allMigrations !! x = None ->
  exists n,
    validate allMigrations (executed_names executed) = inl (JS.new_Error (msg_missing n)) /\
    n ∈ executed /\ allMigrations !! n = None.
Proof.
  intros Hx Hnone. unfold validate.
  destruct (getLast (executed_names executed)) as [last_|] eqn:Hlast.
  2: { pose proof (getLast_inv (executed_names executed)) as Hnil.
       rewrite Hlast in Hnil. apply elem_of_executed_names in Hx.
       rewrite Hnil in Hx. by apply elem_of_nil in Hx. }
  destruct (last_executed _ _ Hlast) as (pre & Hpre & Hin & Hmax).
  destruct (allMigrations !! last_) as [m|] eqn:Hm.
  2: { rewrite (findIndex_absent _ _ Hm). cbn. by exists last_. }
  destruct (split_names allMigrations last_) as (pre' & post & Hsplit & Hbefore & Hafter);
    [by rewrite Hm|].
  rewrite (findIndex_name _ _ _ _ Hsplit).
  destruct (Z.eqb_spec (Z.of_nat (length pre')) (-1)) as [?|_]; [lia|].
  destruct (slices _ _ _ _ Hsplit) as [-> _].
  pose proof (strict_NoDup _ (sorted_names_strict allMigrations)) as Hnd.
  rewrite Hsplit, (cons_middle last_ pre' post), app_assoc in Hnd.
  apply NoDup_app in Hnd as (Hold & _ & _).
  destruct (ensure_missing (executed_names executed) (pre' ++ [last_]) x)
    as (n & -> & Hn & Hnot);
    [apply strict_NoDup, executed_names_strict|done|by apply elem_of_executed_names| |].
  { intros Hold'. assert (x ∈ sorted_names allMigrations) as Hnames.
    { rewrite Hsplit, (cons_middle last_ pre' post), app_assoc.
      apply elem_of_app. by left. }
    apply elem_of_sorted_names in Hnames as [? ?]. congruence. }
  exists n. apply elem_of_executed_names in Hn. repeat split; [done|].
  destruct (allMigrations !! n) as [mn|] eqn:Hmn; [|done]. exfalso.
  assert (n ∈ sorted_names allMigrations) as Hnames
    by (apply elem_of_sorted_names; by rewrite Hmn).
  rewrite Hsplit, (cons_middle last_ pre' post), app_assoc in Hnames.
  apply elem_of_app in Hnames as [?|Hpost]; [done|].
  apply Hafter in Hpost.
  destruct (Hmax n Hn) as [->|Hlt]; [by apply (lt_irrefl last_)|by apply (lt_asym n last_)].
Qed.

(** When every executed name is in the set, a name of the set that was not
    executed and sorts before the last executed name fails the second
    check. *)
Lemma validate_before allMigrations executed last_ x :
  (forall n, n ∈ executed -> is_Some (allMigrations !! n)) ->
  getLast (executed_names executed) = Some last_ ->
  is_Some (allMigrations !! x) -> x ∉ executed -> JS.lt x last_ ->
  exists n,
    validate allMigrations (executed_names executed) = inl (JS.new_Error (msg_before n)) /\
    is_Some (allMigrations !! n) /\ (n ∉ executed) /\ JS.lt n last_.
Proof.
  intros Hsub Hlast Hx Hnot Hlt. unfold validate. rewrite Hlast.
  destruct (last_executed _ _ Hlast) as (pre & Hpre & Hin & Hmax).
  destruct (split_names allMigrations last_) as (pre' & post & Hsplit & Hbefore & Hafter);
    [by apply Hsub|].
  rewrite (findIndex_name _ _ _ _ Hsplit).
  destruct (Z.eqb_spec (Z.of_nat (length pre')) (-1)) as [?|_]; [lia|].
  destruct (slices _ _ _ _ Hsplit) as [-> _].
  pose proof (strict_NoDup _ (sorted_names_strict allMigrations)) as Hnd.
  rewrite Hsplit, (cons_middle last_ pre' post), app_assoc in Hnd.
  apply NoDup_app in Hnd as (Hold & _ & _).
  assert (forall n, is_Some (allMigrations !! n) -> n = last_ \/ JS.lt n last_ ->
                    n ∈ pre' ++ [last_]) as Hin_old.
  { intros n Hn Hle. apply elem_of_sorted_names in Hn.
    rewrite Hsplit, (cons_middle last_ pre' post), app_assoc in Hn.
    apply elem_of_app in Hn as [?|Hpost]; [done|]. exfalso.
    apply Hafter in Hpost.
    destruct Hle as [->|Hlt']; [by apply (lt_irrefl last_)|by apply (lt_asym n last_)]. }
  destruct (ensure_before (executed_names executed) (pre' ++ [last_]) x)
    as (n & -> & Hn & Hnex);
    [apply strict_NoDup, executed_names_strict|done| | |by rewrite elem_of_executed_names|].
  { intros y Hy. apply elem_of_executed_names in Hy. apply Hin_old; auto. }
  { apply Hin_old; auto. }
  exists n. rewrite elem_of_executed_names in Hnex. repeat split; [|done|].
  - apply elem_of_sorted_names. rewrite Hsplit, (cons_middle last_ pre' post), app_assoc.
    apply elem_of_app. by left.
  - apply elem_of_app in Hn as [Hn|Hn]; [by apply Hbefore|].
    apply list_elem_of_singleton in Hn as ->. done.
Qed.

End Validation.

(** ** What a tree can emit, and what its executions preserve *)

Section Footprint.

Context {E : Type -> Type} (P : Obs E -> Prop).

Lemma Within_Ret {R} (r : R) : Within P (Ret r : itree E R).
Proof. intros W env w tr w' r' H. by apply Exec_Ret_inv in H as (-> & _). Qed.

Lemma Within_trigger {X} (e : E X) :
  (forall x, P (obs e x)) -> Within P (ITree.trigger e).
Proof.
  intros HP W env w tr w' x H. apply Exec_trigger_inv in H as [_ ->].
  repeat constructor. apply HP.
Qed.

Lemma Within_bind {A B} (t : itree E A) (k : A -> itree E B) :
  Within P t -> (forall a, Within P (k a)) -> Within P (ITree.bind t k).
Proof.
  intros Ht Hk W env w tr w' r H.
  apply Exec_bind_inv in H as (tr1 & w1 & a & tr2 & H1 & H2 & ->).
  apply Forall_app. split; [by eapply Ht|by eapply Hk].
Qed.

Lemma Within_await {A B} (p : itree E (Result A)) (k : A -> itree E (Result B)) :
  Within P p -> (forall a, Within P (k a)) -> Within P (await p k).
Proof.
  intros Hp Hk. apply Within_bind; [done|]. intros [err|a]; [apply Within_Ret|apply Hk].
Qed.

Lemma Within_forOf {A} (l : list A) (body : A -> itree E (Result unit)) :
  (forall x, Within P (body x)) -> Within P (forOf l body).
Proof.
  intros Hbody. induction l as [|x l IH]; cbn; [apply Within_Ret|].
  apply Within_await; [apply Hbody|]. intros _. exact IH.
Qed.

End Footprint.

(** A relation between worlds that every step of the environment respects,
    for the events in [P], relates the ends of an execution within [P]. *)
Lemma Exec_preserves {E : Type -> Type} {W} (h : Handler E W) (P : Obs E -> Prop)
    (I : W -> W -> Prop) `{!Reflexive I, !Transitive I} {R} w (t : itree E R) tr w' r :
  (forall X (e : E X) w0, P (obs e (h X e w0).2) -> I w0 (h X e w0).1) ->
  Exec (graph h) w t tr w' r ->
  Forall (fun entry => P entry.2) tr ->
  I w w'.
Proof.
  intros Hstep. unfold Exec.
  induction 1 as [w r|w u tr w' r H IH|w X e k x w1 tr w' r Henv H IH]; intros HP.
  - reflexivity.
  - by apply IH.
  - apply Forall_cons in HP as [HP1 HP]. cbn in HP1.
    unfold graph in Henv. specialize (Hstep X e w). rewrite Henv in Hstep.
    transitivity w1; [by apply Hstep|by apply IH].
Qed.

(** ** The events of each part of the module *)

Section Parts.

Context {Schema : Type}.

Lemma Within_mono {R} (P Q : Obs (dbE Schema) -> Prop) (t : itree (dbE Schema) R) :
  (forall o, P o -> Q o) -> Within P t -> Within Q t.
Proof.
  intros HPQ Ht W env w tr w' r H. eapply Forall_impl; [by eapply Ht|].
  intros entry. apply HPQ.
Qed.

Lemma ensureExists_within {A} (P : Obs (dbE Schema) -> Prop)
    (check : dbE Schema (Result (option A))) create :
  (forall x, P (obs check x)) ->
  (forall x, P (obs create x)) ->
  Within P (ensureExists (exists_by check) (ITree.trigger create)).
Proof.
  intros Hcheck Hcreate W env w tr w' r H.
  apply ensureExists_inv in H. unfold events in H.
  apply (Forall_fmap snd P).
  destruct H; repeat constructor; done.
Qed.

Lemma bootstrap_within : Within bootstrap_event (@ensureMigrationTablesExists Schema).
Proof.
  unfold ensureMigrationTablesExists.
  apply Within_await; [by apply ensureExists_within|]. intros _.
  apply Within_await; [by apply ensureExists_within|]. intros _.
  by apply ensureExists_within.
Qed.

Lemma acquireLock_within : Within (fun o => kind o = of_lock) (@acquireLock Schema).
Proof.
  intros W env w tr w' r H. apply acquireLock_inv in H as (ns & final & _ & Hev & _).
  apply (Forall_fmap snd (fun o => kind o = of_lock)). fold (events tr). rewrite Hev.
  apply Forall_app. split; [|by repeat constructor].
  clear Hev. induction ns as [|n ns IH]; [constructor|].
  change (Forall (fun o => kind o = of_lock) (@retry Schema n ++ retries ns)).
  apply Forall_app. split; [by repeat constructor|done].
Qed.

Lemma releaseLock_within : Within (fun o => kind o = of_lock) (@releaseLock Schema).
Proof.
  unfold releaseLock. apply Within_await; [by apply Within_trigger|].
  intros _. apply Within_Ret.
Qed.

Lemma apply_one_within m :
  Within (fun o => kind o = of_migration \/ kind o = of_ledger) (@apply_one Schema m).
Proof.
  unfold apply_one. apply Within_await; [apply Within_trigger; by left|].
  intros _. apply Within_trigger. by right.
Qed.

Lemma runNewMigrations_within allMigrations :
  Within (fun o => kind o = of_migration \/ kind o = of_ledger)
    (@runNewMigrations Schema allMigrations).
Proof.
  unfold runNewMigrations.
  apply Within_await; [apply Within_trigger; by right|]. intros executed.
  apply Within_await.
  { destruct (getLast executed); [|apply Within_Ret].
    destruct (_ =? _); apply Within_Ret. }
  intros _. apply Within_await; [apply Within_Ret|]. intros _.
  apply Within_forOf. apply apply_one_within.
Qed.

End Parts.

(** ** [runNewMigrations] *)

Section Run.

Context {Schema : Type} {W : Type} (env : Env (dbE Schema) W).
Implicit Types (allMigrations : gmap string (Migration Schema)).

Lemma Exec_await_Ret {A B} w (x : Result A) (k : A -> itree (dbE Schema) (Result B))
    tr w' r :
  Exec env w (await (Ret x) k) tr w' r <->
  match x with
  | inl err => tr = [] /\ w' = w /\ r = inl err
  | inr a => Exec env w (k a) tr w' r
  end.
Proof.
  destruct x as [err|a]; [|done]. split.
  - intros H. change (Exec env w (Ret (inl err)) tr w' r) in H.
    by apply Exec_Ret_inv in H.
  - intros (-> & -> & ->). exact (Exec_Ret env w (inl err : Result B)).
Qed.

(** [runNewMigrations] is the query, the checks, and the loop over what
    the checks let through. *)
Lemma runNewMigrations_exec allMigrations w tr w' r :
  Exec env w (runNewMigrations allMigrations) tr w' r <->
  exists answer w1,
    env _ SelectMigrationNames w answer w1 /\
    match answer with
    | inl err => tr = [(w, obs SelectMigrationNames (inl err))] /\ w' = w1 /\ r = inl err
    | inr executed =>
        match validate allMigrations executed with
        | inl err =>
            tr = [(w, obs SelectMigrationNames (inr executed))] /\ w' = w1 /\ r = inl err
        | inr new =>
            exists tr2,
              tr = (w, obs SelectMigrationNames (inr executed)) :: tr2 /\
              Exec env w1 (forOf new apply_one) tr2 w' r
        end
    end.
Proof.
  unfold runNewMigrations. split.
  - intros H.
    apply Exec_await_inv in H as [(err & H & ->)|(tr1 & w1 & executed & tr2 & H1 & H2 & ->)].
    { apply Exec_trigger_inv in H as [Henv ->]. by exists (inl err), w'. }
    apply Exec_trigger_inv in H1 as [Henv ->]. exists (inr executed), w1.
    split; [done|]. unfold validate.
    destruct (getLast executed) as [last_|]; cbn in H2 |- *.
    + destruct (_ =? -1); apply Exec_await_Ret in H2; [by destruct H2 as (-> & -> & ->)|].
      apply Exec_await_Ret in H2.
      destruct (ensureMigrationsAreNotCorrupted _ _) as [err|[]];
        [by destruct H2 as (-> & -> & ->)|by exists tr2].
    + apply Exec_await_Ret in H2. apply Exec_await_Ret in H2.
      destruct (ensureMigrationsAreNotCorrupted _ _) as [err|[]];
        [by destruct H2 as (-> & -> & ->)|by exists tr2].
  - intros (answer & w1 & Henv & H). destruct answer as [err|executed].
    { destruct H as (-> & -> & ->). apply Exec_await_rejected. by apply Exec_trigger. }
    assert (exists tr2, tr = [(w, obs SelectMigrationNames (inr executed))] ++ tr2 /\
              match validate allMigrations executed with
              | inl err => tr2 = [] /\ w' = w1 /\ r = inl err
              | inr new => Exec env w1 (forOf new apply_one) tr2 w' r
              end) as (tr2 & -> & H2).
    { destruct (validate allMigrations executed) as [err|new].
      - destruct H as (-> & -> & ->). by exists [].
      - destruct H as (tr2 & -> & H). by exists tr2. }
    eapply Exec_await_resolved; [by apply Exec_trigger|]. clear H.
    unfold validate in H2.
    destruct (getLast executed) as [last_|]; cbn in H2 |- *.
    + destruct (_ =? -1); apply Exec_await_Ret; [done|].
      apply Exec_await_Ret.
      destruct (ensureMigrationsAreNotCorrupted _ _) as [err|[]]; done.
    + apply Exec_await_Ret. apply Exec_await_Ret.
      destruct (ensureMigrationsAreNotCorrupted _ _) as [err|[]]; done.
Qed.

(** A rejected forward operation ends the loop with its error. *)
Lemma forOf_up_failed (new : list (NamedMigration Schema)) w tr w' r err entry :
  Exec env w (forOf new apply_one) tr w' r ->
  entry ∈ tr -> up_failed err entry.2 -> r = inl err.
Proof.
  revert w tr. induction new as [|m new IH]; intros w tr H Hin [Hup Hrej]; cbn in H.
  { apply Exec_Ret_inv in H as (-> & _). by apply elem_of_nil in Hin. }
  apply Exec_await_inv in H as [(e & H & ->)|(tr1 & w1 & [] & tr2 & H1 & H2 & ->)].
  - apply Exec_await_inv in H as [(e' & H & [= <-])|(tr1 & w1 & [] & tr2 & H1 & H2 & ->)].
    + apply Exec_trigger_inv in H as [_ ->].
      apply list_elem_of_singleton in Hin as ->. cbn in Hrej. congruence.
    + apply Exec_trigger_inv in H1 as [_ ->]. apply Exec_trigger_inv in H2 as [_ ->].
      apply elem_of_cons in Hin as [->|Hin]; [done|].
      apply list_elem_of_singleton in Hin as ->. by destruct Hup.
  - apply Exec_await_inv in H1 as [(e' & H & [=])|(tr3 & w3 & [] & tr4 & H3 & H4 & ->)].
    apply Exec_trigger_inv in H3 as [_ ->]. apply Exec_trigger_inv in H4 as [_ ->].
    apply elem_of_cons in Hin as [->|Hin]; [done|].
    apply elem_of_cons in Hin as [->|Hin]; [by destruct Hup|].
    by eapply IH.
Qed.

(** The names the loop inserts, in the order of the inserts, are the names
    of the first migrations of its list. *)
Lemma forOf_inserted (new : list (NamedMigration Schema)) w tr w' r :
  Exec env w (forOf new apply_one) tr w' r ->
  omap inserted_name (events tr) `prefix_of` (name <$> new).
Proof.
  revert w tr. induction new as [|m new IH]; intros w tr H; cbn in H.
  { apply Exec_Ret_inv in H as (-> & _). done. }
  apply Exec_await_inv in H as [(e & H & _)|(tr1 & w1 & [] & tr2 & H1 & H2 & ->)].
  - apply Exec_await_inv in H as [(e' & H & _)|(tr1 & w1 & [] & tr2 & H1 & H2 & ->)].
    + apply Exec_trigger_inv in H as [_ ->]. apply prefix_nil.
    + apply Exec_trigger_inv in H1 as [_ ->]. apply Exec_trigger_inv in H2 as [_ ->].
      cbn. apply prefix_cons, prefix_nil.
  - apply Exec_await_inv in H1 as [(e' & H & [=])|(tr3 & w3 & [] & tr4 & H3 & H4 & ->)].
    apply Exec_trigger_inv in H3 as [_ ->]. apply Exec_trigger_inv in H4 as [_ ->].
    cbn. apply prefix_cons. by eapply IH.
Qed.

(** The forward operations the loop calls are, in the order of the calls,
    those of the first migrations of its list. *)
Lemma forOf_called (new : list (NamedMigration Schema)) w tr w' r :
  Exec env w (forOf new apply_one) tr w' r ->
  omap called_up (events tr) `prefix_of` new.
Proof.
  revert w tr. induction new as [|m new IH]; intros w tr H; cbn in H.
  { apply Exec_Ret_inv in H as (-> & _). done. }
  apply Exec_await_inv in H as [(e & H & _)|(tr1 & w1 & [] & tr2 & H1 & H2 & ->)].
  - apply Exec_await_inv in H as [(e' & H & _)|(tr1 & w1 & [] & tr2 & H1 & H2 & ->)].
    + apply Exec_trigger_inv in H as [_ ->]. apply prefix_cons, prefix_nil.
    + apply Exec_trigger_inv in H1 as [_ ->]. apply Exec_trigger_inv in H2 as [_ ->].
      cbn. apply prefix_cons, prefix_nil.
  - apply Exec_await_inv in H1 as [(e' & H & [=])|(tr3 & w3 & [] & tr4 & H3 & H4 & ->)].
    apply Exec_trigger_inv in H3 as [_ ->]. apply Exec_trigger_inv in H4 as [_ ->].
    cbn. apply prefix_cons. by eapply IH.
Qed.

(** A loop that succeeds has applied every migration of its list. *)
Lemma forOf_succeeded (new : list (NamedMigration Schema)) w tr w' :
  Exec env w (forOf new apply_one) tr w' (inr tt) ->
  events tr = new ≫= applied.
Proof.
  revert w tr. induction new as [|m new IH]; intros w tr H; cbn in H.
  { apply Exec_Ret_inv in H as (-> & _). done. }
  apply Exec_await_inv in H as [(e & _ & [=])|(tr1 & w1 & [] & tr2 & H1 & H2 & ->)].
  apply Exec_await_inv in H1 as [(e' & H & [=])|(tr3 & w3 & [] & tr4 & H3 & H4 & ->)].
  apply Exec_trigger_inv in H3 as [_ ->]. apply Exec_trigger_inv in H4 as [_ ->].
  unfold events in *. cbn. by erewrite IH.
Qed.

End Run.

(** ** The loop against the database *)

Section Loop.

Context {Schema : Type}.
Implicit Types (db : Db Schema) (m : NamedMigration Schema).

Lemma database_CallUp db m answer db1 :
  database _ (CallUp m) db answer db1 ->
  db1 = with_visible db (nm_up m (visible db)).1 /\ answer = (nm_up m (visible db)).2.
Proof.
  unfold database, graph, db_handler. cbn.
  destruct (nm_up m (visible db)) as [d x]. by intros [= <- <-].
Qed.

Lemma database_InsertMigration db n rows answer db1 :
  migration_rows (visible db) = Some rows ->
  database _ (InsertMigration n) db answer db1 ->
  if bool_decide (n ∈ rows)
  then answer = inl duplicate_key /\ visible db1 = visible db
  else answer = inr tt /\
       migration_rows (visible db1) = Some ({[n]} ∪ rows) /\
       lock_rows (visible db1) = lock_rows (visible db) /\
       schema (visible db1) = schema (visible db) /\
       snapshot db1 = snapshot db.
Proof.
  unfold database, graph, db_handler. cbn. intros ->.
  destruct (bool_decide (n ∈ rows)); by intros [= <- <-].
Qed.

Lemma database_SelectMigrationNames db rows answer db1 :
  migration_rows (visible db) = Some rows ->
  database _ SelectMigrationNames db answer db1 ->
  answer = inr (executed_names rows) /\ db1 = db.
Proof.
  unfold database, graph, db_handler. cbn. intros ->. intros [= <- <-].
  by destruct db.
Qed.

(** The loop, when the forward operations leave the ledger table alone:
    the names it inserts are new, no insert is rejected, and it stops
    early only at a forward operation that is rejected. *)
Lemma loop_database (new : list (NamedMigration Schema)) db tr db' r rows :
  Exec database db (forOf new apply_one) tr db' r ->
  migration_rows (visible db) = Some rows ->
  Forall up_kept_ledger tr ->
  NoDup (name <$> new) ->
  (forall n, n ∈ name <$> new -> n ∉ rows) ->
  Forall insert_fresh tr /\
  exists done rest,
    new = done ++ rest /\
    migration_rows (visible db') = Some (list_to_set (name <$> done) ∪ rows) /\
    match r with
    | inr _ => rest = [] /\ events tr = done ≫= applied
    | inl err =>
        exists m rest',
          rest = m :: rest' /\
          events tr = (done ≫= applied) ++ [obs (CallUp m) (inl err)]
    end.
Proof.
  revert db tr rows.
  induction new as [|m new IH]; intros db tr rows H Hrows Hkept Hnd Hnew; cbn in H.
  { apply Exec_Ret_inv in H as (-> & -> & ->). split; [constructor|].
    exists [], []. cbn. rewrite Hrows. repeat split. f_equal. set_solver. }
  cbn in Hnd. apply NoDup_cons in Hnd as [Hm Hnd].
  assert (name m ∉ rows) as Hfresh by (apply Hnew; left).
  apply Exec_await_inv in H as [(e & H & ->)|(tr1 & db2 & [] & tr2 & H1 & H2 & ->)].
  - apply Exec_await_inv in H as [(e' & H & [= <-])|(tr1 & db1 & [] & tr2 & H1 & H2 & ->)].
    + apply Exec_trigger_inv in H as [Hup ->].
      apply database_CallUp in Hup as [-> Hans].
      apply Forall_cons in Hkept as [Hk _]. specialize (Hk m eq_refl). cbn in Hk.
      split; [by repeat constructor|].
      exists [], (m :: new). cbn. rewrite Hk, Hrows. repeat split; [f_equal; set_solver|].
      by exists m, new.
    + apply Exec_trigger_inv in H1 as [Hup ->]. apply Exec_trigger_inv in H2 as [Hins ->].
      apply database_CallUp in Hup as [-> Hans].
      apply Forall_cons in Hkept as [Hk _]. specialize (Hk m eq_refl). cbn in Hk.
      eapply database_InsertMigration in Hins; [|cbn; by rewrite Hk].
      rewrite bool_decide_eq_false_2 in Hins by done. by destruct Hins as [[=] _].
  - apply Exec_await_inv in H1 as [(e' & H & [=])|(tr3 & db1 & [] & tr4 & H3 & H4 & ->)].
    apply Exec_trigger_inv in H3 as [Hup ->]. apply Exec_trigger_inv in H4 as [Hins ->].
    apply database_CallUp in Hup as [-> Hans].
    apply Forall_cons in Hkept as [Hk Hkept]. apply Forall_cons in Hkept as [_ Hkept].
    specialize (Hk m eq_refl). cbn in Hk.
    eapply database_InsertMigration in Hins; [|cbn; by rewrite Hk].
    rewrite bool_decide_eq_false_2 in Hins by done.
    destruct Hins as (_ & Hrows2 & _).
    destruct (IH db2 tr2 ({[name m]} ∪ rows) H2 Hrows2 Hkept Hnd)
      as (Hfr & done & rest & -> & Hrows' & Hr).
    { intros n Hn. apply not_elem_of_union. split; [|apply Hnew; by right].
      intros ->%elem_of_singleton. done. }
    split.
    + constructor; [by intros n [=]|]. constructor; [|done].
      intros n [= <-]. split; [|done]. unfold ledger. cbn. by rewrite Hk, Hrows.
    + exists (m :: done), rest. split; [done|]. split.
      * rewrite Hrows'. f_equal. cbn. set_solver.
      * destruct r as [err|[]].
        -- destruct Hr as (m' & rest' & -> & Hev). exists m', rest'. split; [done|].
           unfold events in *. cbn. by rewrite Hev.
        -- destruct Hr as [-> Hev]. split; [done|]. unfold events in *. cbn. by rewrite Hev.
Qed.

(** The loop always terminates. *)
Lemma loop_terminates (new : list (NamedMigration Schema)) db :
  exists tr db' r, Exec database db (forOf new apply_one) tr db' r.
Proof.
  revert db. induction new as [|m new IH]; intros db; cbn.
  { exists [], db, (inr tt). apply Exec_Ret. }
  destruct (db_handler _ (CallUp m) db) as [db1 [e|[]]] eqn:Hup.
  { eexists _, _, _. apply Exec_await_rejected, Exec_await_rejected.
    apply Exec_trigger. exact Hup. }
  destruct (db_handler _ (InsertMigration (name m)) db1) as [db2 [e|[]]] eqn:Hins.
  { eexists _, _, _. apply Exec_await_rejected.
    eapply Exec_await_resolved; apply Exec_trigger; [exact Hup|exact Hins]. }
  destruct (IH db2) as (tr & db' & r & H).
  eexists _, _, _. eapply Exec_await_resolved; [|exact H].
  eapply Exec_await_resolved; apply Exec_trigger; [exact Hup|exact Hins].
Qed.

End Loop.

(** ** [runNewMigrations] against the database *)

Section Ledger.

Context {Schema : Type}.
Implicit Types (db : Db Schema) (allMigrations : gmap string (Migration Schema)).
Implicit Types (executed : gset string).

(** The pending names are distinct, ascending, and each sorts after every
    executed name. *)
Lemma pending_sorted allMigrations executed :
  I1 allMigrations executed ->
  StronglySorted JS.lt (pending allMigrations executed) /\
  (forall n e, n ∈ pending allMigrations executed -> e ∈ executed -> JS.lt e n).
Proof.
  intros HI1. destruct (validate_ok _ _ HI1) as (_ & _ & Hnames).
  pose proof (sorted_names_strict allMigrations) as Hs. rewrite Hnames in Hs. split.
  - by apply StronglySorted_app_1_r in Hs.
  - intros n e Hn He. apply (StronglySorted_app_1_elem_of _ _ _ _ _ Hs); [|done].
    by apply elem_of_executed_names.
Qed.

Lemma pending_spec allMigrations executed n :
  n ∈ pending allMigrations executed <->
  is_Some (allMigrations !! n) /\
  match getLast (executed_names executed) with
  | Some last_ => JS.lt last_ n
  | None => True
  end.
Proof.
  unfold pending. destruct (getLast (executed_names executed)) as [last_|].
  - by rewrite list_elem_of_filter, elem_of_sorted_names, (comm and).
  - rewrite elem_of_sorted_names. naive_solver.
Qed.

(** The one execution of [runNewMigrations] under I1, as long as the
    forward operations leave the ledger table alone. *)
Lemma run_database allMigrations db executed tr db' r :
  migration_rows (visible db) = Some executed ->
  I1 allMigrations executed ->
  Exec database db (runNewMigrations allMigrations) tr db' r ->
  Forall up_kept_ledger tr ->
  Forall insert_fresh tr /\
  exists done rest,
    omap (lookup_named allMigrations) (pending allMigrations executed) = done ++ rest /\
    migration_rows (visible db') = Some (list_to_set (name <$> done) ∪ executed) /\
    match r with
    | inr _ =>
        rest = [] /\
        events tr
        = obs SelectMigrationNames (inr (executed_names executed)) :: (done ≫= applied)
    | inl err =>
        exists m rest',
          rest = m :: rest' /\
          events tr
          = obs SelectMigrationNames (inr (executed_names executed))
              :: (done ≫= applied) ++ [obs (CallUp m) (inl err)]
    end.
Proof.
  intros Hrows HI1 H Hkept.
  apply runNewMigrations_exec in H as (answer & db1 & Hsel & H).
  apply (database_SelectMigrationNames _ _ _ _ Hrows) in Hsel as [-> ->].
  destruct (validate_ok _ _ HI1) as (Hval & Hnames & _). rewrite Hval in H.
  destruct H as (tr2 & -> & H). apply Forall_cons in Hkept as [_ Hkept].
  destruct (pending_sorted _ _ HI1) as [Hs Hafter].
  destruct (loop_database _ _ _ _ _ _ H Hrows Hkept) as (Hfresh & done & rest & Hsplit & Hrows' & Hr).
  { rewrite Hnames. by apply strict_NoDup. }
  { rewrite Hnames. intros n Hn Hin. exact (lt_irrefl n (Hafter n n Hn Hin)). }
  split; [constructor; [by intros n [=]|done]|].
  exists done, rest. split; [done|]. split; [done|].
  destruct r as [err|[]].
  - destruct Hr as (m & rest' & -> & Hev). exists m, rest'. split; [done|].
    unfold events in *. cbn. by rewrite Hev.
  - destruct Hr as [-> Hev]. split; [done|]. unfold events in *. cbn. by rewrite Hev.
Qed.

Lemma run_terminates allMigrations db :
  exists tr db' r, Exec database db (runNewMigrations allMigrations) tr db' r.
Proof.
  destruct (db_handler _ SelectMigrationNames db) as [db1 [err|executed]] eqn:Hsel.
  { eexists _, _, _. apply runNewMigrations_exec. by exists (inl err), db1. }
  destruct (validate allMigrations executed) as [err|new] eqn:Hval.
  { eexists _, _, _. apply runNewMigrations_exec. exists (inr executed), db1.
    split; [exact Hsel|]. by rewrite Hval. }
  destruct (loop_terminates new db1) as (tr & db' & r & H).
  eexists _, _, _. apply runNewMigrations_exec. exists (inr executed), db1.
  split; [exact Hsel|]. rewrite Hval. by exists tr.
Qed.

(** What a failed check leaves behind: the query and nothing else. *)
Lemma run_rejected allMigrations db executed err :
  migration_rows (visible db) = Some executed ->
  validate allMigrations (executed_names executed) = inl err ->
  Exec database db (runNewMigrations allMigrations)
    [(db, obs SelectMigrationNames (inr (executed_names executed)))] db (inl err).
Proof.
  intros Hrows Hval. apply runNewMigrations_exec.
  exists (inr (executed_names executed)), db. split.
  - unfold database, graph, db_handler. cbn. rewrite Hrows. by destruct db.
  - by rewrite Hval.
Qed.

End Ledger.

(** ** The claims about [runNewMigrations] *)

Section LedgerClaims.

Context {Schema : Type}.
Implicit Types (db : Db Schema) (allMigrations : gmap string (Migration Schema)).
Implicit Types (executed : gset string).

Lemma msg_distinct a b : msg_missing a ≠ msg_before b.
Proof. unfold msg_missing, msg_before. cbn. discriminate. Qed.

(** What [lookup_named] finds are entries of the set. *)
Lemma lookup_named_from_set allMigrations (names : list string) m :
  m ∈ omap (lookup_named allMigrations) names -> from_set allMigrations m.
Proof.
  intros (n & _ & Hn)%list_elem_of_omap. unfold lookup_named in Hn.
  destruct (allMigrations !! n) as [migration|] eqn:Hmig; [|done].
  injection Hn as <-. by exists migration.
Qed.

(** C1, amended.  Against a database whose ledger satisfies I1,
    [runNewMigrations] has exactly one execution.  The pending migrations
    are the entries of the set, each with the two operations the set holds
    under its name, whose names sort strictly after the last executed name
    (all of them when the ledger is empty), in ascending order of their
    names.  The forward operations that are called are, in the order of
    the calls, those of the first pending migrations.  When the run
    succeeds, it has read the ledger and then gone through all the pending
    migrations, once each, calling the forward operation of each and then
    inserting its name.  It does succeed when none of the forward
    operations is rejected and each leaves the ledger table as it found
    it, and the ledger then ends as the executed names, which are all
    still there, with the pending names added. *)
Theorem pending_applied_in_order allMigrations db executed :
  migration_rows (visible db) = Some executed ->
  I1 allMigrations executed ->
  exists tr db' r new,
    Exec database db (runNewMigrations allMigrations) tr db' r /\
    (forall tr2 db2 r2,
       Exec database db (runNewMigrations allMigrations) tr2 db2 r2 ->
       tr2 = tr /\ db2 = db' /\ r2 = r) /\
    name <$> new = pending allMigrations executed /\
    Forall (from_set allMigrations) new /\
    StronglySorted JS.lt (pending allMigrations executed) /\
    (forall n, n ∈ pending allMigrations executed <->
               is_Some (allMigrations !! n) /\
               match getLast (executed_names executed) with
               | Some last_ => JS.lt last_ n
               | None => True
               end) /\
    omap called_up (events tr) `prefix_of` new /\
    (r = inr tt ->
     events tr
     = obs SelectMigrationNames (inr (executed_names executed)) :: (new ≫= applied)) /\
    (Forall up_resolved tr -> Forall up_kept_ledger tr ->
     r = inr tt /\
     migration_rows (visible db')
     = Some (executed ∪ list_to_set (pending allMigrations executed))).
Proof.
  intros Hrows HI1.
  destruct (run_terminates allMigrations db) as (tr & db' & r & H).
  exists tr, db', r, (omap (lookup_named allMigrations) (pending allMigrations executed)).
  split; [done|]. split.
  { intros tr2 db2 r2 H2.
    destruct (Exec_deterministic _ _ _ _ _ _ _ _ _ H H2) as (-> & -> & ->). done. }
  destruct (validate_ok _ _ HI1) as (Hval & Hnames & _).
  split; [done|]. split.
  { apply Forall_forall. intros m Hm. by eapply lookup_named_from_set. }
  split; [apply (pending_sorted _ _ HI1)|].
  split; [intros n; apply pending_spec|].
  pose proof H as Hexec.
  apply runNewMigrations_exec in Hexec as (answer & db1 & Hsel & Hexec).
  apply (database_SelectMigrationNames _ _ _ _ Hrows) in Hsel as [-> ->].
  rewrite Hval in Hexec. destruct Hexec as (tr2 & -> & Hloop).
  split; [cbn; by eapply forOf_called|]. split.
  { intros ->. unfold events. cbn. f_equal. by eapply forOf_succeeded. }
  intros Hres Hkept.
  destruct (run_database _ _ _ _ _ _ Hrows HI1 H Hkept) as (_ & done & rest & Hsplit & Hrows' & Hr).
  destruct r as [err|[]].
  { exfalso. destruct Hr as (m & rest' & _ & Hev).
    assert (obs (CallUp m) (inl err)
            ∈ events ((db, obs SelectMigrationNames (inr (executed_names executed))) :: tr2))
      as Hin.
    { rewrite Hev. right. apply elem_of_app. right. left. }
    apply list_elem_of_fmap in Hin as (entry & Hentry & Hin).
    rewrite Forall_forall in Hres. specialize (Hres entry Hin).
    unfold up_resolved in Hres. rewrite <- Hentry in Hres. cbn in Hres.
    by specialize (Hres (mk_is_Some _ _ eq_refl)). }
  destruct Hr as [-> Hev]. rewrite app_nil_r in Hsplit. subst done.
  split; [done|]. rewrite Hrows', Hnames. f_equal. set_solver.
Qed.

(** C3.  When the ledger holds a name that the migration set does not
    have, the one execution of [runNewMigrations] reads the ledger and is
    rejected with the error saying that a previously executed migration,
    one of those the set lacks, is missing: no forward operation is called,
    no name is inserted, the database is as it was. *)
Theorem executed_missing_rejected allMigrations db executed x :
  migration_rows (visible db) = Some executed ->
  x ∈ executed ->
  allMigrations !! x = None ->
  exists n,
    n ∈ executed /\ allMigrations !! n = None /\
    Exec database db (runNewMigrations allMigrations)
      [(db, obs SelectMigrationNames (inr (executed_names executed)))] db
      (inl (JS.new_Error (msg_missing n))) /\
    (forall tr db' r,
       Exec database db (runNewMigrations allMigrations) tr db' r ->
       tr = [(db, obs SelectMigrationNames (inr (executed_names executed)))] /\
       db' = db /\ r = inl (JS.new_Error (msg_missing n))).
Proof.
  intros Hrows Hx Hnone.
  destruct (validate_missing _ _ _ Hx Hnone) as (n & Hval & Hn & Hnn).
  exists n. split; [done|]. split; [done|].
  pose proof (run_rejected _ _ _ _ Hrows Hval) as H. split; [done|].
  intros tr db' r H2.
  destruct (Exec_deterministic _ _ _ _ _ _ _ _ _ H H2) as (-> & -> & ->). done.
Qed.

(** C4, amended.  When every name of the ledger is in the migration set
    and the set has a name that is not in the ledger and sorts before the
    last executed name, the one execution of [runNewMigrations] reads the
    ledger and is rejected with the error saying that a new migration, one
    such name, comes alphabetically before the last executed migration;
    this error is none of the errors about a missing migration.  No forward
    operation is called, no name is inserted, the database is as it was. *)
Theorem new_before_last_rejected allMigrations db executed last_ x :
  migration_rows (visible db) = Some executed ->
  (forall n, n ∈ executed -> is_Some (allMigrations !! n)) ->
  getLast (executed_names executed) = Some last_ ->
  is_Some (allMigrations !! x) -> x ∉ executed -> JS.lt x last_ ->
  exists n,
    is_Some (allMigrations !! n) /\ (n ∉ executed) /\ JS.lt n last_ /\
    (forall k, msg_before n ≠ msg_missing k) /\
    Exec database db (runNewMigrations allMigrations)
      [(db, obs SelectMigrationNames (inr (executed_names executed)))] db
      (inl (JS.new_Error (msg_before n))) /\
    (forall tr db' r,
       Exec database db (runNewMigrations allMigrations) tr db' r ->
       tr = [(db, obs SelectMigrationNames (inr (executed_names executed)))] /\
       db' = db /\ r = inl (JS.new_Error (msg_before n))).
Proof.
  intros Hrows Hsub Hlast Hx Hnot Hlt.
  destruct (validate_before _ _ _ _ Hsub Hlast Hx Hnot Hlt) as (n & Hval & Hn & Hnn & Hnlt).
  exists n. do 3 (split; [done|]). split; [intros k Heq; by apply (msg_distinct k n)|].
  pose proof (run_rejected _ _ _ _ Hrows Hval) as H. split; [done|].
  intros tr db' r H2.
  destruct (Exec_deterministic _ _ _ _ _ _ _ _ _ H H2) as (-> & -> & ->). done.
Qed.

(** C5, amended.  I1 is preserved by the forward operations that keep
    out of the ledger table: after a successful execution of
    [runNewMigrations] from a ledger that satisfies I1, in which every
    forward operation that was called left the ledger table as it found
    it, the ledger satisfies I1 again; its names are the whole sorted name
    sequence of the migration set. *)
Theorem I1_preserved allMigrations db executed tr db' :
  migration_rows (visible db) = Some executed ->
  I1 allMigrations executed ->
  Exec database db (runNewMigrations allMigrations) tr db' (inr tt) ->
  Forall up_kept_ledger tr ->
  I1 allMigrations (ledger db') /\
  executed_names (ledger db') = sorted_names allMigrations.
Proof.
  intros Hrows HI1 H Hkept.
  destruct (run_database _ _ _ _ _ _ Hrows HI1 H Hkept)
    as (_ & done & rest & Hsplit & Hrows' & -> & _).
  rewrite app_nil_r in Hsplit. subst done.
  destruct (validate_ok _ _ HI1) as (_ & Hnames & Hall). rewrite Hnames in Hrows'.
  assert (executed_names (ledger db') = sorted_names allMigrations) as Heq.
  { apply sort_unique; [apply executed_names_strict|apply sorted_names_strict|].
    intros n. rewrite elem_of_executed_names. unfold ledger. rewrite Hrows'. cbn.
    rewrite Hall, elem_of_app, elem_of_executed_names. set_solver. }
  split; [|done]. unfold I1. by rewrite Heq.
Qed.

(** C8, amended.  When the ledger satisfies I1 at the start, the names
    [runNewMigrations] inserts are, in the order of the inserts, the first
    of the pending names, which are pairwise distinct and each sort
    strictly after every name of the ledger.  So, in an execution in which
    every forward operation that was called left the ledger table as it
    found it, every name is absent from the ledger at the moment it is
    inserted, and no insert is rejected. *)
Theorem inserts_are_fresh allMigrations db executed tr db' r :
  migration_rows (visible db) = Some executed ->
  I1 allMigrations executed ->
  Exec database db (runNewMigrations allMigrations) tr db' r ->
  omap inserted_name (events tr) `prefix_of` pending allMigrations executed /\
  NoDup (pending allMigrations executed) /\
  (forall n e, n ∈ pending allMigrations executed -> e ∈ executed -> JS.lt e n) /\
  (Forall up_kept_ledger tr -> Forall insert_fresh tr).
Proof.
  intros Hrows HI1 H.
  destruct (pending_sorted _ _ HI1) as [Hs Hafter].
  destruct (validate_ok _ _ HI1) as (Hval & Hnames & _).
  split; [|split; [by apply strict_NoDup|split; [done|]]].
  - apply runNewMigrations_exec in H as (answer & db1 & Hsel & H).
    apply (database_SelectMigrationNames _ _ _ _ Hrows) in Hsel as [-> ->].
    rewrite Hval in H. destruct H as (tr2 & -> & H).
    rewrite <- Hnames. cbn. by eapply forOf_inserted.
  - intros Hkept. by destruct (run_database _ _ _ _ _ _ Hrows HI1 H Hkept).
Qed.

End LedgerClaims.

(** ** [doMigrateToLatest] against the database *)

Section Transaction.

Context {Schema : Type}.
Implicit Types (db : Db Schema) (allMigrations : gmap string (Migration Schema)).

#[local] Instance bootstrap_only_refl : Reflexive (@bootstrap_only Schema).
Proof. by intros db. Qed.

#[local] Instance bootstrap_only_trans : Transitive (@bootstrap_only Schema).
Proof.
  intros db1 db2 db3 (H1 & H2 & H3 & H4) (H1' & H2' & H3' & H4').
  repeat split; [congruence..|]. intros Hb. rewrite H4' by (by rewrite H4). auto.
Qed.

Lemma bootstrap_event_only {X} (e : dbE Schema X) db :
  bootstrap_event (obs e (db_handler X e db).2) ->
  bootstrap_only db (db_handler X e db).1.
Proof.
  destruct db as [d s]. unfold db_handler, bootstrap_only, bootstrapped, ledger.
  destruct e; cbn; try done; intros Hev.
  - by destruct (String.eqb _ _); [|destruct (String.eqb _ _)].
  - destruct (String.eqb t MIGRATION_TABLE);
      [destruct (migration_rows d) eqn:Hm
      |destruct (String.eqb t MIGRATION_LOCK_TABLE); [destruct (lock_rows d) eqn:Hl|]];
      cbn; rewrite ?Hm; repeat split; try done.
    + by intros [[? [=]] _].
    + by intros (_ & ? & [=] & _).
  - by destruct (lock_rows d).
  - subst id0. destruct (lock_rows d) as [rows|] eqn:Hl; [|done].
    destruct (rows !! MIGRATION_LOCK_ID) eqn:Hrow; cbn; repeat split; try done.
    intros (_ & rows' & [= <-] & [? ?]). congruence.
Qed.

Lemma bootstrap_database db tr db' r :
  Exec database db (@ensureMigrationTablesExists Schema) tr db' r ->
  bootstrap_only db db'.
Proof.
  intros H.
  eapply (Exec_preserves db_handler bootstrap_event bootstrap_only); [|exact H|].
  - intros X e w0. apply bootstrap_event_only.
  - by eapply bootstrap_within.
Qed.

(** Outside the statements of a transaction the snapshot stays. *)
Lemma snapshot_kept {R} db (t : itree (dbE Schema) R) tr db' r :
  Exec database db t tr db' r ->
  Forall (fun entry => kind entry.2 ≠ of_transaction) tr ->
  snapshot db' = snapshot db.
Proof.
  intros H Hk. symmetry.
  set (same := fun w w' : Db Schema => snapshot w = snapshot w').
  assert (Reflexive same) by (by intros ?).
  assert (Transitive same) by (intros ? ? ?; unfold same; congruence).
  eapply (Exec_preserves db_handler (fun o => kind o ≠ of_transaction) same);
    [|exact H|exact Hk].
  intros X e w0. unfold same, db_handler.
  destruct e; cbn; try done; intros _; by repeat case_match.
Qed.

Lemma up_is_migration (o : Obs (dbE Schema)) :
  is_Some (called_up o) -> kind o = of_migration.
Proof. destruct o as [X e x]. destruct e; cbn; by intros [? ?]. Qed.

Lemma bootstrap_is_bootstrap (o : Obs (dbE Schema)) :
  bootstrap_event o -> kind o = of_bootstrap.
Proof. destruct o as [X e x]. by destruct e. Qed.

(** In any environment, a rejected forward operation ends
    [runNewMigrations] with its error. *)
Lemma run_up_failed {W} (env : Env (dbE Schema) W) allMigrations w tr w' r err entry :
  Exec env w (runNewMigrations allMigrations) tr w' r ->
  entry ∈ tr -> up_failed err entry.2 -> r = inl err.
Proof.
  intros H Hin Hup. apply runNewMigrations_exec in H as (answer & w1 & _ & H).
  assert (entry ≠ (w, obs SelectMigrationNames answer)) as Hne.
  { intros ->. destruct Hup as [[? Hup] _]. done. }
  destruct answer as [e|executed].
  { destruct H as (-> & _). by apply list_elem_of_singleton in Hin. }
  destruct (validate allMigrations executed) as [e|new].
  { destruct H as (-> & _). by apply list_elem_of_singleton in Hin. }
  destruct H as (tr2 & -> & H). apply elem_of_cons in Hin as [?|Hin]; [done|].
  by eapply forOf_up_failed.
Qed.

Lemma locked_run_within allMigrations :
  Within (fun o => kind o ≠ of_transaction) (locked_run allMigrations).
Proof.
  unfold locked_run. apply Within_await.
  { eapply Within_mono; [|apply acquireLock_within]. by intros o ->. }
  intros _. apply Within_await.
  { eapply Within_mono; [|apply runNewMigrations_within]. by intros o [-> | ->]. }
  intros _. eapply Within_mono; [|apply releaseLock_within]. by intros o ->.
Qed.

Lemma locked_run_up_failed allMigrations db tr db' r err entry :
  Exec database db (locked_run allMigrations) tr db' r ->
  entry ∈ tr -> up_failed err entry.2 -> r = inl err.
Proof.
  intros H Hin Hup. pose proof (up_is_migration _ (proj1 Hup)) as Hkind.
  unfold locked_run in H.
  apply Exec_await_inv in H as [(e & H & ->)|(tr1 & db1 & [] & tr2 & H1 & H2 & ->)].
  { apply acquireLock_within in H. rewrite Forall_forall in H.
    specialize (H entry Hin). cbn in H. congruence. }
  apply elem_of_app in Hin as [Hin|Hin].
  { apply acquireLock_within in H1. rewrite Forall_forall in H1.
    specialize (H1 entry Hin). cbn in H1. congruence. }
  apply Exec_await_inv in H2 as [(e & H & ->)|(tr3 & db3 & [] & tr4 & H3 & H4 & ->)].
  { by eapply run_up_failed. }
  apply elem_of_app in Hin as [Hin|Hin].
  { by pose proof (run_up_failed _ _ _ _ _ _ _ _ H3 Hin Hup). }
  apply releaseLock_within in H4. rewrite Forall_forall in H4.
  specialize (H4 entry Hin). cbn in H4. congruence.
Qed.

(** C2.  When the forward operation of a migration is rejected during
    [doMigrateToLatest], the whole call is rejected with the error of that
    operation, and the transaction around the lock and the loop is rolled
    back: the database holds what it held when the bootstrap of the
    tracking tables was done.  No name of the batch is in the ledger, the
    target schema is as it was before the call, and when the tracking
    tables were already in place the database is exactly as it was. *)
Theorem failed_up_rolls_back allMigrations db tr db' r err entry :
  Exec database db (doMigrateToLatest allMigrations) tr db' r ->
  entry ∈ tr -> up_failed err entry.2 ->
  r = inl err /\
  (exists tr0 db0 tr1,
     Exec database db ensureMigrationTablesExists tr0 db0 (inr tt) /\
     tr = tr0 ++ tr1 /\
     visible db' = visible db0) /\
  ledger db' = ledger db /\
  schema (visible db') = schema (visible db) /\
  (bootstrapped (visible db) -> visible db' = visible db).
Proof.
  intros H Hin Hup. pose proof (up_is_migration _ (proj1 Hup)) as Hkind.
  unfold doMigrateToLatest in H. fold (locked_run allMigrations) in H.
  apply Exec_await_inv in H as [(e & H & ->)|(tr0 & db0 & [] & tr1 & Hboot & H & ->)].
  { apply bootstrap_within in H. rewrite Forall_forall in H.
    specialize (H entry Hin). apply bootstrap_is_bootstrap in H. congruence. }
  apply elem_of_app in Hin as [Hin|Hin].
  { apply bootstrap_within in Hboot. rewrite Forall_forall in Hboot.
    specialize (Hboot entry Hin). apply bootstrap_is_bootstrap in Hboot. congruence. }
  unfold transaction in H.
  apply Exec_await_inv in H as [(e & H & ->)|(trb & db1 & [] & tr2 & Hbegin & H & ->)].
  { apply Exec_trigger_inv in H as [H _]. by injection H. }
  apply Exec_trigger_inv in Hbegin as [Hbegin ->].
  injection Hbegin as <-. cbn in H, Hin.
  apply elem_of_cons in Hin as [->|Hin]; [done|].
  apply Exec_bind_inv in H as (trc & dbc & outcome & tre & Hrun & Hend & ->).
  pose proof (snapshot_kept _ _ _ _ _ Hrun (locked_run_within _ _ _ _ _ _ _ Hrun)) as Hsnap.
  cbn in Hsnap.
  assert (outcome = inl err /\ entry ∈ trc) as [-> _].
  { apply elem_of_app in Hin as [Hin|Hin].
    - split; [|done]. by eapply locked_run_up_failed.
    - exfalso. destruct outcome as [e|[]].
      + apply Exec_bind_inv in Hend as (tr3 & db3 & [] & tr4 & H3 & H4 & ->).
        apply Exec_trigger_inv in H3 as [_ ->].
        apply Exec_Ret_inv in H4 as (-> & _).
        apply list_elem_of_singleton in Hin as ->. done.
      + apply Exec_await_inv in Hend as [(e & H & _)|(tr3 & db3 & [] & tr4 & H3 & H4 & ->)].
        * apply Exec_trigger_inv in H as [_ ->].
          apply list_elem_of_singleton in Hin as ->. done.
        * apply Exec_trigger_inv in H3 as [_ ->].
          apply Exec_Ret_inv in H4 as (-> & _).
          apply list_elem_of_singleton in Hin as ->. done. }
  apply Exec_bind_inv in Hend as (tr3 & db3 & [] & tr4 & H3 & H4 & ->).
  apply Exec_trigger_inv in H3 as [Hroll ->].
  apply Exec_Ret_inv in H4 as (-> & -> & ->).
  injection Hroll as <-. cbn. rewrite Hsnap. cbn.
  destruct (bootstrap_database _ _ _ _ Hboot) as (Hschema & Hledger & _ & Hsame).
  split; [done|]. split; [by exists tr0, db0, ((db0, obs Begin (inr tt)) :: trc ++ [(dbc, obs Rollback tt)])|].
  split; [done|]. split; [done|]. intros Hb. by rewrite Hsame.
Qed.

End Transaction.

(** ** Strings *)

Section Strings.

Lemma append_nil b : "" +:+ b = b.
Proof. reflexivity. Qed.

Lemma append_cons c a b : String c a +:+ b = String c (a +:+ b).
Proof. reflexivity. Qed.

Lemma length_append a b : String.length (a +:+ b) = (String.length a + String.length b)%nat.
Proof.
  induction a as [|c a IH]; [done|]. rewrite append_cons. simpl. by f_equal.
Qed.

Lemma substring_all b : String.substring 0 (String.length b) b = b.
Proof. induction b as [|c b IH]; simpl; [done|]. by f_equal. Qed.

Lemma substring_0_append a b : String.substring 0 (String.length a) (a +:+ b) = a.
Proof.
  induction a as [|c a IH]; [by destruct b|]. rewrite append_cons. simpl. by f_equal.
Qed.

Lemma substring_skip_append a b m :
  String.substring (String.length a) m (a +:+ b) = String.substring 0 m b.
Proof. induction a as [|c a IH]; [done|]. rewrite append_cons. simpl. exact IH. Qed.

Lemma substring_split s n :
  (n <= String.length s)%nat ->
  String.substring 0 n s +:+ String.substring n (String.length s - n) s = s.
Proof.
  revert n. induction s as [|c s IH]; intros [|n] Hn; simpl in *; try done; try lia.
  - rewrite append_nil. f_equal. apply substring_all.
  - rewrite append_cons. f_equal. apply IH. lia.
Qed.

Lemma endsWith_append x suffix : JS.endsWith (x +:+ suffix) suffix = true.
Proof.
  unfold JS.endsWith. rewrite length_append.
  replace (String.length x + String.length suffix - String.length suffix)%nat
    with (String.length x) by lia.
  rewrite substring_skip_append, substring_all, String.eqb_refl.
  rewrite andb_true_r. apply Nat.leb_le. lia.
Qed.

Lemma endsWith_inv s suffix :
  JS.endsWith s suffix = true ->
  s = String.substring 0 (String.length s - String.length suffix) s +:+ suffix.
Proof.
  unfold JS.endsWith. intros [Hle Heq]%andb_true_iff.
  apply Nat.leb_le in Hle. apply String.eqb_eq in Heq.
  rewrite <- (substring_split s (String.length s - String.length suffix)) at 1 by lia.
  f_equal.
  replace (String.length s - (String.length s - String.length suffix))%nat
    with (String.length suffix) by lia.
  exact Heq.
Qed.

Lemma append_assoc a b c : (a +:+ b) +:+ c = a +:+ (b +:+ c).
Proof. induction a as [|x a IH]; [done|]. rewrite !append_cons. by f_equal. Qed.

Lemma append_cancel a b suffix : a +:+ suffix = b +:+ suffix -> a = b.
Proof.
  intros Heq. assert (String.length a = String.length b) as Hlen.
  { apply (f_equal String.length) in Heq. rewrite !length_append in Heq. lia. }
  rewrite <- (substring_0_append a suffix), Heq, Hlen. apply substring_0_append.
Qed.

End Strings.

(** ** The loader *)

Section Loader.

Context {Schema : Type}.
Implicit Types (migrations : gmap string (Migration Schema)) (mods : list (@Loaded Schema)).

Lemma stem_append x ext : String.length ext = 3%nat -> stem (x +:+ ext) = x.
Proof.
  intros Hext. unfold stem, JS.substring0. rewrite length_append, Hext.
  replace (Z.to_nat (Z.of_nat (String.length x + 3) - 3)) with (String.length x) by lia.
  apply substring_0_append.
Qed.

Lemma endsWith_stem file ext :
  String.length ext = 3%nat -> JS.endsWith file ext = true -> file = stem file +:+ ext.
Proof.
  intros Hext Hends. apply endsWith_inv in Hends. rewrite Hext in Hends.
  unfold stem, JS.substring0.
  replace (Z.to_nat (Z.of_nat (String.length file) - 3)) with (String.length file - 3)%nat
    by lia.
  exact Hends.
Qed.

Lemma eligible_inv file :
  eligible file = true -> file = stem file +:+ ".js" \/ file = stem file +:+ ".ts".
Proof.
  unfold eligible. intros [[H|H]%orb_true_iff _]%andb_true_iff.
  - left. by apply endsWith_stem.
  - right. by apply endsWith_stem.
Qed.

Lemma endsWith_unique s a b :
  String.length a = String.length b ->
  JS.endsWith s a = true -> JS.endsWith s b = true -> a = b.
Proof.
  unfold JS.endsWith. intros Hlen [_ Ha]%andb_true_iff [_ Hb]%andb_true_iff.
  apply String.eqb_eq in Ha, Hb. rewrite <- Hlen in Hb. congruence.
Qed.

Lemma eligible_js x : eligible (x +:+ ".js") = true.
Proof.
  unfold eligible. rewrite endsWith_append. cbn.
  destruct (JS.endsWith (x +:+ ".js") ".d.ts") eqn:Hd; [|done]. exfalso.
  apply endsWith_inv in Hd. revert Hd.
  generalize (String.substring 0 (String.length (x +:+ ".js") - String.length ".d.ts")
                (x +:+ ".js")).
  intros p Hp. change ".d.ts" with (".d" +:+ ".ts") in Hp. rewrite <- append_assoc in Hp.
  assert (".js" = ".ts") as Habs; [|done].
  apply (endsWith_unique (x +:+ ".js")); [done|apply endsWith_append|].
  rewrite Hp. apply endsWith_append.
Qed.

Lemma eligible_ts x : JS.endsWith x ".d" = false -> eligible (x +:+ ".ts") = true.
Proof.
  intros Hx. unfold eligible. rewrite endsWith_append, orb_true_r. cbn.
  destruct (JS.endsWith (x +:+ ".ts") ".d.ts") eqn:Hd; [|done]. exfalso.
  apply endsWith_inv in Hd. revert Hd.
  generalize (String.substring 0 (String.length (x +:+ ".ts") - String.length ".d.ts")
                (x +:+ ".ts")).
  intros p Hp. change ".d.ts" with (".d" +:+ ".ts") in Hp. rewrite <- append_assoc in Hp.
  apply append_cancel in Hp. rewrite Hp, endsWith_append in Hx. done.
Qed.

Lemma isMigration_spec (obj : Module Schema) :
  isMigration obj = true <->
  exists f g, exp_up obj = js_function f /\ exp_down obj = js_function g.
Proof.
  unfold isMigration, isFunction. destruct obj as [[|f|v] [|g|v']]; cbn; naive_solver.
Qed.

(** The migration stored under a name is the one of the last file read
    that has this name and holds a migration. *)
Lemma collect_lookup migrations mods n :
  collect migrations mods !! n
  = match last (filter (fun loaded => isMigration loaded.2 = true /\ stem loaded.1 = n) mods) with
    | Some loaded => Some (asMigration loaded.2)
    | None => migrations !! n
    end.
Proof.
  induction mods as [|loaded mods IH] using rev_ind; [done|].
  unfold collect in *. rewrite foldl_snoc, filter_app, filter_cons, filter_nil.
  unfold store at 1. case_decide as Hp.
  - destruct Hp as [-> <-]. by rewrite last_snoc, lookup_insert_eq.
  - rewrite app_nil_r. destruct (isMigration loaded.2) eqn:Hm; [|exact IH].
    rewrite lookup_insert_ne; [exact IH|naive_solver].
Qed.

(** As long as the prototype is [Object.prototype], a name other than
    [__proto__] is stored without a word from the environment. *)
Lemma assign_ordinary migrations key (obj : Module Schema) :
  key ≠ "__proto__" ->
  assign migrations None key obj = resolve (<[key := asMigration obj]> migrations, None).
Proof.
  intros Hkey. unfold assign. destruct (migrations !! key); [done|].
  by destruct (String.eqb_spec key "__proto__").
Qed.

(** The name [__proto__] is not stored: the module becomes the prototype. *)
Lemma assign_proto migrations (obj : Module Schema) :
  migrations !! "__proto__" = None ->
  assign migrations None "__proto__" obj = resolve (migrations, Some obj).
Proof. intros Hnone. unfold assign. by rewrite Hnone. Qed.

Lemma assign_imports_nothing {W} (env : Env (fsE Schema) W) migrations prototype key obj
    w tr w' r :
  Exec env w (assign migrations prototype key obj) tr w' r ->
  omap imported_module (events tr) = [].
Proof.
  unfold assign. intros H.
  destruct (migrations !! key) as [old|].
  { by apply Exec_Ret_inv in H as (-> & _). }
  destruct prototype as [proto|].
  2: { destruct (String.eqb key "__proto__"); by apply Exec_Ret_inv in H as (-> & _). }
  apply Exec_await_inv in H as [(err & H & ->)|(tr1 & w1 & assigned & tr2 & H1 & H2 & ->)].
  { by apply Exec_trigger_inv in H as [_ ->]. }
  apply Exec_trigger_inv in H1 as [_ ->].
  destruct assigned; by apply Exec_Ret_inv in H2 as (-> & _).
Qed.

Lemma events_app_fs {W} (tr1 tr2 : Trace (fsE Schema) W) :
  events (tr1 ++ tr2) = events tr1 ++ events tr2.
Proof. unfold events. apply fmap_app. Qed.

(** Whatever becomes of the assignments, the files imported are the
    eligible files of the listing, in its order: all of them when the
    loop completes, the first of them when it does not. *)
Lemma readFiles_imports {W} (env : Env (fsE Schema) W) dir files migrations prototype
    w tr w' r :
  Exec env w (readFiles dir files migrations prototype) tr w' r ->
  let mods := omap imported_module (events tr) in
  mods.*1 `prefix_of` filter (fun file => eligible file = true) files /\
  (forall result, r = inr result -> mods.*1 = filter (fun file => eligible file = true) files).
Proof.
  cbn zeta. revert migrations prototype w tr.
  induction files as [|file files IH]; intros migrations prototype w tr H.
  { apply Exec_Ret_inv in H as (-> & -> & ->). done. }
  cbn [readFiles] in H. rewrite filter_cons.
  change ((JS.endsWith file ".js" || JS.endsWith file ".ts")
          && negb (JS.endsWith file ".d.ts")) with (eligible file) in H.
  destruct (eligible file) eqn:Hel; [|rewrite decide_False by done; by apply IH in H].
  rewrite decide_True by done.
  apply Exec_await_inv in H as [(err & H & ->)|(tr1 & w1 & obj & tr2 & H1 & H2 & ->)].
  { apply Exec_trigger_inv in H as [_ ->]. cbn. split; [apply prefix_nil|done]. }
  apply Exec_trigger_inv in H1 as [_ ->].
  assert (exists tr3 tr4 w2 migrations2 prototype2,
            tr2 = tr3 ++ tr4 /\ omap imported_module (events tr3) = [] /\
            (Exec env w2 (readFiles dir files migrations2 prototype2) tr4 w' r
             \/ (tr4 = [] /\ exists err, r = inl err)))
    as (tr3 & tr4 & w2 & migrations2 & prototype2 & -> & Hnone & Hrest).
  { destruct (isMigration obj).
    - apply Exec_await_inv in H2 as [(err & H & ->)|(tr3 & w2 & assigned & tr4 & H3 & H4 & ->)].
      + exists tr2, [], w1, migrations, prototype. rewrite app_nil_r.
        split; [done|]. split; [by eapply assign_imports_nothing|]. right. eauto.
      + exists tr3, tr4, w2, assigned.1, assigned.2.
        split; [done|]. split; [by eapply assign_imports_nothing|]. by left.
    - exists [], tr2, w1, migrations, prototype. split; [done|]. split; [done|]. by left. }
  assert (forall rest : Trace (fsE Schema) W,
            omap imported_module (events ([(w, obs (Import dir file) (inr obj))] ++ rest))
            = (file, obj) :: omap imported_module (events rest)) as -> by done.
  rewrite events_app_fs, omap_app, Hnone. cbn [app fmap list_fmap fst].
  destruct Hrest as [H|(-> & err & ->)].
  - apply IH in H as [Hpre Hall]. split; [by apply prefix_cons|].
    intros result Hr. by rewrite (Hall result Hr).
  - cbn. split; [apply prefix_cons, prefix_nil|done].
Qed.

(** When none of the modules imported is a migration named [__proto__],
    the loop asks for nothing but the imports, and holds in the end what
    [collect] says. *)
Lemma readFiles_inv {W} (env : Env (fsE Schema) W) dir files migrations w tr w' r :
  Exec env w (readFiles dir files migrations None) tr w' r ->
  Forall ordinary (omap imported_module (events tr)) ->
  match r with
  | inr result =>
      exists mods,
        mods.*1 = filter (fun file => eligible file = true) files /\
        events tr = imported dir <$> mods /\
        result = collect migrations mods
  | inl err =>
      exists mods file,
        (mods.*1 ++ [file]) `prefix_of` filter (fun file => eligible file = true) files /\
        events tr = (imported dir <$> mods) ++ [obs (Import dir file) (inl err)]
  end.
Proof.
  revert migrations w tr. induction files as [|file files IH]; intros migrations w tr H Hord.
  { apply Exec_Ret_inv in H as (-> & -> & ->). by exists []. }
  cbn [readFiles] in H. rewrite filter_cons.
  change ((JS.endsWith file ".js" || JS.endsWith file ".ts")
          && negb (JS.endsWith file ".d.ts")) with (eligible file) in H.
  destruct (eligible file) eqn:Hel; [|rewrite decide_False by done; by apply IH in H].
  rewrite decide_True by done.
  apply Exec_await_inv in H as [(err & H & ->)|(tr1 & w1 & obj & tr2 & H1 & H2 & ->)].
  { apply Exec_trigger_inv in H as [_ ->]. exists [], file. split; [|done].
    cbn. apply prefix_cons, prefix_nil. }
  apply Exec_trigger_inv in H1 as [_ ->].
  change (events ([(w, obs (Import dir file) (inr obj))] ++ tr2))
    with (obs (Import dir file) (inr obj) :: events tr2) in Hord |- *.
  cbn [omap list_omap imported_module] in Hord.
  apply Forall_cons in Hord as [Hobj Hord].
  assert (Exec env w1 (readFiles dir files (store migrations (file, obj)) None) tr2 w' r) as H.
  { unfold store. cbn [fst snd]. unfold ordinary in Hobj. cbn [fst snd] in Hobj.
    destruct (isMigration obj); [|done].
    fold (stem file) in H2. rewrite assign_ordinary in H2 by auto.
    apply Exec_await_inv in H2 as [(err & H & ->)|(tr3 & w2 & assigned & tr4 & H3 & H4 & ->)].
    - by apply Exec_Ret_inv in H as (_ & _ & ?).
    - apply Exec_Ret_inv in H3 as (-> & -> & [= ->]). done. }
  apply IH in H; [|done]. destruct r as [err|result].
  - destruct H as (mods & file' & Hpre & Hev). exists ((file, obj) :: mods), file'.
    split; [by apply prefix_cons|]. cbn. by rewrite Hev.
  - destruct H as (mods & Hmods & Hev & ->). exists ((file, obj) :: mods).
    split; [cbn; by rewrite Hmods|]. split; [|done]. cbn. by rewrite Hev.
Qed.

Lemma omap_imported dir mods : omap imported_module (imported dir <$> mods) = mods.
Proof. induction mods as [|[file obj] mods IH]; [done|]. cbn. by rewrite IH. Qed.

Lemma store_ordinary migrations (loaded : @Loaded Schema) :
  ordinary loaded -> migrations !! "__proto__" = None ->
  store migrations loaded !! "__proto__" = None.
Proof.
  unfold ordinary, store. intros Hord Hnone. destruct (isMigration loaded.2); [|done].
  rewrite lookup_insert_ne; [done|auto].
Qed.

Lemma readFiles_run dir files migrations (load : string -> Module Schema) :
  let mods := (fun file => (file, load file)) <$> filter (fun file => eligible file = true) files in
  Forall ordinary mods ->
  Exec anything tt (readFiles dir files migrations None)
    ((fun loaded => (tt, imported dir loaded)) <$> mods) tt (inr (collect migrations mods)).
Proof.
  cbn zeta. revert migrations. induction files as [|file files IH]; intros migrations Hord.
  { apply Exec_Ret. }
  cbn [readFiles]. rewrite filter_cons in Hord |- *.
  change ((JS.endsWith file ".js" || JS.endsWith file ".ts")
          && negb (JS.endsWith file ".d.ts")) with (eligible file).
  destruct (eligible file) eqn:Hel; [|rewrite decide_False in Hord |- * by done; by apply IH].
  rewrite decide_True in Hord |- * by done. cbn [fmap list_fmap] in Hord |- *.
  apply Forall_cons in Hord as [Hobj Hord].
  eapply (Exec_await_resolved anything tt _ _ [_] tt (load file)); [by apply Exec_trigger|].
  specialize (IH (store migrations (file, load file)) Hord).
  unfold store in IH. cbn [fst snd] in IH. unfold collect at 1. cbn [foldl].
  unfold store at 2. cbn [fst snd]. unfold ordinary in Hobj. cbn [fst snd] in Hobj.
  destruct (isMigration (load file)); [|done].
  fold (stem file). rewrite assign_ordinary by auto.
  eapply (Exec_await_resolved anything tt _ _ [] tt); [apply Exec_Ret|]. exact IH.
Qed.

(** An import that is rejected ends the loop with its error. *)
Lemma readFiles_fails dir before file after migrations (load : string -> Module Schema) err :
  let mods := (fun file => (file, load file)) <$> filter (fun file => eligible file = true) before in
  Forall ordinary mods ->
  eligible file = true ->
  Exec anything tt (readFiles dir (before ++ file :: after) migrations None)
    (((fun loaded => (tt, imported dir loaded)) <$> mods)
       ++ [(tt, obs (Import dir file) (inl err))]) tt (inl err).
Proof.
  cbn zeta. intros Hord Hfile. revert migrations Hord.
  induction before as [|first before IH]; intros migrations Hord.
  { cbn [app readFiles filter fmap list_fmap].
    change ((JS.endsWith file ".js" || JS.endsWith file ".ts")
            && negb (JS.endsWith file ".d.ts")) with (eligible file).
    rewrite Hfile. apply Exec_await_rejected. by apply Exec_trigger. }
  rewrite <- app_comm_cons. cbn [readFiles]. rewrite filter_cons in Hord |- *.
  change ((JS.endsWith first ".js" || JS.endsWith first ".ts")
          && negb (JS.endsWith first ".d.ts")) with (eligible first).
  destruct (eligible first) eqn:Hel; [|rewrite decide_False in Hord |- * by done; by apply IH].
  rewrite decide_True in Hord |- * by done. cbn [fmap list_fmap] in Hord |- *.
  apply Forall_cons in Hord as [Hobj Hord].
  rewrite <- app_comm_cons.
  eapply (Exec_await_resolved anything tt _ _ [_] tt (load first)); [by apply Exec_trigger|].
  specialize (IH (store migrations (first, load first)) Hord).
  unfold store in IH. cbn [fst snd] in IH. unfold ordinary in Hobj. cbn [fst snd] in Hobj.
  destruct (isMigration (load first)); [|done].
  fold (stem first). rewrite assign_ordinary by auto.
  eapply (Exec_await_resolved anything tt _ _ [] tt); [apply Exec_Ret|]. exact IH.
Qed.

(** A migration in a file named [__proto__] leaves the own properties as
    they are. *)
Lemma readFiles_proto dir files file migrations (load : string -> Module Schema) :
  let mods := (fun file => (file, load file)) <$> filter (fun file => eligible file = true) files in
  Forall ordinary mods ->
  migrations !! "__proto__" = None ->
  eligible file = true -> stem file = "__proto__" -> isMigration (load file) = true ->
  Exec anything tt (readFiles dir (files ++ [file]) migrations None)
    (((fun loaded => (tt, imported dir loaded)) <$> mods)
       ++ [(tt, imported dir (file, load file))]) tt (inr (collect migrations mods)).
Proof.
  cbn zeta. intros Hord Hnone Hfile Hstem Hmig. revert migrations Hord Hnone.
  induction files as [|first files IH]; intros migrations Hord Hnone.
  { cbn [app readFiles filter fmap list_fmap].
    change ((JS.endsWith file ".js" || JS.endsWith file ".ts")
            && negb (JS.endsWith file ".d.ts")) with (eligible file).
    rewrite Hfile.
    eapply (Exec_await_resolved anything tt _ _ [_] tt (load file) []); [by apply Exec_trigger|].
    rewrite Hmig. fold (stem file). rewrite Hstem, assign_proto by done.
    eapply (Exec_await_resolved anything tt _ _ [] tt _ []); apply Exec_Ret. }
  rewrite <- app_comm_cons. cbn [readFiles]. rewrite filter_cons in Hord |- *.
  change ((JS.endsWith first ".js" || JS.endsWith first ".ts")
          && negb (JS.endsWith first ".d.ts")) with (eligible first).
  destruct (eligible first) eqn:Hel;
    [|rewrite decide_False in Hord |- * by done; by apply IH].
  rewrite decide_True in Hord |- * by done. cbn [fmap list_fmap] in Hord |- *.
  apply Forall_cons in Hord as [Hobj Hord].
  rewrite <- app_comm_cons.
  eapply (Exec_await_resolved anything tt _ _ [_] tt (load first)); [by apply Exec_trigger|].
  specialize (IH (store migrations (first, load first)) Hord (store_ordinary _ _ Hobj Hnone)).
  unfold store in IH. cbn [fst snd] in IH. unfold collect at 1. cbn [foldl].
  unfold store at 2. cbn [fst snd]. unfold ordinary in Hobj. cbn [fst snd] in Hobj.
  destruct (isMigration (load first)); [|done].
  fold (stem first). rewrite assign_ordinary by auto.
  eapply (Exec_await_resolved anything tt _ _ [] tt); [apply Exec_Ret|]. exact IH.
Qed.

(** Without a migration named [__proto__] among the modules, there is none
    under that name. *)
Lemma collect_no_proto migrations mods :
  Forall ordinary mods -> migrations !! "__proto__" = None ->
  collect migrations mods !! "__proto__" = None.
Proof.
  intros Hord. revert migrations. unfold collect.
  induction Hord as [|loaded mods Hobj _ IH]; intros migrations Hnone; [done|].
  cbn [foldl]. apply IH. by apply store_ordinary.
Qed.

End Loader.

(** ** The claims about the lock, the bootstrap and the loader *)

Section OpenClaims.

Context {Schema : Type}.

(** C6.  One attempt at the lock is the conditional update that sets
    [is_locked = 1] where [is_locked = 0] and [id] is the lock id, and it
    succeeds exactly when the update reports one row.  Whatever the
    environment answers, an execution of [acquireLock] that terminates is
    a sequence of failed attempts, each followed by a sleep of 100, and
    then one last attempt: it returns only after an attempt that
    succeeded (and is rejected only when the update itself is).  The
    number of failed attempts is not bounded: any number of them may
    come before the one that succeeds. *)
Theorem acquireLock_polls :
  (forall W (env : Env (dbE Schema) W) w tr w' r,
     Exec env w tryAcquireLock tr w' r ->
     exists answer,
       events tr = [attempt answer] /\
       r = match answer with inl err => inl err | inr n => inr (n =? 1) end) /\
  (forall W (env : Env (dbE Schema) W) w tr w' r,
     Exec env w acquireLock tr w' r ->
     exists ns final,
       Forall (fun n => n ≠ 1) ns /\
       events tr = retries ns ++ [attempt final] /\
       match final with
       | inr n => n = 1 /\ r = inr tt
       | inl err => r = inl err
       end) /\
  (forall ns,
     Forall (fun n => n ≠ 1) ns ->
     exists tr,
       Exec anything tt (@acquireLock Schema) tr tt (inr tt) /\
       events tr = retries ns ++ [attempt (inr 1)]).
Proof.
  split; [|split].
  - intros W env w tr w' r H. apply tryAcquireLock_inv in H as (answer & _ & -> & ->).
    by exists answer.
  - intros W env. apply acquireLock_inv.
  - apply acquireLock_retries.
Qed.

(** C7.  Each of the three steps of the bootstrap (the migration table,
    the lock table, the lock row) first looks for its object and does
    nothing more when it is there.  Otherwise it creates it; when the
    creation is rejected it looks again, and an object that is there now
    makes the step succeed, while one that still is not makes it fail with
    the error of the creation.  (A step also fails when one of its two
    look-ups is rejected.)  Every one of these courses can happen. *)
Theorem bootstrap_race_tolerant :
  bootstrap_step (@ensureMigrationTableExists Schema)
    (GetTableMetadata MIGRATION_TABLE)
    (CreateTableIfNotExists MIGRATION_TABLE migration_table_columns) /\
  bootstrap_step (@ensureMigrationLockTableExists Schema)
    (GetTableMetadata MIGRATION_LOCK_TABLE)
    (CreateTableIfNotExists MIGRATION_LOCK_TABLE lock_table_columns) /\
  bootstrap_step (@ensureLockRowExists Schema)
    (SelectLockRow MIGRATION_LOCK_ID)
    (InsertLockRow MIGRATION_LOCK_ID).
Proof. repeat split; apply ensureExists_step. Qed.

(** C10, amended.  [readMigrationsFromFolder] lists the folder and imports
    files whose names end in [.js] or [.ts] but not in [.d.ts], in the
    order of the listing, and no other file: all of these files when it
    succeeds, the first of them when it fails.  As long as none of the
    modules imported is a migration from a file named [__proto__.js] or
    [__proto__.ts], the listing and the imports are all it asks for; it
    fails with the error of the listing, or of the first import that is
    rejected, after which it reads no other file; a module that exports
    an [up] and a [down] function is stored, with these two functions as
    its operations, under the name of its file without its last three
    characters, and any other module is skipped without error.  So the
    migration found under a name is the one of the last such file with
    that name: [x.js] and [x.ts] have the same name [x], and of two such
    files the one read later takes the place of the other.  A migration in
    a file named [__proto__.js] that is read last is not stored at all:
    the result has the migrations of the other files, and none under the
    name [__proto__]. *)
Theorem loader_contract :
  (forall W (env : Env (fsE Schema) W) w dir tr w' r,
     Exec env w (readMigrationsFromFolder dir) tr w' r ->
     exists listing,
       match listing with
       | inl err => events tr = [obs (Readdir dir) (inl err)] /\ r = inl err
       | inr files =>
           exists (rest : list (Obs (fsE Schema))) (mods : list (@Loaded Schema)),
             events tr = obs (Readdir dir) (inr files) :: rest /\
             omap imported_module rest = mods /\
             mods.*1 `prefix_of` filter (fun file => eligible file = true) files /\
             (forall result,
                r = inr result -> mods.*1 = filter (fun file => eligible file = true) files) /\
             (Forall ordinary mods ->
              match r with
              | inr result => rest = imported dir <$> mods /\ result = collect ∅ mods
              | inl err =>
                  exists file,
                    (mods.*1 ++ [file])
                      `prefix_of` filter (fun file => eligible file = true) files /\
                    rest = (imported dir <$> mods) ++ [obs (Import dir file) (inl err)]
              end)
       end) /\
  (forall dir (files : list string) (load : string -> Module Schema),
     let mods : list (@Loaded Schema) :=
       (fun file => (file, load file)) <$> filter (fun file => eligible file = true) files in
     Forall ordinary mods ->
     exists tr,
       Exec anything tt (readMigrationsFromFolder dir) tr tt (inr (collect ∅ mods)) /\
       events tr = obs (Readdir dir) (inr files) :: (imported dir <$> mods)) /\
  (forall dir (before after : list string) file (load : string -> Module Schema) err,
     let mods : list (@Loaded Schema) :=
       (fun file => (file, load file)) <$> filter (fun file => eligible file = true) before in
     Forall ordinary mods ->
     eligible file = true ->
     exists tr,
       Exec anything tt (readMigrationsFromFolder dir) tr tt (inl err) /\
       events tr = obs (Readdir dir) (inr (before ++ file :: after))
                     :: (imported dir <$> mods) ++ [obs (Import dir file) (inl err)]) /\
  (forall dir (files : list string) (load : string -> Module Schema),
     let mods : list (@Loaded Schema) :=
       (fun file => (file, load file)) <$> filter (fun file => eligible file = true) files in
     Forall ordinary mods ->
     isMigration (load "__proto__.js") = true ->
     collect ∅ mods !! "__proto__" = None /\
     exists tr,
       Exec anything tt (readMigrationsFromFolder dir) tr tt (inr (collect ∅ mods)) /\
       events tr = obs (Readdir dir) (inr (files ++ ["__proto__.js"]))
                     :: (imported dir <$> mods)
                     ++ [imported dir ("__proto__.js", load "__proto__.js")]) /\
  (forall (mods : list (@Loaded Schema)) n,
     collect ∅ mods !! n
     = (fun loaded : @Loaded Schema => asMigration loaded.2)
         <$> last (filter (fun loaded => isMigration loaded.2 = true /\ stem loaded.1 = n) mods)) /\
  (forall obj : Module Schema,
     isMigration obj = true <->
     exists f g, exp_up obj = js_function f /\ exp_down obj = js_function g) /\
  (forall (obj : Module Schema) f g,
     exp_up obj = js_function f -> exp_down obj = js_function g ->
     asMigration obj = {| up := f; down := g |}) /\
  (forall file,
     eligible file = true ->
     exists ext, String.length ext = 3%nat /\ file = stem file +:+ ext) /\
  (forall x,
     stem (x +:+ ".js") = x /\ stem (x +:+ ".ts") = x /\
     eligible (x +:+ ".js") = true /\
     (JS.endsWith x ".d" = false -> eligible (x +:+ ".ts") = true)) /\
  (forall x (first second : Module Schema) (mods1 mods2 mods3 : list (@Loaded Schema)),
     isMigration second = true ->
     Forall (fun loaded => stem loaded.1 ≠ x) mods3 ->
     collect ∅ (mods1 ++ (x +:+ ".js", first) :: mods2 ++ (x +:+ ".ts", second) :: mods3) !! x
     = Some (asMigration second)).
Proof.
  split; [|split; [|split; [|split; [|split; [|split; [|split; [|split; [|split]]]]]]]].
  - intros W env w dir tr w' r H. unfold readMigrationsFromFolder in H.
    apply Exec_await_inv in H as [(err & H & ->)|(tr1 & w1 & files & tr2 & H1 & H2 & ->)].
    { apply Exec_trigger_inv in H as [_ ->]. by exists (inl err). }
    apply Exec_trigger_inv in H1 as [_ ->]. exists (inr files).
    exists (events tr2), (omap imported_module (events tr2)).
    split; [done|]. split; [done|].
    destruct (readFiles_imports _ _ _ _ _ _ _ _ _ H2) as [Hpre Hall].
    split; [done|]. split; [done|]. intros Hord.
    apply readFiles_inv in H2; [|done]. destruct r as [err|result].
    + destruct H2 as (mods & file & Hfiles & Hev). exists file.
      rewrite Hev, omap_app, omap_imported. cbn. by rewrite app_nil_r.
    + destruct H2 as (mods & Hmods & Hev & ->). by rewrite Hev, omap_imported.
  - intros dir files load mods Hord.
    exists ((tt, obs (Readdir dir) (inr files))
              :: ((fun loaded => (tt, imported dir loaded)) <$> mods)).
    split.
    + unfold readMigrationsFromFolder.
      eapply (Exec_await_resolved anything tt _ _ [_] tt files); [by apply Exec_trigger|].
      by apply readFiles_run.
    + unfold events. cbn. f_equal. rewrite <- list_fmap_compose. done.
  - intros dir before after file load err mods Hord Hfile.
    exists ((tt, obs (Readdir dir) (inr (before ++ file :: after)))
              :: ((fun loaded => (tt, imported dir loaded)) <$> mods)
              ++ [(tt, obs (Import dir file) (inl err))]).
    split.
    + unfold readMigrationsFromFolder.
      eapply (Exec_await_resolved anything tt _ _ [_] tt (before ++ file :: after));
        [by apply Exec_trigger|].
      by apply readFiles_fails.
    + unfold events. cbn. f_equal. rewrite fmap_app, <- list_fmap_compose. done.
  - intros dir files load mods Hord Hmig.
    split; [by apply collect_no_proto|].
    exists ((tt, obs (Readdir dir) (inr (files ++ ["__proto__.js"])))
              :: ((fun loaded => (tt, imported dir loaded)) <$> mods)
              ++ [(tt, imported dir ("__proto__.js", load "__proto__.js"))]).
    split.
    + unfold readMigrationsFromFolder.
      eapply (Exec_await_resolved anything tt _ _ [_] tt (files ++ ["__proto__.js"]));
        [by apply Exec_trigger|].
      by apply readFiles_proto.
    + unfold events. cbn. f_equal. rewrite fmap_app, <- list_fmap_compose. done.
  - intros mods n. rewrite collect_lookup.
    destruct (last _); [done|]. apply lookup_empty.
  - apply isMigration_spec.
  - intros obj f g Hup Hdown. unfold asMigration. by rewrite Hup, Hdown.
  - intros file [H|H]%eligible_inv; [by exists ".js"|by exists ".ts"].
  - intros x. split; [by apply stem_append|]. split; [by apply stem_append|].
    split; [apply eligible_js|apply eligible_ts].
  - intros x first second mods1 mods2 mods3 Hsecond Hmods3.
    rewrite collect_lookup.
    change (mods1 ++ (x +:+ ".js", first) :: mods2 ++ (x +:+ ".ts", second) :: mods3)
      with (mods1 ++ ((x +:+ ".js", first) :: mods2) ++ (x +:+ ".ts", second) :: mods3).
    rewrite app_assoc, filter_app, filter_cons, decide_True.
    2: { split; [done|]. by apply stem_append. }
    lazymatch goal with
    | |- context [@filter ?A ?B ?F ?P ?D mods3] =>
        assert (@filter A B F P D mods3 = []) as ->
    end.
    { induction Hmods3 as [|loaded mods3 Hne _ IH]; [done|].
      rewrite filter_cons, decide_False; [done|naive_solver]. }
    by rewrite last_snoc.
Qed.

End OpenClaims.

(** ** The scenarios of the specification *)

Example scenario_empty_ledger :
  Sample.outcome (run db_handler 20 (Sample.ready ∅) (runNewMigrations Sample.two))
  = Some (obs SelectMigrationNames (inr [])
            :: applied (named "001_init" (Sample.table "init"))
            ++ applied (named "002_users" (Sample.table "users")),
          ["001_init"; "002_users"], ["users"; "init"], inr tt).
Proof. vm_compute. reflexivity. Qed.

Example scenario_one_executed :
  Sample.outcome (run db_handler 20 (Sample.ready {["001_init"]}) (runNewMigrations Sample.three))
  = Some (obs SelectMigrationNames (inr ["001_init"])
            :: applied (named "002_users" (Sample.table "users"))
            ++ applied (named "003_posts" (Sample.table "posts")),
          ["001_init"; "002_users"; "003_posts"], ["posts"; "users"], inr tt).
Proof. vm_compute. reflexivity. Qed.

Example scenario_executed_missing :
  Sample.outcome (run db_handler 20 (Sample.ready {["001_init"; "002_users"]})
                    (runNewMigrations Sample.only_first))
  = Some ([obs SelectMigrationNames (inr ["001_init"; "002_users"])],
          ["001_init"; "002_users"], [],
          inl (JS.new_Error
                 "corrupted migrations: previously executed migration 002_users is missing")).
Proof. vm_compute. reflexivity. Qed.

Example scenario_new_in_the_past :
  Sample.outcome (run db_handler 20 (Sample.ready {["002_users"]})
                    (runNewMigrations Sample.new_in_the_past))
  = Some ([obs SelectMigrationNames (inr ["002_users"])], ["002_users"], [],
          inl (JS.new_Error (msg_before "001_new"))).
Proof. vm_compute. reflexivity. Qed.

(** A new migration in the past, together with an executed one that is
    gone: the error is the one about the missing migration. *)
Example scenario_both_corruptions :
  Sample.outcome (run db_handler 20 (Sample.ready {["002_users"]})
                    (runNewMigrations Sample.only_new))
  = Some ([obs SelectMigrationNames (inr ["002_users"])], ["002_users"], [],
          inl (JS.new_Error (msg_missing "002_users"))).
Proof. vm_compute. reflexivity. Qed.

(** The whole call on a database without tracking tables, when the second
    forward operation fails: the tables are there, the ledger is empty and
    the target schema is untouched. *)
Example scenario_rollback :
  Sample.outcome (run db_handler 60 Sample.fresh (doMigrateToLatest Sample.second_fails))
  = Some ([ obs (GetTableMetadata MIGRATION_TABLE) (inr None);
            obs (CreateTableIfNotExists MIGRATION_TABLE migration_table_columns) (inr tt);
            obs (GetTableMetadata MIGRATION_LOCK_TABLE) (inr None);
            obs (CreateTableIfNotExists MIGRATION_LOCK_TABLE lock_table_columns) (inr tt);
            obs (SelectLockRow MIGRATION_LOCK_ID) (inr None);
            obs (InsertLockRow MIGRATION_LOCK_ID) (inr tt);
            obs Begin (inr tt);
            attempt (inr 1);
            obs SelectMigrationNames (inr []);
            obs (CallUp (named "001_init" (Sample.table "init"))) (inr tt);
            obs (InsertMigration "001_init") (inr tt);
            obs (CallUp (named "002_users" {| up := Sample.broken "boom";
                                               down := Sample.drop "users" |}))
              (inl (JS.new_Error "boom"));
            obs Rollback tt ],
          [], [], inl (JS.new_Error "boom")).
Proof. vm_compute. reflexivity. Qed.


(** ** Forward operations that behave *)

Section Behaved.

Context {Schema : Type}.
Implicit Types (db : Db Schema) (allMigrations : gmap string (Migration Schema)).

(** The answers in a trace are the answers of the handler. *)
Lemma Exec_answers {E : Type -> Type} {W} (h : Handler E W) {R} w (t : itree E R) tr w' r
    (P : W * Obs E -> Prop) :
  (forall X (e : E X) w0, P (w0, obs e (h X e w0).2)) ->
  Exec (graph h) w t tr w' r -> Forall P tr.
Proof.
  intros HP. unfold Exec.
  induction 1 as [w r|w u tr w' r H IH|w X e k x w1 tr w' r Henv H IH]; [constructor|done|].
  constructor; [|done]. unfold graph in Henv. specialize (HP X e w).
  by rewrite Henv in HP.
Qed.

Lemma elem_of_slice {A} (l : list A) start end_ x : x ∈ JS.slice l start end_ -> x ∈ l.
Proof.
  unfold JS.slice. intros Hx.
  apply (subseteq_drop (Z.to_nat (JS.clamp (Z.of_nat (length l)) start)) l).
  by eapply subseteq_take.
Qed.

Lemma elem_of_sortedMigrations allMigrations m :
  m ∈ sortedMigrations allMigrations ->
  exists n mig, allMigrations !! n = Some mig /\ m = named n mig.
Proof.
  unfold sortedMigrations. intros (n & _ & Hn)%list_elem_of_omap.
  destruct (allMigrations !! n) as [mig|] eqn:Hmig; [|done].
  injection Hn as <-. by exists n, mig.
Qed.

Lemma validate_subset allMigrations executed new m :
  validate allMigrations executed = inr new -> m ∈ new ->
  exists n mig, allMigrations !! n = Some mig /\ m = named n mig.
Proof.
  unfold validate. intros Hval Hm. apply elem_of_sortedMigrations.
  destruct (getLast executed) as [last_|].
  - destruct (_ =? -1); [done|].
    destruct (ensureMigrationsAreNotCorrupted _ _); [done|].
    injection Hval as <-. by eapply elem_of_slice.
  - destruct (ensureMigrationsAreNotCorrupted _ _); [done|]. by injection Hval as <-.
Qed.

(** The forward operations the loop calls are those of its list. *)
Lemma forOf_calls {W} (env : Env (dbE Schema) W) (new : list (NamedMigration Schema))
    w tr w' r entry m :
  Exec env w (forOf new apply_one) tr w' r ->
  entry ∈ tr -> called_up entry.2 = Some m -> m ∈ new.
Proof.
  revert w tr. induction new as [|m0 new IH]; intros w tr H Hin Hm; cbn in H.
  { apply Exec_Ret_inv in H as (-> & _). by apply elem_of_nil in Hin. }
  assert (forall w1 tr1 w2 r1, Exec env w1 (apply_one m0) tr1 w2 r1 -> entry ∈ tr1 -> m = m0)
    as Hbody.
  { intros w1 tr1 w2 r1 H1 Hin1. unfold apply_one in H1.
    apply Exec_await_inv in H1 as [(e & H1 & _)|(tr2 & w3 & [] & tr3 & H2 & H3 & ->)].
    - apply Exec_trigger_inv in H1 as [_ ->].
      apply list_elem_of_singleton in Hin1 as ->. by injection Hm.
    - apply Exec_trigger_inv in H2 as [_ ->]. apply Exec_trigger_inv in H3 as [_ ->].
      apply elem_of_cons in Hin1 as [->|Hin1]; [by injection Hm|].
      apply list_elem_of_singleton in Hin1 as ->. done. }
  apply Exec_await_inv in H as [(e & H & _)|(tr1 & w1 & [] & tr2 & H1 & H2 & ->)].
  - apply elem_of_cons. left. by eapply Hbody.
  - apply elem_of_cons. apply elem_of_app in Hin as [Hin|Hin]; [left; by eapply Hbody|].
    right. by eapply IH.
Qed.

Lemma run_calls {W} (env : Env (dbE Schema) W) allMigrations w tr w' r entry m :
  Exec env w (runNewMigrations allMigrations) tr w' r ->
  entry ∈ tr -> called_up entry.2 = Some m ->
  exists n mig, allMigrations !! n = Some mig /\ m = named n mig.
Proof.
  intros H Hin Hm. apply runNewMigrations_exec in H as (answer & w1 & _ & H).
  destruct answer as [e|executed].
  { destruct H as (-> & _). by apply list_elem_of_singleton in Hin as ->. }
  destruct (validate allMigrations executed) as [e|new] eqn:Hval.
  { destruct H as (-> & _). by apply list_elem_of_singleton in Hin as ->. }
  destruct H as (tr2 & -> & H). apply elem_of_cons in Hin as [->|Hin]; [done|].
  eapply validate_subset; [exact Hval|]. by eapply forOf_calls.
Qed.

(** What the database answers to a forward operation is what the
    operation answers. *)
Lemma up_answers {R} db (t : itree (dbE Schema) R) tr db' r :
  Exec database db t tr db' r ->
  Forall (fun entry : Db Schema * Obs (dbE Schema) =>
            forall m, called_up entry.2 = Some m ->
                      rejection entry.2
                      = match (nm_up m (visible entry.1)).2 with
                        | inl err => Some err
                        | inr _ => None
                        end) tr.
Proof.
  apply Exec_answers. intros X e w0. destruct e; cbn; try discriminate.
  intros m [= <-]. unfold db_handler. cbn.
  by destruct (nm_up migration (visible w0)) as [d [err|[]]].
Qed.

(** When every forward operation of the set succeeds and leaves the ledger
    table alone, so does every one that is called. *)
Lemma behaved_trace allMigrations db tr db' r :
  map_Forall (fun _ mig => succeeds (up mig) /\ keeps_ledger (up mig)) allMigrations ->
  Exec database db (runNewMigrations allMigrations) tr db' r ->
  Forall up_resolved tr /\ Forall up_kept_ledger tr.
Proof.
  intros Hall H.
  assert (forall entry m, entry ∈ tr -> called_up entry.2 = Some m ->
                          succeeds (nm_up m) /\ keeps_ledger (nm_up m)) as Hcalled.
  { intros entry m Hin Hm.
    destruct (run_calls _ _ _ _ _ _ _ _ H Hin Hm) as (n & mig & Hmig & ->).
    exact (Hall n mig Hmig). }
  pose proof (up_answers _ _ _ _ _ H) as Hans.
  rewrite Forall_forall in Hans. split; apply Forall_forall; intros entry Hin.
  - intros [m Hm]. destruct (Hcalled _ _ Hin Hm) as [Hs _].
    rewrite (Hans _ Hin m Hm). by rewrite Hs.
  - intros m Hm. destruct (Hcalled _ _ Hin Hm) as [_ Hk]. apply Hk.
Qed.

(** So, under I1, the execution succeeds. *)
Lemma run_succeeds allMigrations db executed :
  migration_rows (visible db) = Some executed ->
  I1 allMigrations executed ->
  map_Forall (fun _ mig => succeeds (up mig) /\ keeps_ledger (up mig)) allMigrations ->
  exists tr db',
    Exec database db (runNewMigrations allMigrations) tr db' (inr tt) /\
    Forall up_resolved tr /\ Forall up_kept_ledger tr.
Proof.
  intros Hrows HI1 Hall.
  destruct (run_terminates allMigrations db) as (tr & db' & r & H).
  destruct (behaved_trace _ _ _ _ _ Hall H) as [Hres Hkept].
  exists tr, db'. split; [|done].
  destruct (run_database _ _ _ _ _ _ Hrows HI1 H Hkept) as (_ & done & rest & _ & _ & Hr).
  destruct r as [err|[]]; [|done]. exfalso.
  destruct Hr as (m & rest' & _ & Hev).
  assert (obs (CallUp m) (inl err) ∈ events tr) as Hin.
  { rewrite Hev. right. apply elem_of_app. right. left. }
  apply list_elem_of_fmap in Hin as (entry & Hentry & Hin).
  rewrite Forall_forall in Hres. specialize (Hres entry Hin).
  unfold up_resolved in Hres. rewrite <- Hentry in Hres. cbn in Hres.
  by specialize (Hres (mk_is_Some _ _ eq_refl)).
Qed.

End Behaved.

(** * Further properties *)

(** ** Executions of a tree seen through an embedding of its events *)


Section Translate.

Context {E F : Type -> Type} {W : Type} (env : Env F W) (f : forall X, E X -> F X).

Lemma observe_translate {R} (t : itree E R) :
  observe (translate f t) = observe (translateF f (fun u => translate f u) (observe t)).
Proof. reflexivity. Qed.

Lemma Exec_translate {R} w (t : itree E R) tr w' r :
  Exec env w (translate f t) tr w' r <->
  exists tr0,
    Exec (fun X e => env X (f X e)) w t tr0 w' r /\
    tr = (fun entry => (entry.1, retag f entry.2)) <$> tr0.
Proof.
  split.
  - unfold Exec. intros H.
    remember (observe (translate f t)) as ot eqn:Hot. revert t Hot.
    induction H as [w r|w u tr w' r H IH|w X e k x w1 tr w' r Henv H IH]; intros t Hot;
      rewrite observe_translate in Hot;
      destruct (observe t) as [r0|u0|Y e0 k0] eqn:Ht; cbn in Hot;
      try discriminate.
    + injection Hot as <-. exists []. split; [constructor|done].
    + injection Hot as ->. destruct (IH _ eq_refl) as (tr0 & H0 & ->).
      exists tr0. split; [by constructor|done].
    + apply eq_inv_VisF_weak in Hot as [p [He Hk]]. destruct p. cbn in He, Hk. subst.
      destruct (IH _ eq_refl) as (tr0 & H0 & ->).
      exists ((w, obs e0 x) :: tr0). split; [by econstructor|done].
  - intros (tr0 & H & ->). unfold Exec in *.
    remember (observe t) as ot eqn:Hot. revert t Hot.
    induction H as [w r|w u tr w' r H IH|w X e k x w1 tr w' r Henv H IH]; intros t Hot;
      rewrite observe_translate, <- Hot; cbn.
    + constructor.
    + constructor. by apply IH.
    + econstructor; [exact Henv|by apply IH].
Qed.

End Translate.

(** ** The checks, for any answer of the ledger *)


Section Sets.

Lemma elem_of_foldl_Set_add s l x : x ∈ foldl JS.Set_add s l <-> x ∈ s \/ x ∈ l.
Proof.
  revert s. induction l as [|y l IH]; intros s; cbn.
  - rewrite elem_of_nil. naive_solver.
  - rewrite IH. unfold JS.Set_add.
    case_bool_decide; set_solver.
Qed.

Lemma elem_of_Set_new l x : x ∈ JS.Set_new l <-> x ∈ l.
Proof. unfold JS.Set_new. rewrite elem_of_foldl_Set_add, elem_of_nil. naive_solver. Qed.

Lemma find_app_found {A} (p : A -> bool) l1 l2 y :
  List.find p l1 = Some y -> List.find p (l1 ++ l2) = Some y.
Proof. induction l1 as [|x l1 IH]; cbn; [done|]. by destruct (p x). Qed.

Lemma find_app_not_found {A} (p : A -> bool) l1 l2 :
  (forall y, y ∈ l1 -> p y = false) -> List.find p (l1 ++ l2) = List.find p l2.
Proof.
  induction l1 as [|x l1 IH]; intros Hl1; cbn; [done|].
  rewrite (Hl1 x) by left. apply IH. intros y Hy. apply Hl1. by right.
Qed.

Lemma find_foldl_found p s l y :
  List.find p s = Some y -> List.find p (foldl JS.Set_add s l) = Some y.
Proof.
  revert s. induction l as [|x l IH]; intros s Hs; cbn; [done|].
  apply IH. unfold JS.Set_add. case_bool_decide; [done|]. by apply find_app_found.
Qed.

Lemma find_foldl_Set_add p s l :
  (forall y, y ∈ s -> p y = false) ->
  List.find p (foldl JS.Set_add s l) = List.find p l.
Proof.
  revert s. induction l as [|x l IH]; intros s Hs; cbn.
  - by apply find_not_found.
  - unfold JS.Set_add. case_bool_decide as Hx.
    + rewrite (Hs x Hx). by apply IH.
    + destruct (p x) eqn:Hpx.
      * apply find_foldl_found. rewrite find_app_not_found by done. cbn. by rewrite Hpx.
      * apply IH. intros y [Hy|Hy%list_elem_of_singleton]%elem_of_app; [by apply Hs|].
        by subst.
Qed.

(** Going through a set in the order of insertion finds what going through
    the array it was made from finds. *)
Lemma find_Set_new p l : List.find p (JS.Set_new l) = List.find p l.
Proof. apply find_foldl_Set_add. intros y Hy. by apply elem_of_nil in Hy. Qed.

Lemma find_first {A} (p : A -> bool) (l : list A) x :
  List.find p l = Some x ->
  exists pre post, l = pre ++ x :: post /\ p x = true /\ forall y, y ∈ pre -> p y = false.
Proof.
  induction l as [|y l IH]; cbn; [done|]. destruct (p y) eqn:Hy.
  - intros [= ->]. exists [], l. repeat split; [done|]. intros z Hz. by apply elem_of_nil in Hz.
  - intros (pre & post & -> & Hx & Hpre)%IH. exists (y :: pre), post.
    repeat split; [done|]. intros z [->|Hz]%elem_of_cons; auto.
Qed.

Lemma find_nowhere {A} (p : A -> bool) (l : list A) y :
  List.find p l = None -> y ∈ l -> p y = false.
Proof. intros Hfind Hy. apply (find_none _ _ Hfind). by apply list_elem_of_In. Qed.

(** What [ensureMigrationsAreNotCorrupted] answers, for any two arrays. *)
Lemma ensure_verdict (executed old : list string) :
  match ensureMigrationsAreNotCorrupted executed old with
  | inr _ => forall n, n ∈ executed <-> n ∈ old
  | inl err =>
      (exists pre n post,
         executed = pre ++ n :: post /\ (forall k, k ∈ pre -> k ∈ old) /\ (n ∉ old) /\
         err = JS.new_Error (msg_missing n)) \/
      ((forall k, k ∈ executed -> k ∈ old) /\
       exists pre n post,
         old = pre ++ n :: post /\ (forall k, k ∈ pre -> k ∈ executed) /\ (n ∉ executed) /\
         err = JS.new_Error (msg_before n))
  end.
Proof.
  unfold ensureMigrationsAreNotCorrupted, JS.Set_has. rewrite !find_Set_new.
  assert (forall (s : list string) k, negb (bool_decide (k ∈ JS.Set_new s)) = false <-> k ∈ s)
    as Hin.
  { intros s k. rewrite negb_false_iff, bool_decide_eq_true. apply elem_of_Set_new. }
  assert (forall (s : list string) k, negb (bool_decide (k ∈ JS.Set_new s)) = true <-> k ∉ s)
    as Hout.
  { intros s k. rewrite negb_true_iff, bool_decide_eq_false. by rewrite elem_of_Set_new. }
  destruct (List.find _ executed) as [n|] eqn:Hex.
  { left. apply find_first in Hex as (pre & post & -> & Hn & Hpre).
    exists pre, n, post. split; [done|]. split; [|split; [by apply Hout|done]].
    intros k Hk. by apply Hin, Hpre. }
  assert (forall k, k ∈ executed -> k ∈ old) as Hsub.
  { intros k Hk. apply Hin. exact (find_nowhere _ _ _ Hex Hk). }
  destruct (List.find _ old) as [n|] eqn:Hold.
  { right. split; [done|]. apply find_first in Hold as (pre & post & -> & Hn & Hpre).
    exists pre, n, post. split; [done|]. split; [|split; [by apply Hout|done]].
    intros k Hk. by apply Hin, Hpre. }
  intros n. split; [apply Hsub|]. intros Hn. apply Hin. exact (find_nowhere _ _ _ Hold Hn).
Qed.

End Sets.

Section Courses.

Context {Schema : Type}.
Implicit Types (allMigrations : gmap string (Migration Schema)).

Lemma loop_outcome_cons (m : NamedMigration Schema) new evs r :
  loop_outcome new evs r -> loop_outcome (m :: new) (applied m ++ evs) r.
Proof.
  intros [|done m' rest err ->|done m' rest err ->].
  - exact (loop_completed (m :: new)).
  - rewrite app_assoc.
    exact (loop_up_rejected (m :: done ++ m' :: rest) (m :: done) m' rest err eq_refl).
  - rewrite app_assoc.
    exact (loop_insert_rejected (m :: done ++ m' :: rest) (m :: done) m' rest err eq_refl).
Qed.

(** In any environment the loop goes one of the ways of [loop_outcome]. *)
Lemma forOf_courses {W} (env : Env (dbE Schema) W) (new : list (NamedMigration Schema))
    w tr w' r :
  Exec env w (forOf new apply_one) tr w' r -> loop_outcome new (events tr) r.
Proof.
  revert w tr. induction new as [|m new IH]; intros w tr H; cbn in H.
  { apply Exec_Ret_inv in H as (-> & _ & ->). exact (loop_completed []). }
  apply Exec_await_inv in H as [(e & H & ->)|(tr1 & w1 & [] & tr2 & H1 & H2 & ->)].
  - apply Exec_await_inv in H as [(e' & H & [= <-])|(tr1 & w1 & [] & tr2 & H1 & H2 & ->)].
    + apply Exec_trigger_inv in H as [_ ->].
      exact (loop_up_rejected (m :: new) [] m new e eq_refl).
    + apply Exec_trigger_inv in H1 as [_ ->]. apply Exec_trigger_inv in H2 as [_ ->].
      exact (loop_insert_rejected (m :: new) [] m new e eq_refl).
  - apply Exec_await_inv in H1 as [(e' & H & [=])|(tr3 & w3 & [] & tr4 & H3 & H4 & ->)].
    apply Exec_trigger_inv in H3 as [_ ->]. apply Exec_trigger_inv in H4 as [_ ->].
    unfold events. rewrite fmap_app. apply (loop_outcome_cons m). by eapply IH.
Qed.

(** When the checks pass, the migrations handed to the loop are the end of
    the sorted migrations, and the names before them are the names of the
    ledger. *)
Lemma validate_passed allMigrations (executed : list string) new :
  validate allMigrations executed = inr new ->
  exists old,
    sortedMigrations allMigrations = old ++ new /\
    (forall n, n ∈ executed <-> n ∈ name <$> old).
Proof.
  unfold validate. destruct (getLast executed) as [last_|] eqn:Hlast.
  - pose proof (findIndex_ge (name_is (Some last_)) (sortedMigrations allMigrations)) as Hge.
    destruct (Z.eqb_spec (JS.findIndex (name_is (Some last_)) (sortedMigrations allMigrations))
                (-1)) as [|Hne]; [done|].
    set (i := JS.findIndex _ _) in *.
    replace (i + 1) with (Z.of_nat (Z.to_nat (i + 1))) by lia.
    rewrite slice_take, slice_drop.
    pose proof (ensure_verdict executed
                  (name <$> take (Z.to_nat (i + 1)) (sortedMigrations allMigrations))) as Hv.
    destruct (ensureMigrationsAreNotCorrupted _ _) as [err|[]]; [done|].
    intros [= <-]. exists (take (Z.to_nat (i + 1)) (sortedMigrations allMigrations)).
    by rewrite take_drop.
  - pose proof (ensure_verdict executed []) as Hv.
    destruct (ensureMigrationsAreNotCorrupted _ _) as [err|[]]; [done|].
    intros [= <-]. by exists [].
Qed.

(** When a check fails, the error names an executed migration as missing,
    or a migration of the set that was not executed as coming before the
    last executed one. *)
Lemma validate_failed allMigrations (executed : list string) err :
  validate allMigrations executed = inl err ->
  exists n,
    (n ∈ executed /\ err = JS.new_Error (msg_missing n)) \/
    (is_Some (allMigrations !! n) /\ (n ∉ executed) /\ err = JS.new_Error (msg_before n)).
Proof.
  unfold validate. pose proof (getLast_inv executed) as Hinv.
  destruct (getLast executed) as [last_|] eqn:Hlast.
  - destruct Hinv as [pre ->].
    destruct (_ =? -1).
    { intros [= <-]. exists last_. left. split; [|done]. apply elem_of_app. right. left. }
    match goal with
    | |- context [ensureMigrationsAreNotCorrupted ?ex ?old] =>
        pose proof (ensure_verdict ex old) as Hv;
        destruct (ensureMigrationsAreNotCorrupted ex old) as [e|[]]; [|done]
    end.
    intros [= <-].
    destruct Hv as [(p & n & q & Heq & _ & _ & ->)|(_ & p & n & q & Heq & _ & Hn & ->)].
    + exists n. left. split; [|done]. rewrite Heq. apply elem_of_app. right. left.
    + exists n. right. split; [|done].
      apply elem_of_sorted_names. rewrite <- sortedMigrations_names.
      assert (n ∈ name <$> JS.slice (sortedMigrations allMigrations) 0
                (Some (JS.findIndex (name_is (Some last_)) (sortedMigrations allMigrations) + 1)))
        as Hin by (rewrite Heq; apply elem_of_app; right; left).
      apply list_elem_of_fmap in Hin as (m & -> & Hm).
      apply list_elem_of_fmap. exists m. split; [done|]. by eapply elem_of_slice.
  - subst executed. cbn. done.
Qed.

End Courses.

(** ** The ways a call may go, in any environment *)


Section Call.

Context {Schema : Type} {W : Type} (env : Env (dbE Schema) W).
Implicit Types (allMigrations : gmap string (Migration Schema)).

Lemma releaseLock_inv w tr w' r :
  Exec env w (@releaseLock Schema) tr w' r ->
  exists answer,
    env _ (UpdateLock 0 None MIGRATION_LOCK_ID) w answer w' /\
    tr = [(w, release answer)] /\
    r = match answer with inl err => inl err | inr _ => inr tt end.
Proof.
  unfold releaseLock. intros H.
  apply Exec_await_inv in H as [(err & H & ->)|(tr1 & w1 & n & tr2 & H1 & H2 & ->)].
  - apply Exec_trigger_inv in H as [Henv ->]. by exists (inl err).
  - apply Exec_trigger_inv in H1 as [Henv ->].
    apply Exec_Ret_inv in H2 as (-> & -> & ->). by exists (inr n).
Qed.

Lemma transaction_inv {A} (callback : itree (dbE Schema) (Result A)) w tr w' r :
  Exec env w (transaction callback) tr w' r ->
  (exists err,
     env _ Begin w (inl err) w' /\ tr = [(w, obs Begin (inl err))] /\ r = inl err) \/
  exists w1 trc wc outcome,
    env _ Begin w (inr tt) w1 /\
    Exec env w1 callback trc wc outcome /\
    match outcome with
    | inl err =>
        env _ Rollback wc tt w' /\
        tr = (w, obs Begin (inr tt)) :: trc ++ [(wc, obs Rollback tt)] /\ r = inl err
    | inr a =>
        exists answer,
          env _ Commit wc answer w' /\
          tr = (w, obs Begin (inr tt)) :: trc ++ [(wc, obs Commit answer)] /\
          r = match answer with inl err => inl err | inr _ => inr a end
    end.
Proof.
  unfold transaction. intros H.
  apply Exec_await_inv in H as [(e & H & ->)|(trb & w1 & [] & tr2 & Hbegin & H & ->)].
  { apply Exec_trigger_inv in H as [Hbegin ->]. left. by exists e. }
  apply Exec_trigger_inv in Hbegin as [Hbegin ->]. right.
  apply Exec_bind_inv in H as (trc & wc & outcome & tre & Hrun & Hend & ->).
  exists w1, trc, wc, outcome. split; [done|]. split; [done|].
  destruct outcome as [err|a].
  - apply Exec_bind_inv in Hend as (tr3 & w3 & [] & tr4 & H3 & H4 & ->).
    apply Exec_trigger_inv in H3 as [Hroll ->].
    apply Exec_Ret_inv in H4 as (-> & -> & ->). done.
  - apply Exec_await_inv in Hend as [(e & H & ->)|(tr3 & w3 & [] & tr4 & H3 & H4 & ->)].
    + apply Exec_trigger_inv in H as [Hc ->]. by exists (inl e).
    + apply Exec_trigger_inv in H3 as [Hc ->].
      apply Exec_Ret_inv in H4 as (-> & -> & ->). by exists (inr tt).
Qed.

Lemma locked_run_inv allMigrations w tr w' r :
  Exec env w (locked_run allMigrations) tr w' r ->
  (exists err, Exec env w acquireLock tr w' (inl err) /\ r = inl err) \/
  exists tra wa trb,
    Exec env w acquireLock tra wa (inr tt) /\ tr = tra ++ trb /\
    ((exists err, Exec env wa (runNewMigrations allMigrations) trb w' (inl err) /\ r = inl err) \/
     exists trr wr trl,
       Exec env wa (runNewMigrations allMigrations) trr wr (inr tt) /\
       trb = trr ++ trl /\ Exec env wr releaseLock trl w' r).
Proof.
  unfold locked_run. intros H.
  apply Exec_await_inv in H as [(e & H & ->)|(tra & wa & [] & trb & Ha & H & ->)].
  { left. by exists e. }
  right. exists tra, wa, trb. split; [done|]. split; [done|].
  apply Exec_await_inv in H as [(e & H & ->)|(trr & wr & [] & trl & Hr & H & ->)].
  { left. by exists e. }
  right. by exists trr, wr, trl.
Qed.

(** The ways a call may go: the bootstrap fails, or it succeeds and the
    transaction around the lock and the loop follows. *)
Lemma doMigrateToLatest_inv allMigrations w tr w' r :
  Exec env w (doMigrateToLatest allMigrations) tr w' r ->
  (exists err, Exec env w ensureMigrationTablesExists tr w' (inl err) /\ r = inl err) \/
  exists tr0 w0 tr1,
    Exec env w ensureMigrationTablesExists tr0 w0 (inr tt) /\
    Exec env w0 (transaction (locked_run allMigrations)) tr1 w' r /\
    tr = tr0 ++ tr1.
Proof.
  unfold doMigrateToLatest. fold (locked_run allMigrations). intros H.
  apply Exec_await_inv in H as [(e & H & ->)|(tr0 & w0 & [] & tr1 & Hboot & H & ->)].
  - left. by exists e.
  - right. by exists tr0, w0, tr1.
Qed.

(** The events of a trace of the bootstrap are bootstrap queries. *)
Lemma bootstrap_events w tr w' r :
  Exec env w (@ensureMigrationTablesExists Schema) tr w' r ->
  Forall bootstrap_event (events tr).
Proof. intros H. apply Forall_fmap. by eapply bootstrap_within. Qed.

(** A rejected query or operation of [runNewMigrations] is its last event,
    and its error is the result. *)
Lemma forOf_rejected_last (new : list (NamedMigration Schema)) w tr w' r entry err :
  Exec env w (forOf new apply_one) tr w' r ->
  entry ∈ tr -> rejection entry.2 = Some err ->
  r = inl err /\ exists pre, tr = pre ++ [entry].
Proof.
  revert w tr. induction new as [|m new IH]; intros w tr H Hin Hrej; cbn in H.
  { apply Exec_Ret_inv in H as (-> & _). by apply elem_of_nil in Hin. }
  apply Exec_await_inv in H as [(e & H & ->)|(tr1 & w1 & [] & tr2 & H1 & H2 & ->)].
  - apply Exec_await_inv in H as [(e' & H & [= <-])|(tr1 & w1 & [] & tr2 & H1 & H2 & ->)].
    + apply Exec_trigger_inv in H as [_ ->].
      apply list_elem_of_singleton in Hin as ->. cbn in Hrej. injection Hrej as ->.
      split; [done|]. by exists [].
    + apply Exec_trigger_inv in H1 as [_ ->]. apply Exec_trigger_inv in H2 as [_ ->].
      apply elem_of_cons in Hin as [->|Hin]; [done|].
      apply list_elem_of_singleton in Hin as ->. cbn in Hrej. injection Hrej as ->.
      split; [done|]. by exists [(w, obs (CallUp m) (inr tt))].
  - apply Exec_await_inv in H1 as [(e' & H & [=])|(tr3 & w3 & [] & tr4 & H3 & H4 & ->)].
    apply Exec_trigger_inv in H3 as [_ ->]. apply Exec_trigger_inv in H4 as [_ ->].
    apply elem_of_cons in Hin as [->|Hin]; [done|].
    apply elem_of_cons in Hin as [->|Hin]; [done|].
    destruct (IH _ _ H2 Hin Hrej) as (-> & pre & ->). split; [done|].
    by exists ((w, obs (CallUp m) (inr tt)) :: (w3, obs (InsertMigration (name m)) (inr tt)) :: pre).
Qed.

Lemma run_rejected_last allMigrations w tr w' r entry err :
  Exec env w (runNewMigrations allMigrations) tr w' r ->
  entry ∈ tr -> rejection entry.2 = Some err ->
  r = inl err /\ exists pre, tr = pre ++ [entry].
Proof.
  intros H Hin Hrej. apply runNewMigrations_exec in H as (answer & w1 & _ & H).
  destruct answer as [e|executed].
  { destruct H as (-> & _ & ->). apply list_elem_of_singleton in Hin as ->.
    cbn in Hrej. injection Hrej as ->. split; [done|]. by exists []. }
  destruct (validate allMigrations executed) as [e|new].
  { destruct H as (-> & _). by apply list_elem_of_singleton in Hin as ->. }
  destruct H as (tr2 & -> & H). apply elem_of_cons in Hin as [->|Hin]; [done|].
  destruct (forOf_rejected_last _ _ _ _ _ _ _ H Hin Hrej) as (-> & pre & ->).
  split; [done|]. by exists ((w, obs SelectMigrationNames (inr executed)) :: pre).
Qed.

(** In any environment, [runNewMigrations] reads the ledger, and then
    stops at a failed check or goes through the loop. *)
Lemma run_courses_any allMigrations w tr w' r :
  Exec env w (runNewMigrations allMigrations) tr w' r ->
  exists answer rest,
    events tr = obs SelectMigrationNames answer :: rest /\
    match answer with
    | inl err => rest = [] /\ r = inl err
    | inr executed =>
        (rest = [] /\
         exists n,
           (n ∈ executed /\ r = inl (JS.new_Error (msg_missing n))) \/
           (is_Some (allMigrations !! n) /\ (n ∉ executed) /\
            r = inl (JS.new_Error (msg_before n)))) \/
        (exists old new,
           sortedMigrations allMigrations = old ++ new /\
           (forall n, n ∈ executed <-> n ∈ name <$> old) /\
           loop_outcome new rest r)
    end.
Proof.
  intros H. apply runNewMigrations_exec in H as (answer & w1 & _ & H).
  destruct answer as [e|executed].
  { destruct H as (-> & _ & ->). by exists (inl e), []. }
  destruct (validate allMigrations executed) as [e|new] eqn:Hval.
  - destruct H as (-> & _ & ->). exists (inr executed), []. split; [done|]. left.
    split; [done|]. apply validate_failed in Hval as (n & [[Hn ->]|(Hn & Hnot & ->)]);
      exists n; [by left|by right].
  - destruct H as (tr2 & -> & H). exists (inr executed), (events tr2). split; [done|].
    right. apply validate_passed in Hval as (old & Hsplit & Hsame).
    exists old, new. split; [done|]. split; [done|]. by eapply forOf_courses.
Qed.

End Call.

Section CallFacts.

Context {Schema : Type}.
Implicit Types (allMigrations : gmap string (Migration Schema)).

Lemma release_is_lock (o : Obs (dbE Schema)) : is_release o -> kind o = of_lock.
Proof. destruct o as [X e x]. by destruct e. Qed.

Lemma kind_not_release (o : Obs (dbE Schema)) : kind o ≠ of_lock -> ¬ is_release o.
Proof. intros Hk Hr. by apply release_is_lock in Hr. Qed.

Lemma acquireLock_no_release {W} (env : Env (dbE Schema) W) w tr w' r :
  Exec env w (@acquireLock Schema) tr w' r ->
  Forall (fun o => ¬ is_release o) (events tr).
Proof.
  intros H. apply acquireLock_inv in H as (ns & final & _ & -> & _).
  apply Forall_app. split; [|repeat constructor; by intros []].
  induction ns as [|n ns IH]; [constructor|].
  change (Forall (fun o => ¬ is_release o) (@retry Schema n ++ retries ns)).
  apply Forall_app. split; [|done]. repeat constructor; by intros [].
Qed.

Lemma events_app {E : Type -> Type} {W} (tr1 tr2 : Trace E W) :
  events (tr1 ++ tr2) = events tr1 ++ events tr2.
Proof. apply fmap_app. Qed.

Lemma events_cons {E : Type -> Type} {W} (entry : W * Obs E) (tr : Trace E W) :
  events (entry :: tr) = entry.2 :: events tr.
Proof. reflexivity. Qed.

Lemma loop_outcome_completed (new : list (NamedMigration Schema)) evs :
  loop_outcome new evs (inr tt) -> evs = new ≫= applied.
Proof. by inversion 1. Qed.

End CallFacts.

Section CallClaims.

Context {Schema : Type}.
Implicit Types (allMigrations : gmap string (Migration Schema)).

(** X1.  What [ensureMigrationsAreNotCorrupted] answers, for any two
    arrays of names, with duplicates or without.  It passes exactly when
    both hold the same names.  When some executed name is not among the old
    ones, the error says that the first such name, in the order of the
    array, is missing; only when every executed name is among the old ones
    does the error say that the first old name that was not executed comes
    before the last executed migration. *)
Theorem corruption_verdict (executed old : list string) :
  match ensureMigrationsAreNotCorrupted executed old with
  | inr _ => forall n, n ∈ executed <-> n ∈ old
  | inl err =>
      (exists pre n post,
         executed = pre ++ n :: post /\ (forall k, k ∈ pre -> k ∈ old) /\ (n ∉ old) /\
         err = JS.new_Error (msg_missing n)) \/
      ((forall k, k ∈ executed -> k ∈ old) /\
       exists pre n post,
         old = pre ++ n :: post /\ (forall k, k ∈ pre -> k ∈ executed) /\ (n ∉ executed) /\
         err = JS.new_Error (msg_before n))
  end.
Proof. apply ensure_verdict. Qed.

(** X2.  Whatever the environment answers, [runNewMigrations] first reads
    the ledger, and nothing else happens when that query is rejected or
    when a check fails; the error of a failed check names an executed
    migration as missing, or a migration of the set that the ledger does
    not have as coming before the last executed one.  When the checks
    pass, the sorted migrations split into those whose names the ledger
    holds and the rest, and the loop goes through the rest in order: it
    stops at the first forward operation or insert that is rejected, with
    the error of it, and no later migration is touched. *)
Theorem run_stops_at_first_failure {W} (env : Env (dbE Schema) W) allMigrations w tr w' r :
  Exec env w (runNewMigrations allMigrations) tr w' r ->
  exists answer rest,
    events tr = obs SelectMigrationNames answer :: rest /\
    match answer with
    | inl err => rest = [] /\ r = inl err
    | inr executed =>
        (rest = [] /\
         exists n,
           (n ∈ executed /\ r = inl (JS.new_Error (msg_missing n))) \/
           (is_Some (allMigrations !! n) /\ (n ∉ executed) /\
            r = inl (JS.new_Error (msg_before n)))) \/
        (exists old new,
           sortedMigrations allMigrations = old ++ new /\
           (forall n, n ∈ executed <-> n ∈ name <$> old) /\
           loop_outcome new rest r)
    end.
Proof. apply run_courses_any. Qed.

(** X3.  The order of a successful call of [doMigrateToLatest], in any
    environment: the queries of the bootstrap, the begin of the
    transaction, the attempts at the lock of which only the last one
    succeeded, the query of the ledger, every migration after those that
    the ledger names, in sorted order (the forward operation, then the
    insert of the name), the release of the lock, whatever number of rows
    it updated, and the commit. *)
Theorem successful_call_order {W} (env : Env (dbE Schema) W) allMigrations w tr w' :
  Exec env w (doMigrateToLatest allMigrations) tr w' (inr tt) ->
  exists boot ns executed old new n,
    events tr
    = boot ++ obs Begin (inr tt) :: retries ns ++ attempt (inr 1)
        :: obs SelectMigrationNames (inr executed) :: (new ≫= applied)
        ++ [release (inr n); obs Commit (inr tt)] /\
    Forall bootstrap_event boot /\
    Forall (fun k => k ≠ 1) ns /\
    sortedMigrations allMigrations = old ++ new /\
    (forall x, x ∈ executed <-> x ∈ name <$> old).
Proof.
  intros H.
  apply doMigrateToLatest_inv in H as [(e & _ & [=])|(tr0 & w0 & tr1 & Hboot & H & ->)].
  apply transaction_inv in H as [(e & _ & _ & [=])|(w1 & trc & wc & outcome & _ & H & Hend)].
  destruct outcome as [e|[]]; [by destruct Hend as (_ & _ & [=])|].
  destruct Hend as ([e|[]] & _ & -> & [=]).
  apply locked_run_inv in H as [(e & _ & [=])|(tra & wa & trb & Ha & -> & H)].
  destruct H as [(e & _ & [=])|(trr & wr & trl & Hr & -> & Hl)].
  apply acquireLock_inv in Ha as (ns & final & Hns & Hev & Hfinal).
  destruct final as [e|k]; [done|]. destruct Hfinal as [-> _].
  apply run_courses_any in Hr as (answer & rest & Hrun & Hr).
  destruct answer as [e|executed]; [by destruct Hr as [_ [=]]|].
  destruct Hr as [(_ & k & [[_ [=]]|(_ & _ & [=])])|(old & new & Hsplit & Hsame & Hloop)].
  apply loop_outcome_completed in Hloop as ->.
  apply releaseLock_inv in Hl as ([e|k] & _ & -> & [=]).
  exists (events tr0), ns, executed, old, new, k.
  split; [|split; [by eapply bootstrap_events|done]].
  rewrite events_app, events_cons, !events_app, Hev, Hrun, <- !app_assoc. done.
Qed.

(** X4.  No query of the ledger and no forward operation happens outside
    the lock: in any execution of [doMigrateToLatest] such an event comes
    after a bootstrap that succeeded, the begin of the transaction and an
    attempt at the lock that succeeded. *)
Theorem migrations_run_under_lock {W} (env : Env (dbE Schema) W) allMigrations
    w tr w' r entry :
  Exec env w (doMigrateToLatest allMigrations) tr w' r ->
  entry ∈ tr ->
  kind entry.2 = of_ledger \/ kind entry.2 = of_migration ->
  exists tr0 w0 ns rest,
    Exec env w ensureMigrationTablesExists tr0 w0 (inr tt) /\
    events tr
    = events tr0 ++ obs Begin (inr tt) :: retries ns ++ attempt (inr 1) :: rest /\
    Forall (fun k => k ≠ 1) ns /\
    entry.2 ∈ rest.
Proof.
  intros H Hin Hkind.
  assert (kind entry.2 ≠ of_bootstrap /\ kind entry.2 ≠ of_lock /\
          kind entry.2 ≠ of_transaction) as (Hnb & Hnl & Hnt)
    by (destruct Hkind as [-> | ->]; done).
  assert (forall tr1 w1 w2 r1,
            Exec env w1 (@ensureMigrationTablesExists Schema) tr1 w2 r1 -> entry ∉ tr1)
    as Hboot_no.
  { intros tr1 w1 w2 r1 H1 Hin1. apply bootstrap_within in H1.
    rewrite Forall_forall in H1. by apply H1, bootstrap_is_bootstrap in Hin1. }
  assert (forall tr1 w1 w2 r1,
            Exec env w1 (@acquireLock Schema) tr1 w2 r1 -> entry ∉ tr1) as Hlock_no.
  { intros tr1 w1 w2 r1 H1 Hin1. apply acquireLock_within in H1.
    rewrite Forall_forall in H1. by apply H1 in Hin1. }
  apply doMigrateToLatest_inv in H as [(e & H & _)|(tr0 & w0 & tr1 & Hboot & H & ->)].
  { by apply Hboot_no in H. }
  apply elem_of_app in Hin as [Hin|Hin]; [by apply Hboot_no in Hboot|].
  apply transaction_inv in H as [(e & _ & -> & _)|(w1 & trc & wc & outcome & _ & H & Hend)].
  { by apply list_elem_of_singleton in Hin as ->. }
  assert (exists closing,
            tr1 = (w0, obs Begin (inr tt)) :: trc ++ [closing] /\
            kind closing.2 = of_transaction) as (closing & -> & Hclosing).
  { destruct outcome as [e|a].
    - destruct Hend as (_ & -> & _). by eexists.
    - destruct Hend as (answer & _ & -> & _). by eexists. }
  apply elem_of_cons in Hin as [->|Hin]; [done|].
  apply elem_of_app in Hin as [Hin|Hin];
    [|apply list_elem_of_singleton in Hin as ->; done].
  apply locked_run_inv in H as [(e & H & _)|(tra & wa & trb & Ha & -> & H)].
  { by apply Hlock_no in H. }
  apply elem_of_app in Hin as [Hin|Hin]; [by apply Hlock_no in Ha|].
  apply acquireLock_inv in Ha as (ns & final & Hns & Hev & Hfinal).
  destruct final as [e|k]; [done|]. destruct Hfinal as [-> _].
  exists tr0, w0, ns, (events (trb ++ [closing])).
  split; [done|]. split; [|split; [done|]].
  - rewrite events_app, events_cons, !events_app, Hev, <- !app_assoc. done.
  - rewrite events_app. apply elem_of_app. left. apply list_elem_of_fmap. by exists entry.
Qed.

(** X5.  When a query of the ledger, an insert into it or a forward
    operation is rejected during [doMigrateToLatest], in any environment,
    the call is rejected with that error, the rejected statement is the
    last one before the rollback, which ends the trace, and no release of
    the lock was issued: the lock is given back by the rollback alone. *)
Theorem rejected_step_rolls_back {W} (env : Env (dbE Schema) W) allMigrations
    w tr w' r entry err :
  Exec env w (doMigrateToLatest allMigrations) tr w' r ->
  entry ∈ tr ->
  kind entry.2 = of_ledger \/ kind entry.2 = of_migration ->
  rejection entry.2 = Some err ->
  r = inl err /\
  exists pre,
    events tr = pre ++ [entry.2; obs Rollback tt] /\
    Forall (fun o => ¬ is_release o) pre.
Proof.
  intros H Hin Hkind Hrej.
  assert (kind entry.2 ≠ of_bootstrap /\ kind entry.2 ≠ of_lock /\
          kind entry.2 ≠ of_transaction) as (Hnb & Hnl & Hnt)
    by (destruct Hkind as [-> | ->]; done).
  assert (forall tr1 w1 w2 r1,
            Exec env w1 (@ensureMigrationTablesExists Schema) tr1 w2 r1 -> entry ∉ tr1)
    as Hboot_no.
  { intros tr1 w1 w2 r1 H1 Hin1. apply bootstrap_within in H1.
    rewrite Forall_forall in H1. by apply H1, bootstrap_is_bootstrap in Hin1. }
  assert (forall tr1 w1 w2 r1,
            Exec env w1 (@acquireLock Schema) tr1 w2 r1 -> entry ∉ tr1) as Hlock_no.
  { intros tr1 w1 w2 r1 H1 Hin1. apply acquireLock_within in H1.
    rewrite Forall_forall in H1. by apply H1 in Hin1. }
  apply doMigrateToLatest_inv in H as [(e & H & _)|(tr0 & w0 & tr1 & Hboot & H & ->)].
  { by apply Hboot_no in H. }
  apply elem_of_app in Hin as [Hin|Hin]; [by apply Hboot_no in Hboot|].
  apply transaction_inv in H as [(e & _ & -> & _)|(w1 & trc & wc & outcome & _ & H & Hend)].
  { by apply list_elem_of_singleton in Hin as ->. }
  assert (entry ∈ trc) as Hinc.
  { destruct outcome as [e|a].
    - destruct Hend as (_ & -> & _).
      apply elem_of_cons in Hin as [->|Hin]; [done|].
      apply elem_of_app in Hin as [Hin|Hin]; [done|].
      by apply list_elem_of_singleton in Hin as ->.
    - destruct Hend as (answer & _ & -> & _).
      apply elem_of_cons in Hin as [->|Hin]; [done|].
      apply elem_of_app in Hin as [Hin|Hin]; [done|].
      by apply list_elem_of_singleton in Hin as ->. }
  clear Hin.
  apply locked_run_inv in H as [(e & H & _)|(tra & wa & trb & Ha & -> & H)].
  { by apply Hlock_no in H. }
  apply elem_of_app in Hinc as [Hin|Hin]; [by apply Hlock_no in Ha|].
  destruct H as [(e & Hrun & ->)|(trr & wr & trl & Hrun & -> & Hl)].
  - destruct Hend as (_ & -> & ->).
    pose proof (runNewMigrations_within _ _ _ _ _ _ _ Hrun) as Hkinds.
    destruct (run_rejected_last _ _ _ _ _ _ _ _ Hrun Hin Hrej) as ([= ->] & pre & ->).
    split; [done|].
    exists (events tr0 ++ obs Begin (inr tt) :: events tra ++ events pre). split.
    + rewrite events_app, events_cons, !events_app.
      repeat (rewrite <- app_assoc || rewrite <- app_comm_cons). done.
    + apply Forall_app. split.
      { eapply Forall_impl; [by eapply bootstrap_events|].
        intros o Ho. apply kind_not_release. by rewrite (bootstrap_is_bootstrap o Ho). }
      constructor; [by intros []|]. apply Forall_app. split.
      { by eapply acquireLock_no_release. }
      apply Forall_app in Hkinds as [Hkinds _]. apply Forall_fmap.
      eapply Forall_impl; [exact Hkinds|]. intros o Ho. apply kind_not_release.
      cbn in Ho. by destruct Ho as [-> | ->].
  - apply elem_of_app in Hin as [Hin|Hin].
    + by destruct (run_rejected_last _ _ _ _ _ _ _ _ Hrun Hin Hrej) as ([=] & _).
    + apply releaseLock_inv in Hl as (answer & _ & -> & _).
      by apply list_elem_of_singleton in Hin as ->.
Qed.

End CallClaims.

Section BootstrapOrder.

Context {Schema : Type}.

Lemma step_outcome_length {A} (check : dbE Schema (Result (option A))) create evs r :
  step_outcome check create evs r -> (1 <= length evs <= 3)%nat.
Proof. destruct 1; cbn; lia. Qed.

(** X6.  [ensureMigrationTablesExists] runs its three steps in order, the
    migration table, the lock table, the lock row, each going one of the
    ways a step may go; a step that fails ends the bootstrap with its
    error, and the later steps are not started.  A bootstrap that succeeds
    has issued between three and nine queries. *)
Theorem bootstrap_steps_in_order {W} (env : Env (dbE Schema) W) w tr w' r :
  Exec env w ensureMigrationTablesExists tr w' r ->
  (exists evs1 r1,
     step_outcome (GetTableMetadata MIGRATION_TABLE)
       (CreateTableIfNotExists MIGRATION_TABLE migration_table_columns) evs1 r1 /\
     match r1 with
     | inl err => events tr = evs1 /\ r = inl err
     | inr _ =>
         exists evs2 r2,
           step_outcome (GetTableMetadata MIGRATION_LOCK_TABLE)
             (CreateTableIfNotExists MIGRATION_LOCK_TABLE lock_table_columns) evs2 r2 /\
           match r2 with
           | inl err => events tr = evs1 ++ evs2 /\ r = inl err
           | inr _ =>
               exists evs3,
                 step_outcome (SelectLockRow MIGRATION_LOCK_ID)
                   (InsertLockRow MIGRATION_LOCK_ID) evs3 r /\
                 events tr = evs1 ++ evs2 ++ evs3
           end
     end) /\
  (r = inr tt -> (3 <= length tr <= 9)%nat).
Proof.
  intros H. unfold ensureMigrationTablesExists in H.
  apply Exec_await_inv in H as [(e & H & ->)|(tr1 & w1 & [] & tr2 & H1 & H & ->)].
  { apply ensureExists_inv in H. split; [|done]. by exists (events tr), (inl e). }
  apply ensureExists_inv in H1. pose proof (step_outcome_length _ _ _ _ H1) as Hl1.
  apply Exec_await_inv in H as [(e & H & ->)|(tr3 & w3 & [] & tr4 & H3 & H & ->)].
  { apply ensureExists_inv in H. split; [|done]. exists (events tr1), (inr tt).
    split; [done|]. exists (events tr2), (inl e). by rewrite events_app. }
  apply ensureExists_inv in H3. pose proof (step_outcome_length _ _ _ _ H3) as Hl3.
  apply ensureExists_inv in H. pose proof (step_outcome_length _ _ _ _ H) as Hl.
  split.
  - exists (events tr1), (inr tt). split; [done|]. exists (events tr3), (inr tt).
    split; [done|]. exists (events tr4). by rewrite !events_app.
  - intros _. unfold events in *. rewrite length_fmap in Hl1, Hl3, Hl.
    rewrite !length_app. lia.
Qed.

End BootstrapOrder.

Section Dispatch.

Context {Schema : Type}.

(** X7.  [migrateToLatest] called with a folder reads the folder before it
    touches the database: when the reading fails the call fails with the
    same error and no query was issued; otherwise the call goes on as
    [doMigrateToLatest] with the migrations that were read, after the
    events of the reading.  Called with the migrations themselves it
    touches no file. *)
Theorem folder_is_read_first {W} (env : Env (fsE Schema +' dbE Schema) W)
    (migrations : string + gmap string (Migration Schema)) w tr w' r :
  Exec env w (migrateToLatest migrations) tr w' r ->
  match migrations with
  | inr allMigrations =>
      exists tr1,
        Exec (fun X e => env X (inr1 e)) w (doMigrateToLatest allMigrations) tr1 w' r /\
        events tr = retag (fun X => @inr1 (fsE Schema) (dbE Schema) X) <$> events tr1
  | inl folder =>
      exists tr0 w0 loaded,
        Exec (fun X e => env X (inl1 e)) w (readMigrationsFromFolder folder) tr0 w0 loaded /\
        match loaded with
        | inl err =>
            r = inl err /\ w' = w0 /\
            events tr = retag (fun X => @inl1 (fsE Schema) (dbE Schema) X) <$> events tr0
        | inr allMigrations =>
            exists tr1,
              Exec (fun X e => env X (inr1 e)) w0 (doMigrateToLatest allMigrations) tr1 w' r /\
              events tr
              = (retag (fun X => @inl1 (fsE Schema) (dbE Schema) X) <$> events tr0)
                  ++ (retag (fun X => @inr1 (fsE Schema) (dbE Schema) X) <$> events tr1)
        end
  end.
Proof.
  assert (forall (E : Type -> Type) (f : forall X, E X -> (fsE Schema +' dbE Schema) X)
            (tr0 : Trace E W),
            events ((fun entry => (entry.1, retag f entry.2)) <$> tr0)
            = retag f <$> events tr0) as Hev.
  { intros E f tr0. unfold events. rewrite <- !list_fmap_compose. done. }
  destruct migrations as [folder|allMigrations]; cbn; intros H.
  - apply Exec_await_inv in H as [(e & H & ->)|(tr0 & w0 & allMigrations & tr1 & H0 & H1 & ->)].
    + apply Exec_translate in H as (tr0 & H & ->). exists tr0, w', (inl e).
      split; [done|]. by rewrite Hev.
    + apply Exec_translate in H0 as (tr0' & H0 & ->).
      apply Exec_translate in H1 as (tr1' & H1 & ->).
      exists tr0', w0, (inr allMigrations). split; [done|]. exists tr1'.
      split; [done|]. by rewrite events_app, !Hev.
  - apply Exec_translate in H as (tr1 & H & ->). exists tr1. split; [done|]. by rewrite Hev.
Qed.

End Dispatch.

Section Footprints.

Context {Schema : Type}.

(** X8.  What each part may issue, in any environment: the bootstrap only
    its look-ups and creations; [acquireLock] only the conditional update
    of the lock and the sleep of 100; [releaseLock] only the unconditional
    update that clears the lock; [runNewMigrations] only queries of the
    ledger and forward operations. *)
Theorem parts_keep_to_their_statements :
  Within bootstrap_event (@ensureMigrationTablesExists Schema) /\
  Within (fun o => exists answer, o = attempt answer \/ o = obs (Sleep 100) tt)
    (@acquireLock Schema) /\
  Within (fun o => exists answer, o = release answer) (@releaseLock Schema) /\
  (forall allMigrations : gmap string (Migration Schema),
     Within (fun o => kind o = of_migration \/ kind o = of_ledger)
       (runNewMigrations allMigrations)).
Proof.
  split; [apply bootstrap_within|]. split; [|split; [|apply runNewMigrations_within]].
  - intros W env w tr w' r H. apply acquireLock_inv in H as (ns & final & _ & Hev & _).
    apply (Forall_fmap snd
             (fun o => exists answer, o = attempt answer \/ o = obs (Sleep 100) tt)).
    fold (events tr). rewrite Hev.
    apply Forall_app. split; [|repeat constructor; exists final; by left].
    clear Hev. induction ns as [|n ns IH]; [constructor|].
    change (Forall (fun o => exists answer, o = attempt answer \/ o = obs (Sleep 100) tt)
              (@retry Schema n ++ retries ns)).
    apply Forall_app. split; [|done].
    repeat constructor; exists (inr n); [by left|by right].
  - intros W env w tr w' r H. apply releaseLock_inv in H as (answer & _ & -> & _).
    repeat constructor. by exists answer.
Qed.

End Footprints.

Section ListingOrder.

Context {Schema : Type}.
Implicit Types (mods : list (@Loaded Schema)).

Lemma at_most_one_by_name mods n :
  NoDup ((fun loaded => stem loaded.1)
           <$> filter (fun loaded => isMigration loaded.2 = true) mods) ->
  (length (filter (fun loaded => isMigration loaded.2 = true /\ stem loaded.1 = n) mods)
   <= 1)%nat.
Proof.
  induction mods as [|x mods IH]; [cbn; lia|]. rewrite !filter_cons.
  destruct (isMigration x.2) eqn:Hx.
  2: { rewrite decide_False by done. rewrite decide_False by naive_solver. exact IH. }
  rewrite decide_True by done. cbn [fmap list_fmap]. intros [Hnot Hnd]%NoDup_cons.
  destruct (decide (stem x.1 = n)) as [Hn|Hn].
  - rewrite decide_True by done.
    lazymatch goal with
    | |- context [@filter ?A ?B ?F ?P ?D mods] =>
        destruct (@filter A B F P D mods) as [|y rest] eqn:Hf; [cbn; lia|];
        assert (y ∈ @filter A B F P D mods) as Hy by (rewrite Hf; left)
    end.
    exfalso. apply list_elem_of_filter in Hy as [[Hm Hs] Hy]. apply Hnot.
    apply list_elem_of_fmap. exists y. split; [congruence|].
    by apply list_elem_of_filter.
  - rewrite decide_False by naive_solver. by apply IH.
Qed.

(** When no two of the migrations have the same name, the order in which
    the modules were loaded does not matter. *)
Lemma collect_permutation mods mods' :
  mods ≡ₚ mods' ->
  NoDup ((fun loaded => stem loaded.1)
           <$> filter (fun loaded => isMigration loaded.2 = true) mods) ->
  collect ∅ mods = collect ∅ mods'.
Proof.
  intros Hperm Hnd. apply map_eq. intros n. rewrite !collect_lookup.
  pose proof (at_most_one_by_name mods n Hnd) as Hlen.
  assert (filter (fun loaded => isMigration loaded.2 = true /\ stem loaded.1 = n) mods
          ≡ₚ filter (fun loaded => isMigration loaded.2 = true /\ stem loaded.1 = n) mods')
    as Hfilter by (by rewrite Hperm).
  lazymatch type of Hlen with
  | (length ?found <= _)%nat => revert Hlen Hfilter; generalize found
  end.
  intros [|a [|b l]] Hlen Hfilter; [| |cbn in Hlen; lia].
  - apply Permutation_nil_l in Hfilter. by rewrite <- Hfilter.
  - apply Permutation_singleton_l in Hfilter. by rewrite <- Hfilter.
Qed.

(** The result of a call in which the folder lists [files] and every
    import resolves with what [load] gives. *)
Lemma loader_result {W} (env : Env (fsE Schema) W) dir (files : list string)
    (load : string -> Module Schema) w tr w' r :
  let mods := (fun file => (file, load file)) <$> filter (fun file => eligible file = true) files in
  Forall ordinary mods ->
  Exec env w (readMigrationsFromFolder dir) tr w' r ->
  events tr = obs (Readdir dir) (inr files) :: (imported dir <$> mods) ->
  r = inr (collect ∅ mods).
Proof.
  intros mods Hord H Hev. unfold readMigrationsFromFolder in H.
  apply Exec_await_inv in H as [(err & H & ->)|(tr1 & w1 & files0 & tr2 & H1 & H2 & ->)].
  { apply Exec_trigger_inv in H as [_ ->].
    apply (f_equal (fun evs => head evs ≫= listing_of)) in Hev. done. }
  apply Exec_trigger_inv in H1 as [_ ->].
  change (events ([(w, obs (Readdir dir) (inr files0))] ++ tr2))
    with (obs (Readdir dir) (inr files0) :: events tr2) in Hev.
  apply (f_equal (fun evs => head evs ≫= listing_of)) in Hev as Hfiles.
  injection Hfiles as ->. apply (f_equal tail) in Hev. cbn [tail] in Hev.
  apply readFiles_inv in H2; [|by rewrite Hev, omap_imported].
  destruct r as [err|result].
  - destruct H2 as (mods0 & file & _ & Hev0). exfalso. rewrite Hev in Hev0.
    apply (f_equal (omap imported_module)) in Hev0 as Homap.
    rewrite omap_app, !omap_imported in Homap. cbn in Homap. rewrite app_nil_r in Homap.
    subst mods0. apply (f_equal length) in Hev0. rewrite length_app in Hev0. cbn in Hev0. lia.
  - destruct H2 as (mods0 & _ & Hev0 & ->). rewrite Hev in Hev0.
    apply (f_equal (omap imported_module)) in Hev0. rewrite !omap_imported in Hev0.
    by subst mods0.
Qed.

(** X9.  The order in which the folder lists its files does not matter as
    long as no two migrations have the same name and none is named
    [__proto__]: for two listings that are permutations of each other, and
    a loader that answers the same module for the same file,
    [readMigrationsFromFolder] yields the same migrations.  Both calls can
    happen, and every call with one of the two listings and these
    modules resolves with these migrations. *)
Theorem listing_order_is_immaterial dir (files files' : list string)
    (load : string -> Module Schema) :
  let mods := (fun file => (file, load file)) <$> filter (fun file => eligible file = true) files in
  let mods' := (fun file => (file, load file)) <$> filter (fun file => eligible file = true) files' in
  files ≡ₚ files' ->
  NoDup ((fun loaded : @Loaded Schema => stem loaded.1)
           <$> filter (fun loaded => isMigration loaded.2 = true) mods) ->
  Forall ordinary mods ->
  exists result tr tr',
    Exec anything tt (readMigrationsFromFolder dir) tr tt (inr result) /\
    events tr = obs (Readdir dir) (inr files) :: (imported dir <$> mods) /\
    Exec anything tt (readMigrationsFromFolder dir) tr' tt (inr result) /\
    events tr' = obs (Readdir dir) (inr files') :: (imported dir <$> mods') /\
    (forall W (env : Env (fsE Schema) W) w tr0 w' r,
       Exec env w (readMigrationsFromFolder dir) tr0 w' r ->
       events tr0 = obs (Readdir dir) (inr files) :: (imported dir <$> mods)
       \/ events tr0 = obs (Readdir dir) (inr files') :: (imported dir <$> mods') ->
       r = inr result).
Proof.
  intros mods mods' Hperm Hnd Hord.
  assert (mods ≡ₚ mods') as Hmods by (unfold mods, mods'; by rewrite Hperm).
  assert (Forall ordinary mods') as Hord' by (by eapply Permutation_Forall).
  assert (forall fs : list string,
            let ms : list (@Loaded Schema) :=
              (fun file => (file, load file)) <$> filter (fun file => eligible file = true) fs in
            Forall ordinary ms ->
            exists tr,
              Exec anything tt (readMigrationsFromFolder dir) tr tt (inr (collect ∅ ms)) /\
              events tr = obs (Readdir dir) (inr fs) :: (imported dir <$> ms)) as Hrun.
  { intros fs ms Hms.
    exists ((tt, obs (Readdir dir) (inr fs)) :: ((fun loaded => (tt, imported dir loaded)) <$> ms)).
    split.
    - unfold readMigrationsFromFolder.
      eapply (Exec_await_resolved anything tt _ _ [_] tt fs); [by apply Exec_trigger|].
      by apply readFiles_run.
    - unfold events. cbn. f_equal. rewrite <- list_fmap_compose. done. }
  destruct (Hrun files Hord) as (tr & H & Hev).
  destruct (Hrun files' Hord') as (tr' & H' & Hev').
  pose proof (collect_permutation mods mods' Hmods Hnd) as Hsame.
  exists (collect ∅ mods), tr, tr'. split; [done|]. split; [done|].
  split; [by rewrite Hsame|]. split; [done|].
  intros W env w tr0 w' r H0 [Hev0|Hev0].
  - by eapply loader_result.
  - rewrite Hsame. by eapply loader_result.
Qed.

End ListingOrder.

(** ** The call against the database *)


Section DatabaseSteps.

Context {Schema : Type}.
Implicit Types (db : Db Schema) (allMigrations : gmap string (Migration Schema)).

Lemma with_visible_same db : with_visible db (visible db) = db.
Proof. by destruct db. Qed.

Lemma database_GetTableMetadata_migration db :
  db_handler _ (GetTableMetadata MIGRATION_TABLE) db
  = (db, inr ((fun _ => table_metadata MIGRATION_TABLE) <$> migration_rows (visible db))).
Proof. destruct db as [d s]. reflexivity. Qed.

Lemma database_GetTableMetadata_lock db :
  db_handler _ (GetTableMetadata MIGRATION_LOCK_TABLE) db
  = (db, inr ((fun _ => table_metadata MIGRATION_LOCK_TABLE) <$> lock_rows (visible db))).
Proof. destruct db as [d s]. reflexivity. Qed.

Lemma database_create_migration_table db columns :
  migration_rows (visible db) = None ->
  db_handler _ (CreateTableIfNotExists MIGRATION_TABLE columns) db
  = (with_visible db (set_migration_rows (visible db) (Some ∅)), inr tt).
Proof. destruct db as [d s]. unfold db_handler. cbn. by intros ->. Qed.

Lemma database_create_lock_table db columns :
  lock_rows (visible db) = None ->
  db_handler _ (CreateTableIfNotExists MIGRATION_LOCK_TABLE columns) db
  = (with_visible db (set_lock_rows (visible db) (Some ∅)), inr tt).
Proof. destruct db as [d s]. unfold db_handler. cbn. by intros ->. Qed.

Lemma database_SelectLockRow db rows :
  lock_rows (visible db) = Some rows ->
  db_handler _ (SelectLockRow MIGRATION_LOCK_ID) db
  = (db, inr (mkLockRow MIGRATION_LOCK_ID <$> rows !! MIGRATION_LOCK_ID)).
Proof. destruct db as [d s]. unfold db_handler. cbn. by intros ->. Qed.

Lemma database_InsertLockRow db rows :
  lock_rows (visible db) = Some rows ->
  rows !! MIGRATION_LOCK_ID = None ->
  db_handler _ (InsertLockRow MIGRATION_LOCK_ID) db
  = (with_visible db (set_lock_rows (visible db) (Some (<[MIGRATION_LOCK_ID := 0]> rows))),
     inr tt).
Proof. destruct db as [d s]. unfold db_handler. cbn. by intros -> ->. Qed.

Lemma database_UpdateLock db rows v w :
  lock_rows (visible db) = Some rows ->
  db_handler _ (UpdateLock v w MIGRATION_LOCK_ID) db
  = match rows !! MIGRATION_LOCK_ID with
    | Some current =>
        if where_matches w current
        then (with_visible db
                (set_lock_rows (visible db) (Some (<[MIGRATION_LOCK_ID := v]> rows))),
              inr 1)
        else (db, inr 0)
    | None => (db, inr 0)
    end.
Proof.
  destruct db as [d s]. unfold db_handler. cbn. intros ->.
  destruct (rows !! MIGRATION_LOCK_ID) as [current|]; [|done].
  by destruct (where_matches w current).
Qed.

(** A bootstrap step against a database in which nothing is rejected. *)
Lemma ensureExists_quiet {A} (check : dbE Schema (Result (option A))) create db found db1 :
  db_handler _ check db = (db, inr found) ->
  (found = None -> db_handler _ create db = (db1, inr tt)) ->
  (is_Some found -> db1 = db) ->
  Exec database db (ensureExists (exists_by check) (ITree.trigger create))
    ((fun o => (db, o)) <$> quiet_step check create found) db1 (inr tt).
Proof.
  intros Hcheck Hcreate Hsame.
  assert (Exec database db (exists_by check) [(db, obs check (inr found))] db
            (inr (bool_decide (is_Some found)))) as Hexists.
  { change [(db, obs check (inr found))]
      with ([(db, obs check (inr found))] ++ @nil (Db Schema * Obs (dbE Schema))).
    eapply Exec_await_resolved; [by apply Exec_trigger|]. apply Exec_Ret. }
  unfold ensureExists. destruct found as [a|]; cbn [quiet_step fmap list_fmap].
  - rewrite (Hsame (mk_is_Some _ _ eq_refl)).
    change [(db, obs check (inr (Some a)))]
      with ([(db, obs check (inr (Some a)))] ++ @nil (Db Schema * Obs (dbE Schema))).
    eapply Exec_await_resolved; [exact Hexists|]. apply Exec_Ret.
  - change [(db, obs check (inr None)); (db, obs create (inr tt))]
      with ([(db, obs check (inr None))] ++ [(db, obs create (inr tt))] ++ []).
    eapply Exec_await_resolved; [exact Hexists|]. cbn.
    eapply (Exec_bind database db _ _ [(db, obs create (inr tt))] db1 (inr tt) []);
      [apply Exec_trigger; by apply Hcreate|]. apply Exec_Ret.
Qed.

End DatabaseSteps.

Section DatabaseBootstrap.

Context {Schema : Type}.
Implicit Types (db : Db Schema) (allMigrations : gmap string (Migration Schema)).

Lemma events_tagged {W} (w : W) (evs : list (Obs (dbE Schema))) :
  events ((fun o => (w, o)) <$> evs) = evs.
Proof. unfold events. rewrite <- list_fmap_compose. apply list_fmap_id. Qed.

Lemma migration_table_step db :
  exists db1,
    Exec database db ensureMigrationTableExists
      ((fun o => (db, o))
         <$> quiet_step (GetTableMetadata MIGRATION_TABLE)
               (CreateTableIfNotExists MIGRATION_TABLE migration_table_columns)
               ((fun _ => table_metadata MIGRATION_TABLE) <$> migration_rows (visible db)))
      db1 (inr tt) /\
    migration_rows (visible db1) = Some (ledger db) /\
    lock_rows (visible db1) = lock_rows (visible db) /\
    schema (visible db1) = schema (visible db) /\
    snapshot db1 = snapshot db.
Proof.
  unfold ledger. destruct (migration_rows (visible db)) as [rows|] eqn:Hrows.
  - exists db. split; [|by rewrite Hrows].
    apply ensureExists_quiet; [|done..].
    by rewrite database_GetTableMetadata_migration, Hrows.
  - exists (with_visible db (set_migration_rows (visible db) (Some ∅))). split; [|done].
    apply ensureExists_quiet; [|intros _|by intros [? [=]]].
    + by rewrite database_GetTableMetadata_migration, Hrows.
    + by apply database_create_migration_table.
Qed.

Lemma lock_table_step db :
  exists db1,
    Exec database db ensureMigrationLockTableExists
      ((fun o => (db, o))
         <$> quiet_step (GetTableMetadata MIGRATION_LOCK_TABLE)
               (CreateTableIfNotExists MIGRATION_LOCK_TABLE lock_table_columns)
               ((fun _ => table_metadata MIGRATION_LOCK_TABLE) <$> lock_rows (visible db)))
      db1 (inr tt) /\
    migration_rows (visible db1) = migration_rows (visible db) /\
    lock_rows (visible db1) = Some (default ∅ (lock_rows (visible db))) /\
    schema (visible db1) = schema (visible db) /\
    snapshot db1 = snapshot db.
Proof.
  destruct (lock_rows (visible db)) as [rows|] eqn:Hrows.
  - exists db. split; [|by rewrite Hrows].
    apply ensureExists_quiet; [|done..].
    by rewrite database_GetTableMetadata_lock, Hrows.
  - exists (with_visible db (set_lock_rows (visible db) (Some ∅))). split; [|done].
    apply ensureExists_quiet; [|intros _|by intros [? [=]]].
    + by rewrite database_GetTableMetadata_lock, Hrows.
    + by apply database_create_lock_table.
Qed.

Lemma lock_row_step db rows :
  lock_rows (visible db) = Some rows ->
  exists db1,
    Exec database db ensureLockRowExists
      ((fun o => (db, o))
         <$> quiet_step (SelectLockRow MIGRATION_LOCK_ID) (InsertLockRow MIGRATION_LOCK_ID)
               (mkLockRow MIGRATION_LOCK_ID <$> rows !! MIGRATION_LOCK_ID))
      db1 (inr tt) /\
    migration_rows (visible db1) = migration_rows (visible db) /\
    lock_rows (visible db1)
    = Some (<[MIGRATION_LOCK_ID := default 0 (rows !! MIGRATION_LOCK_ID)]> rows) /\
    schema (visible db1) = schema (visible db) /\
    snapshot db1 = snapshot db.
Proof.
  intros Hrows. destruct (rows !! MIGRATION_LOCK_ID) as [v|] eqn:Hrow.
  - exists db. split; [|by rewrite Hrows, insert_id].
    apply ensureExists_quiet; [|done..].
    by rewrite (database_SelectLockRow _ _ Hrows), Hrow.
  - exists (with_visible db
              (set_lock_rows (visible db) (Some (<[MIGRATION_LOCK_ID := 0]> rows)))).
    split; [|done].
    apply ensureExists_quiet; [|intros _|by intros [? [=]]].
    + by rewrite (database_SelectLockRow _ _ Hrows), Hrow.
    + by apply database_InsertLockRow.
Qed.

(** The bootstrap against the database: nothing is rejected, each step
    looks for its object and makes it when it is not there. *)
Lemma bootstrap_runs db :
  exists tr db',
    Exec database db ensureMigrationTablesExists tr db' (inr tt) /\
    events tr
    = quiet_step (GetTableMetadata MIGRATION_TABLE)
        (CreateTableIfNotExists MIGRATION_TABLE migration_table_columns)
        ((fun _ => table_metadata MIGRATION_TABLE) <$> migration_rows (visible db))
      ++ quiet_step (GetTableMetadata MIGRATION_LOCK_TABLE)
           (CreateTableIfNotExists MIGRATION_LOCK_TABLE lock_table_columns)
           ((fun _ => table_metadata MIGRATION_LOCK_TABLE) <$> lock_rows (visible db))
      ++ quiet_step (SelectLockRow MIGRATION_LOCK_ID) (InsertLockRow MIGRATION_LOCK_ID)
           (mkLockRow MIGRATION_LOCK_ID <$> lock_state (visible db)) /\
    migration_rows (visible db') = Some (ledger db) /\
    lock_rows (visible db')
    = Some (<[MIGRATION_LOCK_ID := default 0 (lock_state (visible db))]>
              (default ∅ (lock_rows (visible db)))) /\
    schema (visible db') = schema (visible db) /\
    snapshot db' = snapshot db.
Proof.
  destruct (migration_table_step db) as (db1 & H1 & Hm1 & Hl1 & Hs1 & Hn1).
  destruct (lock_table_step db1) as (db2 & H2 & Hm2 & Hl2 & Hs2 & Hn2).
  destruct (lock_row_step db2 _ Hl2) as (db3 & H3 & Hm3 & Hl3 & Hs3 & Hn3).
  assert (default ∅ (lock_rows (visible db1)) !! MIGRATION_LOCK_ID = lock_state (visible db))
    as Hstate.
  { rewrite Hl1. unfold lock_state. by destruct (lock_rows (visible db)). }
  eexists _, db3. split; [|split].
  - unfold ensureMigrationTablesExists.
    eapply Exec_await_resolved; [exact H1|].
    eapply Exec_await_resolved; [exact H2|exact H3].
  - rewrite !events_app, !events_tagged, Hstate, Hl1. done.
  - rewrite Hm3, Hm2, Hm1, Hl3, Hstate, Hl1, Hs3, Hs2, Hs1, Hn3, Hn2, Hn1. done.
Qed.

Lemma quiet_step_length {A} (check : dbE Schema (Result (option A))) create found :
  (1 <= length (quiet_step check create found) <= 2)%nat.
Proof. destruct found; cbn; lia. Qed.

(** X10.  Against the database, from any state, the bootstrap has exactly
    one execution; it succeeds and leaves the tracking tables in place.
    It keeps the names of the ledger, the target schema and the state of
    the transaction; a lock row that was there keeps its value, a new one
    is unlocked.  It takes between three and six queries. *)
Theorem bootstrap_establishes_tables db :
  exists tr db',
    Exec database db ensureMigrationTablesExists tr db' (inr tt) /\
    (forall tr2 db2 r2,
       Exec database db ensureMigrationTablesExists tr2 db2 r2 ->
       tr2 = tr /\ db2 = db' /\ r2 = inr tt) /\
    bootstrapped (visible db') /\
    ledger db' = ledger db /\
    lock_state (visible db') = Some (default 0 (lock_state (visible db))) /\
    schema (visible db') = schema (visible db) /\
    snapshot db' = snapshot db /\
    (3 <= length tr <= 6)%nat.
Proof.
  destruct (bootstrap_runs db) as (tr & db' & H & Hev & Hm & Hl & Hs & Hn).
  exists tr, db'. split; [done|]. split.
  { intros tr2 db2 r2 H2.
    destruct (Exec_deterministic _ _ _ _ _ _ _ _ _ H H2) as (-> & -> & ->). done. }
  split; [|split; [|split; [|split; [done|split; [done|]]]]].
  - split; [by rewrite Hm|]. eexists. split; [exact Hl|]. by rewrite lookup_insert_eq.
  - unfold ledger at 1. by rewrite Hm.
  - unfold lock_state at 1. rewrite Hl. cbn. by rewrite lookup_insert_eq.
  - replace (length tr) with (length (events tr)) by apply length_fmap.
    rewrite Hev, !length_app.
    repeat match goal with
    | |- context [length (@quiet_step _ ?A ?c ?k ?f)] =>
        pose proof (@quiet_step_length A c k f);
        generalize dependent (length (@quiet_step _ A c k f)); intros
    end.
    lia.
Qed.

(** X11.  The bootstrap is idempotent: against a database in which the
    tracking tables are in place it is the three look-ups and nothing
    else, and the database is as it was. *)
Theorem bootstrap_is_idempotent db :
  bootstrapped (visible db) ->
  exists tr v,
    Exec database db ensureMigrationTablesExists tr db (inr tt) /\
    lock_state (visible db) = Some v /\
    events tr
    = [ obs (GetTableMetadata MIGRATION_TABLE) (inr (Some (table_metadata MIGRATION_TABLE)));
        obs (GetTableMetadata MIGRATION_LOCK_TABLE)
          (inr (Some (table_metadata MIGRATION_LOCK_TABLE)));
        obs (SelectLockRow MIGRATION_LOCK_ID) (inr (Some (mkLockRow MIGRATION_LOCK_ID v))) ].
Proof.
  intros Hb. pose proof Hb as ([mrows Hm] & rows & Hl & [v Hv]).
  destruct (bootstrap_runs db) as (tr & db' & H & Hev & _).
  destruct (bootstrap_database _ _ _ _ H) as (_ & _ & _ & Hsame).
  rewrite (Hsame Hb) in H. exists tr, v. split; [done|].
  assert (lock_state (visible db) = Some v) as Hstate.
  { unfold lock_state. by rewrite Hl. }
  split; [done|]. rewrite Hev, Hm, Hl, Hstate. done.
Qed.

End DatabaseBootstrap.

Section DatabaseLock.

Context {Schema : Type}.
Implicit Types (db : Db Schema) (allMigrations : gmap string (Migration Schema)).

(** One attempt at a lock that is held, or whose row is missing, updates
    nothing and leaves the database as it is. *)
Lemma attempt_on_held_lock db answer db1 :
  is_Some (lock_rows (visible db)) ->
  lock_state (visible db) ≠ Some 0 ->
  database _ (UpdateLock 1 (Some 0) MIGRATION_LOCK_ID) db answer db1 ->
  answer = inr 0 /\ db1 = db.
Proof.
  intros [rows Hrows] Hheld. unfold database, graph.
  rewrite (database_UpdateLock _ _ _ _ Hrows).
  unfold lock_state in Hheld. rewrite Hrows in Hheld. cbn in Hheld.
  destruct (rows !! MIGRATION_LOCK_ID) as [current|]; [|by intros [= <- <-]].
  cbn. destruct (Z.eqb_spec current 0) as [->|_]; [done|]. by intros [= <- <-].
Qed.

Lemma acquireLock_blocked db tr db' r :
  is_Some (lock_rows (visible db)) ->
  lock_state (visible db) ≠ Some 0 ->
  ¬ Exec database db (@acquireLock Schema) tr db' r.
Proof.
  intros Hrows Hheld.
  remember (length tr) as len eqn:Hlen. revert tr Hlen.
  induction (lt_wf len) as [len _ IH]. intros tr -> H.
  unfold acquireLock in H. apply Exec_iter in H.
  apply Exec_bind_inv in H as (tr1 & db1 & lr & tr2 & Hbody & Hnext & ->).
  apply Exec_bind_inv in Hbody as (tra & dba & att & trb & Htry & Hafter & ->).
  apply tryAcquireLock_inv in Htry as (answer & Henv & -> & ->).
  apply attempt_on_held_lock in Henv as [-> ->]; [|done..]. cbn in Hafter.
  apply Exec_bind_inv in Hafter as (trs & dbs & [] & tre & Hsleep & Hret & ->).
  apply Exec_trigger_inv in Hsleep as [Hsleep ->].
  apply Exec_Ret_inv in Hret as (-> & -> & ->).
  assert (dbs = db) as ->.
  { unfold database, graph, db_handler in Hsleep. cbn in Hsleep.
    injection Hsleep as <-. apply with_visible_same. }
  eapply (IH (length tr2)); [|reflexivity|exact Hnext].
  rewrite !length_app. cbn. lia.
Qed.

Lemma acquire_free_lock db rows :
  lock_rows (visible db) = Some rows ->
  rows !! MIGRATION_LOCK_ID = Some 0 ->
  Exec database db (@acquireLock Schema) [(db, attempt (inr 1))]
    (with_visible db (set_lock_rows (visible db) (Some (<[MIGRATION_LOCK_ID := 1]> rows))))
    (inr tt).
Proof.
  intros Hrows Hrow. unfold acquireLock. apply Exec_iter.
  change [(db, attempt (inr 1))]
    with (([(db, attempt (inr 1))] ++ []) ++ @nil (Db Schema * Obs (dbE Schema))).
  eapply Exec_bind; [eapply Exec_bind|].
  - apply (tryAcquireLock_run database db (inr 1)).
    unfold database, graph. by rewrite (database_UpdateLock _ _ _ _ Hrows), Hrow.
  - cbn. apply Exec_Ret.
  - apply Exec_Ret.
Qed.

Lemma release_lock db rows :
  lock_rows (visible db) = Some rows ->
  is_Some (rows !! MIGRATION_LOCK_ID) ->
  Exec database db (@releaseLock Schema) [(db, release (inr 1))]
    (with_visible db (set_lock_rows (visible db) (Some (<[MIGRATION_LOCK_ID := 0]> rows))))
    (inr tt).
Proof.
  intros Hrows [v Hrow]. unfold releaseLock.
  change [(db, release (inr 1))]
    with ([(db, release (inr 1))] ++ @nil (Db Schema * Obs (dbE Schema))).
  eapply Exec_await_resolved; [|apply Exec_Ret].
  apply Exec_trigger. unfold database, graph.
  by rewrite (database_UpdateLock _ _ _ _ Hrows), Hrow.
Qed.

(** X12.  Against a database that the process has to itself,
    [acquireLock] does not return while the lock is held: when the lock
    table exists and the lock row is missing or has [is_locked] other than
    [0], no execution of [acquireLock] terminates. *)
Theorem held_lock_blocks db :
  is_Some (lock_rows (visible db)) ->
  lock_state (visible db) ≠ Some 0 ->
  ~ exists tr db' r, Exec database db (@acquireLock Schema) tr db' r.
Proof. intros Hrows Hheld (tr & db' & r & H). by eapply acquireLock_blocked. Qed.

(** X13.  Taking the lock and giving it back: when the lock is free,
    [acquireLock] succeeds at the first attempt and the lock is then held,
    so that another [acquireLock] would not return; [releaseLock] then
    puts the database back exactly as it was. *)
Theorem acquire_release_round_trip db :
  lock_state (visible db) = Some 0 ->
  exists db1,
    Exec database db (@acquireLock Schema) [(db, attempt (inr 1))] db1 (inr tt) /\
    lock_state (visible db1) = Some 1 /\
    (~ exists tr db' r, Exec database db1 (@acquireLock Schema) tr db' r) /\
    Exec database db1 (@releaseLock Schema) [(db1, release (inr 1))] db (inr tt).
Proof.
  intros Hfree. unfold lock_state in Hfree.
  destruct (lock_rows (visible db)) as [rows|] eqn:Hrows; [|done]. cbn in Hfree.
  eexists. split; [by apply (acquire_free_lock db rows)|].
  split; [|split].
  - unfold lock_state. cbn. by rewrite lookup_insert_eq.
  - intros (tr & db' & r & H). eapply acquireLock_blocked; [| |exact H].
    + by eexists.
    + unfold lock_state. cbn. by rewrite lookup_insert_eq.
  - match goal with
    | |- Exec _ ?db1 _ _ _ _ =>
        pose proof (release_lock db1 (<[MIGRATION_LOCK_ID := 1]> rows) eq_refl) as H
    end.
    rewrite lookup_insert_eq, insert_insert_eq, (insert_id rows _ _ Hfree) in H.
    match type of H with
    | _ -> Exec _ _ _ _ ?final _ => assert (final = db) as Heq
    end.
    { destruct db as [[m l s] n]. cbn in *. by subst. }
    rewrite Heq in H. apply H. by eexists.
Qed.

End DatabaseLock.

Section DatabaseCall.

Context {Schema : Type}.
Implicit Types (db : Db Schema) (allMigrations : gmap string (Migration Schema)).

Lemma migration_is_up (o : Obs (dbE Schema)) :
  kind o = of_migration -> exists m, called_up o = Some m.
Proof. destruct o as [X e x]. destruct e; cbn; try done. by eexists. Qed.

(** [runNewMigrations] leaves the lock table and the transaction alone
    when the forward operations of the set leave the lock table alone. *)
Lemma run_keeps_lock allMigrations db tr db' r :
  map_Forall (fun _ mig => keeps_lock (up mig)) allMigrations ->
  Exec database db (runNewMigrations allMigrations) tr db' r ->
  lock_rows (visible db') = lock_rows (visible db) /\ snapshot db' = snapshot db.
Proof.
  intros Hall H.
  set (P := fun o : Obs (dbE Schema) =>
              kind o = of_ledger \/ exists m, called_up o = Some m /\ keeps_lock (nm_up m)).
  set (same := fun w w' : Db Schema =>
                 lock_rows (visible w') = lock_rows (visible w) /\ snapshot w' = snapshot w).
  assert (Reflexive same) by (by intros ?).
  assert (Transitive same).
  { intros ? ? ? [? ?] [? ?]. unfold same. split; congruence. }
  eapply (Exec_preserves db_handler P same); [|exact H|].
  - intros X e w0. unfold P, same, db_handler.
    destruct e; cbn; try (by intros [[=]|(m & [=] & _)]); intros HP.
    + by destruct (migration_rows (visible w0)).
    + destruct (migration_rows (visible w0)) as [rows|]; [|done].
      by destruct (bool_decide _).
    + destruct HP as [[=]|(m & [= <-] & Hk)]. specialize (Hk (visible w0)).
      by destruct (nm_up migration (visible w0)).
  - apply Forall_forall. intros entry Hin.
    pose proof (runNewMigrations_within _ _ _ _ _ _ _ H) as Hkinds.
    rewrite Forall_forall in Hkinds. destruct (Hkinds entry Hin) as [Hk|Hk]; [|by left].
    right. destruct (migration_is_up _ Hk) as [m Hm]. exists m. split; [done|].
    destruct (run_calls _ _ _ _ _ _ _ _ H Hin Hm) as (n & mig & Hmig & ->).
    exact (Hall n mig Hmig).
Qed.

(** After a successful execution under I1 in which the forward operations
    left the ledger table alone, the ledger holds the names of the set. *)
Lemma run_completes_ledger allMigrations db executed tr db' :
  migration_rows (visible db) = Some executed ->
  I1 allMigrations executed ->
  Exec database db (runNewMigrations allMigrations) tr db' (inr tt) ->
  Forall up_kept_ledger tr ->
  exists rows,
    migration_rows (visible db') = Some rows /\
    executed_names rows = sorted_names allMigrations.
Proof.
  intros Hrows HI1 H Hkept.
  destruct (run_database _ _ _ _ _ _ Hrows HI1 H Hkept)
    as (_ & done & rest & Hsplit & Hrows' & -> & _).
  rewrite app_nil_r in Hsplit. subst done.
  destruct (validate_ok _ _ HI1) as (_ & Hnames & Hall). rewrite Hnames in Hrows'.
  eexists. split; [exact Hrows'|].
  apply sort_unique; [apply executed_names_strict|apply sorted_names_strict|].
  intros n. rewrite elem_of_executed_names.
  rewrite Hall, elem_of_app, elem_of_executed_names. set_solver.
Qed.

(** When the ledger holds the names of the set there is nothing to do. *)
Lemma run_up_to_date allMigrations db executed :
  migration_rows (visible db) = Some executed ->
  executed_names executed = sorted_names allMigrations ->
  Exec database db (runNewMigrations allMigrations)
    [(db, obs SelectMigrationNames (inr (sorted_names allMigrations)))] db (inr tt).
Proof.
  intros Hrows Hnames.
  assert (I1 allMigrations executed) as HI1 by (unfold I1; by rewrite Hnames).
  destruct (validate_ok _ _ HI1) as (Hval & _ & Hall).
  assert (pending allMigrations executed = []) as Hnone.
  { rewrite Hnames in Hall. symmetry in Hall.
    apply (app_inv_head (sorted_names allMigrations)). by rewrite app_nil_r. }
  rewrite Hnone in Hval. cbn in Hval.
  apply runNewMigrations_exec. exists (inr (executed_names executed)), db. split.
  - unfold database, graph, db_handler. cbn. rewrite Hrows. by destruct db.
  - rewrite Hval. exists []. rewrite Hnames. split; [done|]. apply Exec_Ret.
Qed.

(** X14.  A call that is rejected changes nothing but the tracking tables
    that the bootstrap made: against the database, when
    [doMigrateToLatest] is rejected, whatever the reason, the bootstrap had
    succeeded, the trace ends with the rollback, and the database holds
    what it held when the bootstrap was done.  Ledger and target schema
    are as before the call, and when the tracking tables were in place
    everything is. *)
Theorem rejected_call_changes_nothing allMigrations db tr db' err :
  Exec database db (doMigrateToLatest allMigrations) tr db' (inl err) ->
  (exists tr0 db0 tr1,
     Exec database db ensureMigrationTablesExists tr0 db0 (inr tt) /\
     tr = tr0 ++ tr1 /\
     last (events tr1) = Some (obs Rollback tt) /\
     visible db' = visible db0 /\
     snapshot db' = None) /\
  schema (visible db') = schema (visible db) /\
  ledger db' = ledger db /\
  (bootstrapped (visible db) -> visible db' = visible db).
Proof.
  intros H.
  apply doMigrateToLatest_inv in H as [(e & H & _)|(tr0 & db0 & tr1 & Hboot & H & ->)].
  { destruct (bootstrap_runs db) as (tr2 & db2 & H2 & _).
    by destruct (Exec_deterministic _ _ _ _ _ _ _ _ _ H H2) as (_ & _ & [=]). }
  destruct (bootstrap_database _ _ _ _ Hboot) as (Hschema & Hledger & _ & Hsame).
  apply transaction_inv in H as [(e & Hbegin & _)|(db1 & trc & dbc & outcome & Hbegin & H & Hend)].
  { by injection Hbegin. }
  injection Hbegin as <-.
  pose proof (snapshot_kept _ _ _ _ _ H (locked_run_within _ _ _ _ _ _ _ H)) as Hsnap.
  cbn in Hsnap.
  destruct outcome as [e|[]].
  2: { destruct Hend as ([e|[]] & Hcommit & _ & [=]). by injection Hcommit. }
  destruct Hend as (Hroll & -> & _). injection Hroll as <-.
  cbn. rewrite Hsnap. cbn.
  split; [|split; [done|split; [done|]]].
  - exists tr0, db0. eexists. split; [done|]. split; [done|].
    split; [|done]. rewrite events_cons, events_app, last_cons.
    change (events [(dbc, obs Rollback tt)]) with [@obs (dbE Schema) unit Rollback tt].
    by rewrite last_snoc.
  - intros Hb. by rewrite (Hsame Hb).
Qed.

End DatabaseCall.

Section DatabaseWhole.

Context {Schema : Type}.
Implicit Types (db : Db Schema) (allMigrations : gmap string (Migration Schema)).

Lemma no_up_in_bootstrap (evs : list (Obs (dbE Schema))) :
  Forall bootstrap_event evs -> omap called_up evs = [].
Proof.
  induction 1 as [|o evs Ho _ IH]; [done|]. cbn. rewrite IH.
  destruct o as [X e x]. by destruct e.
Qed.

Lemma ups_of_applied (done : list (NamedMigration Schema)) :
  omap called_up (done ≫= applied) = done.
Proof. induction done as [|m done IH]; [done|]. cbn. by rewrite IH. Qed.

Lemma call_succeeds allMigrations db :
  I1 allMigrations (ledger db) ->
  default 0 (lock_state (visible db)) = 0 ->
  map_Forall (fun _ mig => well_behaved (up mig)) allMigrations ->
  exists tr db' new,
    Exec database db (doMigrateToLatest allMigrations) tr db' (inr tt) /\
    name <$> new = pending allMigrations (ledger db) /\
    Forall (from_set allMigrations) new /\
    omap called_up (events tr) = new /\
    executed_names (ledger db') = sorted_names allMigrations /\
    lock_state (visible db') = Some 0 /\
    snapshot db' = None.
Proof.
  intros HI1 Hfree Hall.
  destruct (bootstrap_runs db) as (tr0 & db0 & Hboot & _ & Hm0 & Hl0 & _ & _).
  rewrite Hfree in Hl0. set (rows0 := <[MIGRATION_LOCK_ID := 0]> _) in Hl0.
  assert (rows0 !! MIGRATION_LOCK_ID = Some 0) as Hrow0 by apply lookup_insert_eq.
  pose (db1 := mkDb (visible db0) (Some (visible db0))).
  assert (database _ Begin db0 (inr tt) db1) as Hbegin by (by destruct db0).
  pose proof (acquire_free_lock db1 rows0 Hl0 Hrow0) as Hacq.
  set (db2 := with_visible db1 _) in Hacq.
  destruct (run_succeeds allMigrations db2 (ledger db)) as (trr & db3 & Hrun & _ & Hkept);
    [exact Hm0|exact HI1| |].
  2: destruct (run_database allMigrations db2 (ledger db) trr db3 (inr tt) Hm0 HI1 Hrun Hkept)
       as (_ & done & rest & Hsplit & _ & -> & Hevr).
  2: rewrite app_nil_r in Hsplit.
  { eapply map_Forall_impl; [exact Hall|]. by intros n mig (? & ? & ?). }
  destruct (run_completes_ledger allMigrations db2 (ledger db) trr db3 Hm0 HI1 Hrun Hkept)
    as (rows3 & Hm3 & Hnames).
  destruct (run_keeps_lock allMigrations db2 trr db3 (inr tt)) as [Hl3 Hn3]; [|exact Hrun|].
  { eapply map_Forall_impl; [exact Hall|]. by intros n mig (? & ? & ?). }
  cbn in Hl3, Hn3.
  pose proof (release_lock db3 _ Hl3) as Hrel.
  rewrite lookup_insert_eq in Hrel. specialize (Hrel (mk_is_Some _ _ eq_refl)).
  set (db4 := with_visible db3 _) in Hrel.
  pose (db5 := mkDb (visible db4) None).
  assert (database _ Commit db4 (inr tt) db5) as Hcommit by done.
  exists (tr0 ++ [(db0, obs Begin (inr tt))]
            ++ ([(db1, attempt (inr 1))] ++ trr ++ [(db3, release (inr 1))])
            ++ [(db4, obs Commit (inr tt))] ++ []), db5,
    (omap (lookup_named allMigrations) (pending allMigrations (ledger db))).
  split; [|split; [|split; [|split; [|split; [|split; [|done]]]]]].
  2: apply (validate_ok _ _ HI1).
  2: { apply Forall_forall. intros m Hm. by eapply lookup_named_from_set. }
  - unfold doMigrateToLatest. eapply Exec_await_resolved; [exact Hboot|].
    unfold transaction. eapply Exec_await_resolved; [by apply Exec_trigger|].
    eapply Exec_bind.
    + eapply Exec_await_resolved; [exact Hacq|].
      eapply Exec_await_resolved; [exact Hrun|exact Hrel].
    + cbn. eapply (Exec_await_resolved database db4 _ _ [(db4, obs Commit (inr tt))] db5 tt []);
        [by apply Exec_trigger|]. apply Exec_Ret.
  - rewrite !events_app, !omap_app, Hevr, Hsplit.
    rewrite (no_up_in_bootstrap (events tr0)) by (by eapply bootstrap_events).
    cbn. by rewrite ups_of_applied, !app_nil_r.
  - unfold ledger. cbn. by rewrite Hm3.
  - unfold lock_state. cbn. by rewrite lookup_insert_eq.
Qed.

(** X15.  The whole call succeeds: against a database whose ledger
    satisfies I1 and whose lock is not held (or not there yet), with
    forward operations that resolve and leave the tracking tables alone,
    [doMigrateToLatest] has an execution that succeeds; the forward
    operations it calls are those the set holds under the pending names,
    one call for each pending name, in sorted order, and afterwards the
    ledger holds exactly the names of the set, the lock is free and no
    transaction is open. *)
Theorem call_brings_up_to_date allMigrations db :
  I1 allMigrations (ledger db) ->
  default 0 (lock_state (visible db)) = 0 ->
  map_Forall (fun _ mig => well_behaved (up mig)) allMigrations ->
  exists tr db' new,
    Exec database db (doMigrateToLatest allMigrations) tr db' (inr tt) /\
    name <$> new = pending allMigrations (ledger db) /\
    Forall (from_set allMigrations) new /\
    omap called_up (events tr) = new /\
    executed_names (ledger db') = sorted_names allMigrations /\
    lock_state (visible db') = Some 0 /\
    snapshot db' = None.
Proof. apply call_succeeds. Qed.

(** X16.  Running again applies nothing: after a successful
    [runNewMigrations] from a ledger that satisfies I1, in which the
    forward operations left the ledger table alone, a second
    [runNewMigrations] with the same set reads the ledger, finds all the
    names of the set, and succeeds without calling a forward operation or
    inserting a name; the database is not changed. *)
Theorem second_run_applies_nothing allMigrations db executed tr db' :
  migration_rows (visible db) = Some executed ->
  I1 allMigrations executed ->
  Exec database db (runNewMigrations allMigrations) tr db' (inr tt) ->
  Forall up_kept_ledger tr ->
  Exec database db' (runNewMigrations allMigrations)
    [(db', obs SelectMigrationNames (inr (sorted_names allMigrations)))] db' (inr tt).
Proof.
  intros Hrows HI1 H Hkept.
  destruct (run_completes_ledger _ _ _ _ _ Hrows HI1 H Hkept) as (rows & Hrows' & Hnames).
  by eapply run_up_to_date.
Qed.

End DatabaseWhole.

Section DatabaseHang.

Context {Schema : Type}.
Implicit Types (db : Db Schema) (allMigrations : gmap string (Migration Schema)).

Lemma call_blocked allMigrations db v tr db' r :
  lock_state (visible db) = Some v ->
  v ≠ 0 ->
  ¬ Exec database db (doMigrateToLatest allMigrations) tr db' r.
Proof.
  intros Hstate Hv H.
  destruct (bootstrap_runs db) as (tr0 & db0 & Hboot & _ & _ & Hl0 & _ & _).
  apply doMigrateToLatest_inv in H as [(e & H & _)|(tr0' & db0' & tr1 & Hboot' & H & ->)].
  { by destruct (Exec_deterministic _ _ _ _ _ _ _ _ _ H Hboot) as (_ & _ & [=]). }
  destruct (Exec_deterministic _ _ _ _ _ _ _ _ _ Hboot' Hboot) as (-> & -> & _).
  apply transaction_inv in H as [(e & Hbegin & _)|(db1 & trc & dbc & outcome & Hbegin & H & _)].
  { by injection Hbegin. }
  injection Hbegin as <-.
  assert (forall tra dba ra, ¬ Exec database
            (with_visible (transact Begin db0) (visible (transact Begin db0)))
            (@acquireLock Schema) tra dba ra) as Hblocked.
  { intros tra dba ra. apply acquireLock_blocked; cbn.
    - rewrite Hl0. by eexists.
    - unfold lock_state. rewrite Hl0, Hstate. cbn. rewrite lookup_insert_eq.
      intros [= ->]. done. }
  apply locked_run_inv in H as [(e & H & _)|(tra & dba & trb & H & _)];
    by apply Hblocked in H.
Qed.

(** X17.  A lock that is held hangs the call: against a database that the
    process has to itself and in which the lock row has [is_locked] other
    than [0], a call of [doMigrateToLatest] never returns, whatever the
    migrations are; it has no terminating execution, with any result. *)
Theorem held_lock_hangs_the_call allMigrations db v :
  lock_state (visible db) = Some v ->
  v ≠ 0 ->
  forall tr db' r, ¬ Exec database db (doMigrateToLatest allMigrations) tr db' r.
Proof. intros Hstate Hv tr db' r. by apply (call_blocked _ _ v). Qed.

End DatabaseHang.

Section Exactness.

Context {Schema : Type}.
Implicit Types (db : Db Schema) (allMigrations : gmap string (Migration Schema)).

(** The checks let through only a ledger that satisfies I1. *)
Lemma validate_passed_I1 allMigrations (executed : gset string) new :
  validate allMigrations (executed_names executed) = inr new ->
  I1 allMigrations executed.
Proof.
  intros (old & Hsplit & Hsame)%validate_passed.
  pose proof (sorted_names_strict allMigrations) as Hs.
  rewrite <- sortedMigrations_names, Hsplit, fmap_app in Hs.
  assert (executed_names executed = name <$> old) as Hnames.
  { apply sort_unique; [apply executed_names_strict| |done].
    by apply StronglySorted_app_1_l in Hs. }
  unfold I1. rewrite Hnames, <- sortedMigrations_names, Hsplit, fmap_app.
  by eexists.
Qed.

(** X18.  The checks of [runNewMigrations] reject exactly the ledgers
    that violate I1: against the database, the execution that reads the
    ledger and is rejected there, before any forward operation, exists if
    and only if the executed names are not a prefix of the sorted names of
    the migration set. *)
Theorem corrupted_exactly_without_I1 allMigrations db executed :
  migration_rows (visible db) = Some executed ->
  (exists err,
     Exec database db (runNewMigrations allMigrations)
       [(db, obs SelectMigrationNames (inr (executed_names executed)))] db (inl err))
  <-> ¬ I1 allMigrations executed.
Proof.
  intros Hrows. split.
  - intros (err & H) HI1. destruct (validate_ok _ _ HI1) as (Hval & _).
    apply runNewMigrations_exec in H as (answer & db1 & Hsel & H).
    apply (database_SelectMigrationNames _ _ _ _ Hrows) in Hsel as [-> ->].
    rewrite Hval in H. destruct H as (tr2 & [= <-] & H).
    apply forOf_courses in H. inversion H as [|done m rest e Hnew Hev|done m rest e Hnew Hev];
      symmetry in Hev; by apply app_cons_not_nil in Hev.
  - intros Hnot.
    destruct (validate allMigrations (executed_names executed)) as [err|new] eqn:Hval.
    + exists err. by apply run_rejected.
    + by apply validate_passed_I1 in Hval.
Qed.

End Exactness.

(** ** Witnesses *)

Lemma failed_ups_elem {Schema W} (tr : Trace (dbE Schema) W) err :
  err ∈ failed_ups tr -> exists entry, entry ∈ tr /\ up_failed err entry.2.
Proof.
  unfold failed_ups. intros (entry & Hin & Herr)%list_elem_of_omap.
  exists entry. split; [done|]. unfold up_failed.
  destruct (called_up entry.2); [|done]. split; [by eexists|done].
Qed.

Lemma three_behaved :
  map_Forall (fun _ mig => succeeds (up mig) /\ keeps_ledger (up mig)) Sample.three.
Proof.
  unfold Sample.three, Sample.two.
  repeat apply map_Forall_insert_2; try apply map_Forall_empty; by split.
Qed.

Lemma three_I1 : I1 Sample.three {["001_init"]}.
Proof. exists ["002_users"; "003_posts"]. vm_compute. reflexivity. Qed.

(** The run in which the forward operation of [002_users] empties the
    ledger table: it succeeds, and the ledger ends with that one name. *)
Lemma second_forgets_run :
  exists tr db',
    Exec database (Sample.ready {["001_init"]}) (runNewMigrations Sample.second_forgets)
      tr db' (inr tt) /\
    executed_names (ledger db') = ["002_users"].
Proof.
  assert ((fun '(tr, db, r) => (executed_names (ledger db), r))
            <$> run db_handler 20 (Sample.ready {["001_init"]})
                  (runNewMigrations Sample.second_forgets)
          = Some (["002_users"], inr tt)) as Hout by (vm_compute; reflexivity).
  destruct (run db_handler 20 (Sample.ready {["001_init"]})
              (runNewMigrations Sample.second_forgets))
    as [[[tr db'] r]|] eqn:Hrun; [|discriminate Hout].
  injection Hout as Hnames ->. apply run_sound in Hrun. by exists tr, db'.
Qed.

Lemma second_forgets_I1 : I1 Sample.second_forgets {["001_init"]}.
Proof. exists ["002_users"]. vm_compute. reflexivity. Qed.

(** The run in which the forward operation of [002_users] is rejected:
    it fails, and the ledger is as it was. *)
Lemma second_fails_run :
  exists tr db' err,
    Exec database (Sample.ready {["001_init"]}) (runNewMigrations Sample.second_fails)
      tr db' (inl err) /\
    executed_names (ledger db') = ["001_init"].
Proof.
  assert ((fun '(tr, db, r) => (executed_names (ledger db), r))
            <$> run db_handler 20 (Sample.ready {["001_init"]})
                  (runNewMigrations Sample.second_fails)
          = Some (["001_init"], inl (JS.new_Error "boom"))) as Hout
    by (vm_compute; reflexivity).
  destruct (run db_handler 20 (Sample.ready {["001_init"]})
              (runNewMigrations Sample.second_fails))
    as [[[tr db'] r]|] eqn:Hrun; [|discriminate Hout].
  injection Hout as Hnames ->. apply run_sound in Hrun. by exists tr, db', (JS.new_Error "boom").
Qed.

(** C1 as it was claimed fails here, in two ways.  The ledger [001_init]
    satisfies I1 for both sets.  With the first the run succeeds, and the
    executed name [001_init] is no longer in the ledger, because the
    forward operation of [002_users] emptied the table.  With the second
    the pending migration [002_users] is not applied: its forward
    operation is rejected, the run fails and the name is not inserted. *)
Lemma pending_applied_in_order_counterexample :
  migration_rows (visible (Sample.ready {["001_init"]})) = Some {["001_init"]} /\
  (I1 Sample.second_forgets {["001_init"]} /\
   exists tr db',
     Exec database (Sample.ready {["001_init"]}) (runNewMigrations Sample.second_forgets)
       tr db' (inr tt) /\
     "001_init" ∉ ledger db') /\
  (I1 Sample.second_fails {["001_init"]} /\
   "002_users" ∈ pending Sample.second_fails {["001_init"]} /\
   exists tr db' err,
     Exec database (Sample.ready {["001_init"]}) (runNewMigrations Sample.second_fails)
       tr db' (inl err) /\
     "002_users" ∉ ledger db').
Proof.
  split; [reflexivity|]. split.
  - split; [exact second_forgets_I1|].
    destruct second_forgets_run as (tr & db' & H & Hnames).
    exists tr, db'. split; [exact H|].
    rewrite <- elem_of_executed_names, Hnames. apply not_elem_of_cons.
    split; [discriminate|apply not_elem_of_nil].
  - split; [exists ["002_users"]; vm_compute; reflexivity|].
    split; [apply (bool_decide_unpack _); vm_compute; exact I|].
    destruct second_fails_run as (tr & db' & err & H & Hnames).
    exists tr, db', err. split; [exact H|].
    rewrite <- elem_of_executed_names, Hnames. apply not_elem_of_cons.
    split; [discriminate|apply not_elem_of_nil].
Qed.

(** C5 as it was claimed fails here: the ledger [001_init] satisfies I1
    for the set and the run succeeds, but the ledger it leaves, the one
    name [002_users], is not a prefix of the sorted names [001_init],
    [002_users] of the set. *)
Lemma I1_preserved_counterexample :
  migration_rows (visible (Sample.ready {["001_init"]})) = Some {["001_init"]} /\
  I1 Sample.second_forgets {["001_init"]} /\
  exists tr db',
    Exec database (Sample.ready {["001_init"]}) (runNewMigrations Sample.second_forgets)
      tr db' (inr tt) /\
    ¬ I1 Sample.second_forgets (ledger db').
Proof.
  split; [reflexivity|]. split; [exact second_forgets_I1|].
  destruct second_forgets_run as (tr & db' & H & Hnames).
  exists tr, db'. split; [exact H|].
  unfold I1. rewrite Hnames. intros [rest Hrest]. vm_compute in Hrest. discriminate Hrest.
Qed.

(** C8 as it was claimed fails here: the empty ledger satisfies I1, the
    forward operation of [001_init] records that name itself, and the
    insert of the loop that follows it is rejected as a duplicate. *)
Lemma inserts_are_fresh_counterexample :
  migration_rows (visible (Sample.ready ∅)) = Some ∅ /\
  I1 Sample.first_records_itself ∅ /\
  exists tr db' entry,
    Exec database (Sample.ready ∅) (runNewMigrations Sample.first_records_itself)
      tr db' (inl duplicate_key) /\
    entry ∈ tr /\
    inserted_name entry.2 = Some "001_init" /\
    "001_init" ∈ ledger entry.1 /\
    rejection entry.2 = Some duplicate_key /\
    ¬ insert_fresh entry.
Proof.
  split; [reflexivity|]. split.
  { unfold I1, executed_names. rewrite elements_empty. apply prefix_nil. }
  assert (Sample.inserts (run db_handler 20 (Sample.ready ∅)
                            (runNewMigrations Sample.first_records_itself))
          = Some ([("001_init"%string, true, Some duplicate_key)], inl duplicate_key)) as Hout
    by (vm_compute; reflexivity).
  destruct (run db_handler 20 (Sample.ready ∅)
              (runNewMigrations Sample.first_records_itself))
    as [[[tr db'] r]|] eqn:Hrun; [|discriminate Hout].
  injection Hout as Hins ->. apply run_sound in Hrun.
  assert (("001_init"%string, true, Some duplicate_key) ∈ omap Sample.insert_of tr) as Hin
    by (rewrite Hins; left).
  apply list_elem_of_omap in Hin as (entry & Hentry & Hin). unfold Sample.insert_of in Hin.
  destruct (inserted_name entry.2) as [n|] eqn:Hname; [|discriminate Hin].
  injection Hin as -> Hold Hrej.
  apply bool_decide_eq_true_1, elem_of_executed_names in Hold.
  exists tr, db', entry. repeat split; try done.
  intros Hfresh. destruct (Hfresh "001_init" Hname) as [Hnew _]. done.
Qed.

Lemma pending_applied_in_order_witness :
  exists tr db',
    Exec database (Sample.ready {["001_init"]}) (runNewMigrations Sample.three) tr db' (inr tt) /\
    migration_rows (visible db')
    = Some ({["001_init"]} ∪ list_to_set (pending Sample.three {["001_init"]})).
Proof.
  destruct (pending_applied_in_order Sample.three (Sample.ready {["001_init"]}) {["001_init"]}
              eq_refl three_I1)
    as (tr & db' & r & new & H & Hone & _ & _ & _ & _ & _ & _ & Hthen).
  destruct (run_succeeds Sample.three (Sample.ready {["001_init"]}) {["001_init"]}
              eq_refl three_I1 three_behaved) as (tr0 & db0 & H0 & Hres & Hkept).
  destruct (Hone _ _ _ H0) as (-> & -> & ->).
  destruct (Hthen Hres Hkept) as [_ Hrows].
  exists tr, db'. split; [exact H|exact Hrows].
Defined.

Lemma failed_up_rolls_back_witness :
  exists tr db' err,
    Exec database Sample.fresh (doMigrateToLatest Sample.second_fails) tr db' (inl err) /\
    ledger db' = ledger Sample.fresh /\
    schema (visible db') = schema (visible Sample.fresh).
Proof.
  assert ((fun '(tr, _, _) => failed_ups tr)
            <$> run db_handler 60 Sample.fresh (doMigrateToLatest Sample.second_fails)
          = Some [JS.new_Error "boom"]) as Hfailed by (vm_compute; reflexivity).
  destruct (run db_handler 60 Sample.fresh (doMigrateToLatest Sample.second_fails))
    as [[[tr db'] r]|] eqn:Hrun; [|discriminate Hfailed].
  injection Hfailed as Hfailed. apply run_sound in Hrun.
  destruct (failed_ups_elem tr (JS.new_Error "boom")) as (entry & Hin & Hup).
  { rewrite Hfailed. left. }
  destruct (failed_up_rolls_back _ _ _ _ _ _ _ Hrun Hin Hup) as (-> & _ & Hledger & Hschema & _).
  exists tr, db', (JS.new_Error "boom"). split; [exact Hrun|]. split; [exact Hledger|exact Hschema].
Defined.

Lemma executed_missing_rejected_witness :
  exists n,
    Exec database (Sample.ready {["001_init"; "002_users"]}) (runNewMigrations Sample.only_first)
      [(Sample.ready {["001_init"; "002_users"]},
        obs SelectMigrationNames (inr (executed_names {["001_init"; "002_users"]})))]
      (Sample.ready {["001_init"; "002_users"]})
      (inl (JS.new_Error (msg_missing n))).
Proof.
  destruct (executed_missing_rejected Sample.only_first
              (Sample.ready {["001_init"; "002_users"]}) {["001_init"; "002_users"]}
              "002_users") as (n & _ & _ & H & _).
  - reflexivity.
  - set_solver.
  - vm_compute. reflexivity.
  - exists n. exact H.
Defined.

Lemma new_before_last_rejected_witness :
  exists n,
    Exec database (Sample.ready {["002_users"]}) (runNewMigrations Sample.new_in_the_past)
      [(Sample.ready {["002_users"]},
        obs SelectMigrationNames (inr (executed_names {["002_users"]})))]
      (Sample.ready {["002_users"]})
      (inl (JS.new_Error (msg_before n))).
Proof.
  destruct (new_before_last_rejected Sample.new_in_the_past
              (Sample.ready {["002_users"]}) {["002_users"]} "002_users" "001_new")
    as (n & _ & _ & _ & _ & H & _).
  - reflexivity.
  - intros n ->%elem_of_singleton. apply (bool_decide_unpack _). vm_compute. exact I.
  - vm_compute. reflexivity.
  - apply (bool_decide_unpack _). vm_compute. exact I.
  - apply not_elem_of_singleton. discriminate.
  - reflexivity.
  - exists n. exact H.
Defined.

(** C4 as it was claimed fails here: the set has the unexecuted name
    [001_new], which sorts before the last executed name [002_users], and
    no execution is rejected with the error about a new migration that
    comes before the last executed one; [002_users] is not in the set, and
    the error is the one about the missing migration. *)
Lemma new_before_last_counterexample :
  migration_rows (visible (Sample.ready {["002_users"]})) = Some {["002_users"]} /\
  getLast (executed_names {["002_users"]}) = Some "002_users" /\
  is_Some (Sample.only_new !! "001_new") /\
  ("001_new" ∉ ({["002_users"]} : gset string)) /\
  JS.lt "001_new" "002_users" /\
  ~ exists n tr db',
      Exec database (Sample.ready {["002_users"]}) (runNewMigrations Sample.only_new)
        tr db' (inl (JS.new_Error (msg_before n))).
Proof.
  split; [reflexivity|]. split; [vm_compute; reflexivity|].
  split; [apply (bool_decide_unpack _); vm_compute; exact I|].
  split; [apply not_elem_of_singleton; discriminate|]. split; [reflexivity|].
  intros (n & tr & db' & H).
  destruct (validate_missing Sample.only_new {["002_users"]} "002_users")
    as (k & Hval & _); [set_solver|vm_compute; reflexivity|].
  pose proof (run_rejected Sample.only_new (Sample.ready {["002_users"]}) _ _ eq_refl Hval)
    as Hmissing.
  destruct (Exec_deterministic _ _ _ _ _ _ _ _ _ H Hmissing) as (_ & _ & Heq).
  assert (msg_missing k = msg_before n) as Habs by congruence.
  by apply msg_distinct in Habs.
Qed.

Lemma I1_preserved_witness :
  exists tr db',
    Exec database (Sample.ready {["001_init"]}) (runNewMigrations Sample.three) tr db' (inr tt) /\
    I1 Sample.three (ledger db') /\
    executed_names (ledger db') = sorted_names Sample.three.
Proof.
  destruct (run_succeeds Sample.three (Sample.ready {["001_init"]}) {["001_init"]}
              eq_refl three_I1 three_behaved) as (tr & db' & H & _ & Hkept).
  exists tr, db'. split; [exact H|].
  exact (I1_preserved Sample.three (Sample.ready {["001_init"]}) {["001_init"]} tr db'
           eq_refl three_I1 H Hkept).
Defined.

Lemma inserts_are_fresh_witness :
  exists tr db',
    Exec database (Sample.ready {["001_init"]}) (runNewMigrations Sample.three) tr db' (inr tt) /\
    Forall insert_fresh tr.
Proof.
  destruct (run_succeeds Sample.three (Sample.ready {["001_init"]}) {["001_init"]}
              eq_refl three_I1 three_behaved) as (tr & db' & H & _ & Hkept).
  exists tr, db'. split; [exact H|].
  exact (proj2 (proj2 (proj2
           (inserts_are_fresh Sample.three (Sample.ready {["001_init"]}) {["001_init"]}
              tr db' (inr tt) eq_refl three_I1 H))) Hkept).
Defined.

Lemma acquireLock_polls_witness :
  exists tr,
    Exec anything tt (@acquireLock Sample.Schema) tr tt (inr tt) /\
    events tr = retries [0; 0; 2] ++ [attempt (inr 1)].
Proof.
  apply (proj2 (proj2 (@acquireLock_polls Sample.Schema)) [0; 0; 2]).
  repeat constructor; discriminate.
Defined.

Lemma bootstrap_race_tolerant_witness :
  exists tr,
    Exec anything tt (@ensureMigrationTableExists Sample.Schema) tr tt (inr tt) /\
    events tr
    = [ obs (GetTableMetadata MIGRATION_TABLE) (inr None);
        obs (CreateTableIfNotExists MIGRATION_TABLE migration_table_columns)
          (inl (JS.new_Error "table exists"));
        obs (GetTableMetadata MIGRATION_TABLE) (inr (Some (table_metadata MIGRATION_TABLE))) ].
Proof.
  apply (proj2 (proj1 (@bootstrap_race_tolerant Sample.Schema))).
  apply lost_the_race.
Defined.

Lemma loader_contract_witness :
  let mods : list (@Loaded Sample.Schema) :=
    (fun file => (file, Sample.load file))
      <$> filter (fun file => eligible file = true) Sample.folder in
  (exists tr,
     Exec anything tt (readMigrationsFromFolder "migrations") tr tt (inr (collect ∅ mods)) /\
     events tr = obs (Readdir "migrations") (inr Sample.folder) :: (imported "migrations" <$> mods)) /\
  mods.*1 = ["x.js"; "README.ts"; "x.ts"] /\
  collect ∅ mods !! "x" = Some (asMigration (Sample.load "x.ts")).
Proof.
  cbn zeta. split; [|split].
  - apply (proj1 (proj2 (@loader_contract Sample.Schema)) "migrations" Sample.folder Sample.load).
    assert (filter (fun file => eligible file = true) Sample.folder
            = ["x.js"; "README.ts"; "x.ts"]) as -> by (vm_compute; reflexivity).
    cbn [fmap list_fmap].
    repeat first
      [ apply List.Forall_nil
      | apply List.Forall_cons;
        [vm_compute; intros; match goal with H : _ |- _ => discriminate H end|] ].
  - vm_compute. reflexivity.
  - exact (proj2 (proj2 (proj2 (proj2 (proj2 (proj2 (proj2 (proj2 (proj2
             (@loader_contract Sample.Schema)))))))))
             "x" (Sample.load "x.js") (Sample.load "x.ts")
             [] [("README.ts", Sample.load "README.ts")] [] eq_refl (List.Forall_nil _)).
Defined.

(** C10 as it was claimed fails here, in two ways.  When the folder lists
    the one file [broken.js], whose import is rejected, the file is not
    part of the result, and it is not skipped without error either: the
    call fails with the error of the import.  When the folder lists the
    one file [__proto__.js], which holds a migration, the result has no
    migration of the name [__proto__], the file name without its last
    three characters. *)
Lemma loader_contract_counterexample :
  (eligible "broken.js" = true /\
   exists tr,
     Exec anything tt (@readMigrationsFromFolder Sample.Schema "migrations") tr tt
       (inl (JS.new_Error "Cannot find module")) /\
     events tr = [ obs (Readdir "migrations") (inr ["broken.js"]);
                   obs (Import "migrations" "broken.js")
                     (inl (JS.new_Error "Cannot find module")) ]) /\
  (eligible "__proto__.js" = true /\
   stem "__proto__.js" = "__proto__" /\
   isMigration (Sample.load "__proto__.js") = true /\
   exists tr result,
     Exec anything tt (readMigrationsFromFolder "migrations") tr tt (inr result) /\
     events tr = [ obs (Readdir "migrations") (inr ["__proto__.js"]);
                   imported "migrations" ("__proto__.js", Sample.load "__proto__.js") ] /\
     result !! "__proto__" = None).
Proof.
  split.
  - split; [reflexivity|].
    exists [(tt, obs (Readdir "migrations") (inr ["broken.js"]));
            (tt, obs (Import "migrations" "broken.js")
                   (inl (JS.new_Error "Cannot find module")))].
    split; [|reflexivity]. unfold readMigrationsFromFolder.
    eapply (Exec_await_resolved anything tt _ _ [_] tt ["broken.js"]); [by apply Exec_trigger|].
    exact (readFiles_fails "migrations" [] "broken.js" [] ∅ Sample.load _
             (List.Forall_nil _) eq_refl).
  - split; [reflexivity|]. split; [reflexivity|]. split; [reflexivity|].
    exists [(tt, obs (Readdir "migrations") (inr ["__proto__.js"]));
            (tt, imported "migrations" ("__proto__.js", Sample.load "__proto__.js"))], ∅.
    split; [|split; [reflexivity|apply lookup_empty]]. unfold readMigrationsFromFolder.
    eapply (Exec_await_resolved anything tt _ _ [_] tt ["__proto__.js"]);
      [by apply Exec_trigger|].
    exact (readFiles_proto "migrations" [] "__proto__.js" ∅ Sample.load
             (List.Forall_nil _) (lookup_empty _) eq_refl eq_refl eq_refl).
Qed.

(** ** Witnesses of the further properties *)

Lemma I1_nothing_executed {Schema} (allMigrations : gmap string (Migration Schema)) :
  I1 allMigrations ∅.
Proof. unfold I1, executed_names. rewrite elements_empty. apply prefix_nil. Qed.

Lemma three_well_behaved :
  map_Forall (fun _ mig => well_behaved (up mig)) Sample.three.
Proof.
  unfold Sample.three, Sample.two.
  repeat apply map_Forall_insert_2; try apply map_Forall_empty; by repeat split.
Qed.

Lemma ready_bootstrapped executed : bootstrapped (visible (Sample.ready executed)).
Proof.
  split; [by eexists|]. eexists. split; [reflexivity|].
  rewrite lookup_singleton_eq. by eexists.
Qed.

Lemma ready_lock_free executed : lock_state (visible (Sample.ready executed)) = Some 0.
Proof. exact (lookup_singleton_eq MIGRATION_LOCK_ID 0). Qed.

(** The call of the scenario in which the second forward operation fails. *)
Lemma sample_failure :
  exists tr db' entry,
    Exec database Sample.fresh (doMigrateToLatest Sample.second_fails) tr db'
      (inl (JS.new_Error "boom")) /\
    entry ∈ tr /\ up_failed (JS.new_Error "boom") entry.2.
Proof.
  assert ((fun '(tr, _, r) => (failed_ups tr, r))
            <$> run db_handler 60 Sample.fresh (doMigrateToLatest Sample.second_fails)
          = Some ([JS.new_Error "boom"], inl (JS.new_Error "boom"))) as Hfailed
    by (vm_compute; reflexivity).
  destruct (run db_handler 60 Sample.fresh (doMigrateToLatest Sample.second_fails))
    as [[[tr db'] r]|] eqn:Hrun; [|discriminate Hfailed].
  injection Hfailed as Hfailed ->. apply run_sound in Hrun.
  destruct (failed_ups_elem tr (JS.new_Error "boom")) as (entry & Hin & Hup).
  { rewrite Hfailed. left. }
  by exists tr, db', entry.
Qed.

Lemma run_stops_at_first_failure_witness :
  exists tr db' answer rest,
    Exec database (Sample.ready {["001_init"]}) (runNewMigrations Sample.three) tr db' (inr tt) /\
    events tr = obs SelectMigrationNames answer :: rest.
Proof.
  destruct (run_succeeds Sample.three (Sample.ready {["001_init"]}) {["001_init"]}
              eq_refl three_I1 three_behaved) as (tr & db' & H & _).
  destruct (run_stops_at_first_failure database Sample.three _ _ _ _ H)
    as (answer & rest & Hev & _).
  exists tr, db', answer, rest. split; [exact H|exact Hev].
Defined.

Lemma successful_call_order_witness :
  exists tr db' boot ns executed new n,
    Exec database Sample.fresh (doMigrateToLatest Sample.three) tr db' (inr tt) /\
    events tr
    = boot ++ obs Begin (inr tt) :: retries ns ++ attempt (inr 1)
        :: obs SelectMigrationNames (inr executed) :: (new ≫= applied)
        ++ [release (inr n); obs Commit (inr tt)].
Proof.
  destruct (call_succeeds Sample.three Sample.fresh (I1_nothing_executed _) eq_refl
              three_well_behaved) as (tr & db' & called & H & _).
  destruct (successful_call_order database Sample.three _ _ _ H)
    as (boot & ns & executed & old & new & n & Hev & _).
  exists tr, db', boot, ns, executed, new, n. split; [exact H|exact Hev].
Defined.

Lemma migrations_run_under_lock_witness :
  exists tr db' r entry (tr0 : Trace (dbE Sample.Schema) (Db Sample.Schema)) ns rest,
    Exec database Sample.fresh (doMigrateToLatest Sample.second_fails) tr db' r /\
    entry ∈ tr /\
    events tr
    = events tr0 ++ obs Begin (inr tt) :: retries ns ++ attempt (inr 1) :: rest /\
    entry.2 ∈ rest.
Proof.
  destruct sample_failure as (tr & db' & entry & H & Hin & Hup).
  destruct (migrations_run_under_lock database Sample.second_fails _ _ _ _ _ H Hin)
    as (tr0 & w0 & ns & rest & _ & Hev & _ & Hrest).
  { right. apply up_is_migration, Hup. }
  exists tr, db', (inl (JS.new_Error "boom")), entry, tr0, ns, rest.
  repeat split; [exact H|exact Hin|exact Hev|exact Hrest].
Defined.

Lemma rejected_step_rolls_back_witness :
  exists tr db' (entry : Db Sample.Schema * Obs (dbE Sample.Schema)) pre,
    Exec database Sample.fresh (doMigrateToLatest Sample.second_fails) tr db'
      (inl (JS.new_Error "boom")) /\
    events tr = pre ++ [entry.2; obs Rollback tt] /\
    Forall (fun o => ¬ is_release o) pre.
Proof.
  destruct sample_failure as (tr & db' & entry & H & Hin & Hup).
  destruct (rejected_step_rolls_back database Sample.second_fails _ _ _ _ _
              (JS.new_Error "boom") H Hin) as (_ & pre & Hev & Hpre).
  { right. apply up_is_migration, Hup. }
  { apply Hup. }
  exists tr, db', entry, pre. repeat split; [exact H|exact Hev|exact Hpre].
Defined.

Lemma bootstrap_steps_in_order_witness :
  exists tr db',
    Exec database Sample.fresh ensureMigrationTablesExists tr db' (inr tt) /\
    (3 <= length tr <= 9)%nat.
Proof.
  destruct (bootstrap_runs Sample.fresh) as (tr & db' & H & _).
  exists tr, db'. split; [exact H|].
  exact (proj2 (bootstrap_steps_in_order database _ _ _ _ H) eq_refl).
Defined.

Lemma folder_is_read_first_witness :
  exists tr0 w0 loaded,
    Exec (fun X e => @anything (fsE Sample.Schema +' dbE Sample.Schema) X (inl1 e)) tt
      (@readMigrationsFromFolder Sample.Schema "migrations") tr0 w0 loaded /\
    match loaded with
    | inl err =>
        inl (JS.new_Error "ENOENT") = @inl JS.Error unit err /\ tt = w0 /\
        events [(tt, @obs (fsE Sample.Schema +' dbE Sample.Schema) _
                       (inl1 (Readdir "migrations")) (inl (JS.new_Error "ENOENT")))]
        = retag (fun X => @inl1 (fsE Sample.Schema) (dbE Sample.Schema) X) <$> events tr0
    | inr allMigrations =>
        exists tr1,
          Exec (fun X e => @anything (fsE Sample.Schema +' dbE Sample.Schema) X (inr1 e)) w0 (doMigrateToLatest allMigrations) tr1 tt
            (inl (JS.new_Error "ENOENT")) /\
          events [(tt, @obs (fsE Sample.Schema +' dbE Sample.Schema) _
                         (inl1 (Readdir "migrations")) (inl (JS.new_Error "ENOENT")))]
          = (retag (fun X => @inl1 (fsE Sample.Schema) (dbE Sample.Schema) X) <$> events tr0)
              ++ (retag (fun X => @inr1 (fsE Sample.Schema) (dbE Sample.Schema) X)
                    <$> events tr1)
    end.
Proof.
  apply (folder_is_read_first anything (inl "migrations")).
  cbn. apply Exec_await_rejected. apply Exec_translate.
  exists [(tt, obs (Readdir "migrations") (inl (JS.new_Error "ENOENT")))].
  split; [|reflexivity]. unfold readMigrationsFromFolder.
  apply Exec_await_rejected. by apply Exec_trigger.
Defined.

Lemma bootstrap_is_idempotent_witness :
  exists tr v,
    Exec database (Sample.ready ∅) ensureMigrationTablesExists tr (Sample.ready ∅) (inr tt) /\
    lock_state (visible (Sample.ready ∅)) = Some v /\
    length tr = 3%nat.
Proof.
  destruct (bootstrap_is_idempotent (Sample.ready ∅) (ready_bootstrapped ∅))
    as (tr & v & H & Hv & Hev).
  exists tr, v. split; [exact H|]. split; [exact Hv|].
  apply (f_equal length) in Hev. unfold events in Hev. rewrite length_fmap in Hev. exact Hev.
Defined.

Lemma held_lock_blocks_witness :
  ~ exists tr db' r,
      Exec database
        (mkDb (mkData (Some ∅) (Some {[MIGRATION_LOCK_ID := 1]}) ([] : Sample.Schema)) None)
        (@acquireLock Sample.Schema) tr db' r.
Proof.
  apply held_lock_blocks.
  - by eexists.
  - unfold lock_state. cbn [visible lock_rows mbind option_bind].
    rewrite lookup_singleton_eq. discriminate.
Defined.

Lemma acquire_release_round_trip_witness :
  exists db1,
    Exec database (Sample.ready ∅) (@acquireLock Sample.Schema)
      [(Sample.ready ∅, attempt (inr 1))] db1 (inr tt) /\
    Exec database db1 (@releaseLock Sample.Schema) [(db1, release (inr 1))]
      (Sample.ready ∅) (inr tt).
Proof.
  destruct (acquire_release_round_trip (Sample.ready ∅) (ready_lock_free ∅))
    as (db1 & Hacq & _ & _ & Hrel).
  exists db1. split; [exact Hacq|exact Hrel].
Defined.

Lemma rejected_call_changes_nothing_witness :
  exists tr db',
    Exec database Sample.fresh (doMigrateToLatest Sample.second_fails) tr db'
      (inl (JS.new_Error "boom")) /\
    schema (visible db') = schema (visible Sample.fresh) /\
    ledger db' = ledger Sample.fresh.
Proof.
  destruct sample_failure as (tr & db' & entry & H & _).
  destruct (rejected_call_changes_nothing Sample.second_fails _ _ _ _ H)
    as (_ & Hschema & Hledger & _).
  exists tr, db'. split; [exact H|]. split; [exact Hschema|exact Hledger].
Defined.

Lemma call_brings_up_to_date_witness :
  exists tr db' new,
    Exec database Sample.fresh (doMigrateToLatest Sample.three) tr db' (inr tt) /\
    name <$> new = pending Sample.three (ledger Sample.fresh) /\
    Forall (from_set Sample.three) new /\
    omap called_up (events tr) = new /\
    executed_names (ledger db') = sorted_names Sample.three /\
    lock_state (visible db') = Some 0 /\
    snapshot db' = None.
Proof.
  exact (call_brings_up_to_date Sample.three Sample.fresh (I1_nothing_executed _) eq_refl
           three_well_behaved).
Defined.

Lemma second_run_applies_nothing_witness :
  exists db',
    Exec database db' (runNewMigrations Sample.three)
      [(db', obs SelectMigrationNames (inr (sorted_names Sample.three)))] db' (inr tt).
Proof.
  destruct (run_succeeds Sample.three (Sample.ready {["001_init"]}) {["001_init"]}
              eq_refl three_I1 three_behaved) as (tr & db' & H & _ & Hkept).
  exists db'.
  exact (second_run_applies_nothing Sample.three (Sample.ready {["001_init"]}) {["001_init"]}
           tr db' eq_refl three_I1 H Hkept).
Defined.

Lemma held_lock_hangs_the_call_witness :
  ~ exists tr db' r,
      Exec database
        (mkDb (mkData (Some ∅) (Some {[MIGRATION_LOCK_ID := 1]}) ([] : Sample.Schema)) None)
        (doMigrateToLatest Sample.three) tr db' r.
Proof.
  intros (tr & db' & r & H). revert H.
  apply (held_lock_hangs_the_call Sample.three _ 1).
  - unfold lock_state. cbn [visible lock_rows mbind option_bind].
    rewrite lookup_singleton_eq. reflexivity.
  - discriminate.
Defined.

Lemma listing_order_is_immaterial_witness :
  exists result tr tr',
    Exec anything tt (@readMigrationsFromFolder Sample.Schema "migrations") tr tt (inr result) /\
    head (events tr) = Some (obs (Readdir "migrations") (inr ["001_init.js"; "002_users.ts"])) /\
    Exec anything tt (@readMigrationsFromFolder Sample.Schema "migrations") tr' tt (inr result) /\
    head (events tr') = Some (obs (Readdir "migrations") (inr ["002_users.ts"; "001_init.js"])).
Proof.
  destruct (listing_order_is_immaterial (Schema := Sample.Schema) "migrations"
              ["001_init.js"; "002_users.ts"] ["002_users.ts"; "001_init.js"]
              (fun file => mkModule (js_function (Sample.create file))
                             (js_function (Sample.drop file))))
    as (result & tr & tr' & H & Hev & H' & Hev' & _).
  - apply perm_swap.
  - apply (bool_decide_unpack _). vm_compute. exact I.
  - assert (filter (fun file => eligible file = true) ["001_init.js"; "002_users.ts"]
            = ["001_init.js"; "002_users.ts"]) as -> by (vm_compute; reflexivity).
    cbn [fmap list_fmap].
    repeat first
      [ apply List.Forall_nil
      | apply List.Forall_cons;
        [vm_compute; intros; match goal with H : _ |- _ => discriminate H end|] ].
  - exists result, tr, tr'. rewrite Hev, Hev'. repeat split; [exact H|exact H'].
Defined.

Lemma corrupted_exactly_without_I1_witness :
  (exists err,
     Exec database (Sample.ready {["002_users"]}) (runNewMigrations Sample.only_new)
       [(Sample.ready {["002_users"]},
         obs SelectMigrationNames (inr (executed_names {["002_users"]})))]
       (Sample.ready {["002_users"]}) (inl err))
  <-> ¬ I1 Sample.only_new {["002_users"]}.
Proof.
  exact (corrupted_exactly_without_I1 Sample.only_new (Sample.ready {["002_users"]})
           {["002_users"]} eq_refl).
Defined.
